(** * MQTT relay cover: a shallow embedding of [mqtt_relay_cover.py]

    The entity [MQTTRelayCover] estimates the position of a cover that is
    driven by relays and gives no feedback.  The development has three
    parts:

    - the pure core of the movement controller (clamping, the loop
      condition, the position update), shared by both semantics below;
    - [Module Sequential]: one invocation of a coroutine of the entity, as
      a state-and-exception monad over the attributes of the entity, the
      persisted document, the monotonic clock and a trace of the external
      calls; what the rest of the event loop does at each [await] is read
      from an environment [Env];
    - [Module Concurrent]: several coroutines of one entity scheduled
      cooperatively, as a small-step machine whose atomic steps are the
      runs of code between two [await]s.

    Python floats are modelled by exact rationals ([Q]), Python ints by
    [Z]. *)

From Stdlib Require Import QArith Qminmax Qround Qabs Lqa ZArith List Bool Lia.
From stdpp Require Import gmap strings.

Open Scope Q_scope.

(** ** Module constants *)

Definition _CHECK_INTERVAL : Q := 1 # 10.
Definition _MIN_POSITION : Z := 0.
Definition _MAX_POSITION : Z := 100.
Definition _MAX_PERCENT : Z := 100.
Definition _MILISECONDS_IN_SECOND : Q := 1000.
Definition _DEFAULT_NAME : string := "MQTT Relay Cover".
Definition DOMAIN : string := "mqtt_relay_cover".

(** ** Configuration and construction *)

(** [entity_config]: the keys that [__init__] reads.  A key that is absent
    from the dict is [None]; times are integers in milliseconds. *)
Record ConfigType : Type := {
  CONF_UNIQUE_ID : option string;
  CONF_NAME : option string;
  CONF_FRIENDLY_NAME : option string;
  CONF_OPENING_TIME : option Z;
  CONF_CLOSING_TIME : option Z;
  CONF_MQTT_COMMAND_TOPIC : option string;
  CONF_MQTT_PAYLOAD_OPEN : option string;
  CONF_MQTT_PAYLOAD_CLOSE : option string;
  CONF_MQTT_PAYLOAD_STOP : option string
}.

(** The attributes of the entity that are fixed by [__init__]. *)
Record MQTTRelayCover : Type := {
  unique_id : string;
  _attr_name : string;
  _attr_friendly_name : string;
  _opening_time : Q;
  _closing_time : Q;
  _mqtt_command_topic : option string;
  _mqtt_payload_open : option string;
  _mqtt_payload_close : option string;
  _mqtt_payload_stop : option string
}.

(** [dict.get(key, default)] on an optional entry. *)
Definition dict_get {A : Type} (entry : option A) (dflt : A) : A :=
  match entry with
  | Some v => v
  | None => dflt
  end.

(** [MQTTRelayCover.__init__].  The default of the closing time is
    [self._opening_time], which is already in seconds, and the quotient by
    [_MILISECONDS_IN_SECOND] is applied to whatever [get] returned. *)
Definition __init__ (object_id : string) (entity_config : ConfigType)
  : MQTTRelayCover :=
  let uid := dict_get (CONF_UNIQUE_ID entity_config) object_id in
  let opening :=
    inject_Z (dict_get (CONF_OPENING_TIME entity_config) 0%Z)
    / _MILISECONDS_IN_SECOND in
  let closing :=
    match CONF_CLOSING_TIME entity_config with
    | Some ms => inject_Z ms
    | None => opening
    end / _MILISECONDS_IN_SECOND in
  {| unique_id := uid;
     _attr_name :=
       dict_get (CONF_NAME entity_config)
         (dict_get (CONF_FRIENDLY_NAME entity_config)
            (_DEFAULT_NAME +:+ uid));
     _attr_friendly_name :=
       dict_get (CONF_FRIENDLY_NAME entity_config)
         (dict_get (CONF_NAME entity_config) (_DEFAULT_NAME +:+ uid));
     _opening_time := opening;
     _closing_time := closing;
     _mqtt_command_topic := CONF_MQTT_COMMAND_TOPIC entity_config;
     _mqtt_payload_open := CONF_MQTT_PAYLOAD_OPEN entity_config;
     _mqtt_payload_close := CONF_MQTT_PAYLOAD_CLOSE entity_config;
     _mqtt_payload_stop := CONF_MQTT_PAYLOAD_STOP entity_config |}.

(** A configuration with an opening time and no closing time. *)
Definition config_opening_only (ms : Z) : ConfigType :=
  {| CONF_UNIQUE_ID := None;
     CONF_NAME := None;
     CONF_FRIENDLY_NAME := None;
     CONF_OPENING_TIME := Some ms;
     CONF_CLOSING_TIME := None;
     CONF_MQTT_COMMAND_TOPIC := Some "home/cover/set"%string;
     CONF_MQTT_PAYLOAD_OPEN := Some "OPEN"%string;
     CONF_MQTT_PAYLOAD_CLOSE := Some "CLOSE"%string;
     CONF_MQTT_PAYLOAD_STOP := Some "STOP"%string |}.

(** ** The pure core of the movement controller *)

(** Strict comparison of floats as a boolean. *)
Definition Qltb (x y : Q) : bool := negb (Qle_bool y x).

(** [max(min(kwargs.get("position", 0), _MAX_POSITION), _MIN_POSITION)] *)
Definition clamp_target (kwargs_position : option Z) : Z :=
  Z.max (Z.min (dict_get kwargs_position 0%Z) _MAX_POSITION) _MIN_POSITION.

(** [self._opening_time if is_opening_direction else self._closing_time] *)
Definition movement_time_of (self : MQTTRelayCover)
    (is_opening_direction : bool) : Q :=
  if is_opening_direction then _opening_time self else _closing_time self.

(** [now < start_moving_time + movement_time], the first conjunct of the
    loop condition. *)
Definition within_budget (now start_moving_time movement_time : Q) : bool :=
  Qltb now (start_moving_time + movement_time).

(** The second conjunct of the loop condition, on a position that is a
    number: opening and below the target, or closing and above it. *)
Definition target_pending (is_opening is_closing : bool)
    (current_position : Q) (target_position : Z) : bool :=
  (is_opening && Qltb current_position (inject_Z target_position))
  || (is_closing && Qltb (inject_Z target_position) current_position).

(** The new estimate written by one pass of the loop body, given the
    value of [progress]. *)
Definition next_position (is_opening_direction : bool)
    (initial_position progress : Q) (target_position : Z) : Q :=
  if is_opening_direction
  then Qmin (initial_position + progress) (inject_Z target_position)
  else Qmax (initial_position - progress) (inject_Z target_position).

(** Which of the three configured payloads a publish sends. *)
Inductive Command : Type := OPEN | CLOSE | STOP.

(** [self._mqtt_payload_open], [..._close], [..._stop]. *)
Definition payload_of (self : MQTTRelayCover) (cmd : Command)
  : option string :=
  match cmd with
  | OPEN => _mqtt_payload_open self
  | CLOSE => _mqtt_payload_close self
  | STOP => _mqtt_payload_stop self
  end.

(** The local variables of [async_set_cover_position] that the sampling
    loop reads. *)
Record Locals : Type := {
  target_position : Z;
  initial_position : Q;
  start_moving_time : Q;
  is_opening_direction : bool;
  movement_time : Q
}.

(** [progress = time_elapsed / movement_time * _MAX_PERCENT], for a
    [movement_time] that is not zero. *)
Definition progress_at (l : Locals) (now : Q) : Q :=
  (now - start_moving_time l) / movement_time l * inject_Z _MAX_PERCENT.

(** ** One invocation, sequentially *)

(** The model of this module follows one invocation through its awaits.
    The rest of the event loop acts on it only through [Env]: it lets
    time pass, lets another task run [async_stop_cover], and answers the
    external calls.  It never takes the lock, sets a direction or writes
    the position or the document.  That is what an invocation meets while
    it holds the lock, and what an invocation meets that no other
    movement or calibration overlaps; invocations that overlap are the
    subject of [Concurrent]. *)

Module Sequential.

(** What became of one call of [__async_publish]: the payload went to
    [async_publish], the call was skipped because MQTT is not available,
    or [async_publish] raised. *)
Inductive Delivery : Type := Delivered | Skipped | Errored.

(** The external calls of one invocation, oldest first. *)
Inductive Event : Type :=
| EvPublish (cmd : Command) (d : Delivery)
| EvLogError
| EvSleep (seconds : Q)
| EvSave (data : gmap string (option Q))
| EvWriteState (opening closing : bool) (pos : option Q).

(** [hass.config_entries.async_entries(mqtt.DOMAIN)] and, when there is an
    entry, the result of [async_wait_component] on the first one. *)
Inductive MqttEntries : Type :=
| NoEntries
| FirstEntry (component_loaded : bool).

(** The rest of the event loop, as seen from the invocation.  The index is
    the number of suspension points the invocation has passed. *)
Record Env : Type := {
  (** time that passes at the suspension point, beyond a requested sleep *)
  latency : nat -> Q;
  (** another task runs [async_stop_cover] at the suspension point *)
  interrupted : nat -> bool;
  (** the MQTT config entries at that moment *)
  mqtt_entries : nat -> MqttEntries;
  (** the awaited external call ([async_publish], [async_save]) raises *)
  raises : nat -> bool
}.

Inductive Exn : Type :=
| TypeError
| AttributeError
| ZeroDivisionError
| ExternalError.

(** The mutable attributes of the entity and the world around it. *)
Record World : Type := {
  _attr_is_opening : bool;
  _attr_is_closing : bool;
  (** [None] until [async_added_to_hass] has loaded it *)
  _attr_current_cover_position : option Q;
  (** whether [self._store] is a [Store] (it is [None] after [__init__]) *)
  _store : bool;
  (** whether [self._lock] is held *)
  _lock : bool;
  (** the document persisted under the key [DOMAIN], if there is one *)
  document : option (gmap string (option Q));
  (** [time.monotonic()] *)
  clock : Q;
  (** suspension points passed so far *)
  awaited : nat;
  trace : list Event
}.

Inductive Outcome (A : Type) : Type :=
| Returned (a : A)
| Raised (e : Exn)
| LockBusy
| OutOfFuel.
Arguments Returned {A} a.
Arguments Raised {A} e.
Arguments LockBusy {A}.
Arguments OutOfFuel {A}.

(** A coroutine body: a state transformer that returns, raises, or does
    not finish in this model (it waits for a held lock, or the fuel of the
    sampling loop ran out). *)
Definition M (A : Type) : Type := World -> Outcome A * World.

Definition ret {A : Type} (a : A) : M A := fun w => (Returned a, w).

Definition bind {A B : Type} (m : M A) (k : A -> M B) : M B :=
  fun w =>
    match m w with
    | (Returned a, w') => k a w'
    | (Raised e, w') => (Raised e, w')
    | (LockBusy, w') => (LockBusy, w')
    | (OutOfFuel, w') => (OutOfFuel, w')
    end.

Definition raise {A : Type} (e : Exn) : M A := fun w => (Raised e, w).

Definition gets {A : Type} (f : World -> A) : M A :=
  fun w => (Returned (f w), w).

Definition modify (f : World -> World) : M unit :=
  fun w => (Returned tt, f w).

Notation "'do' x <- m ; k" := (bind m (fun x => k))
  (at level 10, x name, m at level 100, k at level 200).

(** [try: body finally: handler].  An exception of the handler replaces
    the outcome of the body. *)
Definition try_finally {A : Type} (body : M A) (handler : M unit) : M A :=
  fun w =>
    match body w with
    | (Returned a, w') =>
        match handler w' with
        | (Returned _, w'') => (Returned a, w'')
        | (Raised e, w'') => (Raised e, w'')
        | (LockBusy, w'') => (LockBusy, w'')
        | (OutOfFuel, w'') => (OutOfFuel, w'')
        end
    | (Raised e, w') =>
        match handler w' with
        | (Returned _, w'') => (Raised e, w'')
        | (Raised e', w'') => (Raised e', w'')
        | (LockBusy, w'') => (LockBusy, w'')
        | (OutOfFuel, w'') => (OutOfFuel, w'')
        end
    | (LockBusy, w') => (LockBusy, w')
    | (OutOfFuel, w') => (OutOfFuel, w')
    end.

(** *** Field updates *)

Definition upd_opening (b : bool) (w : World) : World :=
  {| _attr_is_opening := b;
     _attr_is_closing := _attr_is_closing w;
     _attr_current_cover_position := _attr_current_cover_position w;
     _store := _store w; _lock := _lock w; document := document w;
     clock := clock w; awaited := awaited w; trace := trace w |}.

Definition upd_closing (b : bool) (w : World) : World :=
  {| _attr_is_opening := _attr_is_opening w;
     _attr_is_closing := b;
     _attr_current_cover_position := _attr_current_cover_position w;
     _store := _store w; _lock := _lock w; document := document w;
     clock := clock w; awaited := awaited w; trace := trace w |}.

Definition upd_position (p : option Q) (w : World) : World :=
  {| _attr_is_opening := _attr_is_opening w;
     _attr_is_closing := _attr_is_closing w;
     _attr_current_cover_position := p;
     _store := _store w; _lock := _lock w; document := document w;
     clock := clock w; awaited := awaited w; trace := trace w |}.

Definition upd_store (b : bool) (w : World) : World :=
  {| _attr_is_opening := _attr_is_opening w;
     _attr_is_closing := _attr_is_closing w;
     _attr_current_cover_position := _attr_current_cover_position w;
     _store := b; _lock := _lock w; document := document w;
     clock := clock w; awaited := awaited w; trace := trace w |}.

Definition upd_lock (b : bool) (w : World) : World :=
  {| _attr_is_opening := _attr_is_opening w;
     _attr_is_closing := _attr_is_closing w;
     _attr_current_cover_position := _attr_current_cover_position w;
     _store := _store w; _lock := b; document := document w;
     clock := clock w; awaited := awaited w; trace := trace w |}.

Definition upd_document (d : option (gmap string (option Q))) (w : World)
  : World :=
  {| _attr_is_opening := _attr_is_opening w;
     _attr_is_closing := _attr_is_closing w;
     _attr_current_cover_position := _attr_current_cover_position w;
     _store := _store w; _lock := _lock w; document := d;
     clock := clock w; awaited := awaited w; trace := trace w |}.

Definition upd_time (t : Q) (n : nat) (w : World) : World :=
  {| _attr_is_opening := _attr_is_opening w;
     _attr_is_closing := _attr_is_closing w;
     _attr_current_cover_position := _attr_current_cover_position w;
     _store := _store w; _lock := _lock w; document := document w;
     clock := t; awaited := n; trace := trace w |}.

Definition upd_event (e : Event) (w : World) : World :=
  {| _attr_is_opening := _attr_is_opening w;
     _attr_is_closing := _attr_is_closing w;
     _attr_current_cover_position := _attr_current_cover_position w;
     _store := _store w; _lock := _lock w; document := document w;
     clock := clock w; awaited := awaited w; trace := trace w ++ [e] |}.

Definition emit (e : Event) : M unit := modify (upd_event e).

Section Coroutines.

Variable env : Env.
Variable self : MQTTRelayCover.

(** A suspension point that asks for [seconds] of sleep (0 for a call that
    is merely awaited): the clock advances, and the task that the
    environment schedules meanwhile may clear the direction flags.  A
    task that takes the lock meanwhile is outside this model. *)
Definition suspend (seconds : Q) : M unit :=
  fun w =>
    let n := awaited w in
    let w' := upd_time (clock w + seconds + latency env n) (S n) w in
    (Returned tt,
     if interrupted env n then upd_closing false (upd_opening false w')
     else w').

Definition time_monotonic : M Q := gets clock.

Definition asyncio_sleep (seconds : Q) : M unit :=
  do _ <- emit (EvSleep seconds);
  suspend seconds.

Definition set_opening (opening : bool) : M unit :=
  modify (upd_opening opening).

Definition set_closing (closing : bool) : M unit :=
  modify (upd_closing closing).

(** The property [is_stopped]. *)
Definition is_stopped (w : World) : bool :=
  negb (_attr_is_opening w) && negb (_attr_is_closing w).

(** The property [is_closed]: [self._attr_current_cover_position == 0]. *)
Definition is_closed (w : World) : bool :=
  match _attr_current_cover_position w with
  | Some p => Qeq_bool p 0
  | None => false
  end.

Definition async_write_ha_state : M unit :=
  fun w =>
    emit (EvWriteState (_attr_is_opening w) (_attr_is_closing w)
            (_attr_current_cover_position w)) w.

(** [__isMQTTAvailable]: the result of [async_wait_component] when there
    is an MQTT entry, else the result of [_LOGGER.error], which is
    [None]. *)
Definition __isMQTTAvailable : M (option bool) :=
  do n <- gets awaited;
  match mqtt_entries env n with
  | FirstEntry component_loaded =>
      do _ <- suspend 0;
      ret (Some component_loaded)
  | NoEntries =>
      do _ <- emit EvLogError;
      ret None
  end.

(** Truth value of what [__isMQTTAvailable] returns. *)
Definition truthy (v : option bool) : bool :=
  match v with
  | Some b => b
  | None => false
  end.

Definition __async_publish (cmd : Command) : M unit :=
  do available <- __isMQTTAvailable;
  if truthy available then
    do n <- gets awaited;
    do _ <- suspend 0;
    if raises env n
    then do _ <- emit (EvPublish cmd Errored); raise ExternalError
    else emit (EvPublish cmd Delivered)
  else emit (EvPublish cmd Skipped).

Definition async_stop_cover : M unit :=
  do _ <- set_opening false;
  do _ <- set_closing false;
  do _ <- __async_publish STOP;
  async_write_ha_state.

(** [self._store.async_save(data)]: the document is replaced by [data]. *)
Definition async_save (data : gmap string (option Q)) : M unit :=
  do store <- gets _store;
  if store then
    do n <- gets awaited;
    do _ <- suspend 0;
    if raises env n then raise ExternalError
    else
      do _ <- modify (upd_document (Some data));
      emit (EvSave data)
  else raise AttributeError.

(** [async with self._lock:].  A lock that is held by another task makes
    the invocation wait, which this model reports as [LockBusy]. *)
Definition async_with_lock {A : Type} (body : M A) : M A :=
  do held <- gets _lock;
  if held then (fun w => (LockBusy, w))
  else
    do _ <- modify (upd_lock true);
    try_finally body (modify (upd_lock false)).

(** [time_elapsed / movement_time] *)
Definition truediv (a b : Q) : M Q :=
  if Qeq_bool b 0 then raise ZeroDivisionError else ret (a / b).

(** The condition of the [while].  The comparisons with the position are
    evaluated only behind a direction flag that is set, and raise
    [TypeError] on [None]. *)
Definition loop_condition (target_position : Z)
    (start_moving_time movement_time now : Q) : M bool :=
  if within_budget now start_moving_time movement_time then
    do opening <- gets _attr_is_opening;
    do closing <- gets _attr_is_closing;
    do current <- gets _attr_current_cover_position;
    match current with
    | Some p => ret (target_pending opening closing p target_position)
    | None => if opening || closing then raise TypeError else ret false
    end
  else ret false.

(** The [while] loop of [async_set_cover_position]; it returns the last
    value of [now].  [fuel] bounds the number of passes. *)
Fixpoint sampling_loop (fuel : nat) (l : Locals) : M Q :=
  do now <- time_monotonic;
  do continue <-
    loop_condition (target_position l) (start_moving_time l)
      (movement_time l) now;
  if continue then
    match fuel with
    | O => fun w => (OutOfFuel, w)
    | S fuel' =>
        do _ <- asyncio_sleep _CHECK_INTERVAL;
        let time_elapsed := now - start_moving_time l in
        do ratio <- truediv time_elapsed (movement_time l);
        let progress := ratio * inject_Z _MAX_PERCENT in
        do _ <- modify (upd_position
                  (Some (next_position (is_opening_direction l)
                           (initial_position l) progress
                           (target_position l))));
        do _ <- async_write_ha_state;
        sampling_loop fuel' l
    end
  else ret now.

(** The block under [async with self._lock:], up to the [while]. *)
Definition start_movement (kwargs_position : option Z) : M Locals :=
  let target := clamp_target kwargs_position in
  do initial <- gets _attr_current_cover_position;
  do start <- time_monotonic;
  match initial with
  | None => raise TypeError
  | Some initial_number =>
      let direction := Qltb initial_number (inject_Z target) in
      do _ <- set_opening direction;
      do _ <- set_closing (negb direction);
      let duration := movement_time_of self direction in
      do _ <- __async_publish (if direction then OPEN else CLOSE);
      ret {| target_position := target;
             initial_position := initial_number;
             start_moving_time := start;
             is_opening_direction := direction;
             movement_time := duration |}
  end.

(** The whole block under [async with self._lock:]. *)
Definition critical_section (fuel : nat) (kwargs_position : option Z)
  : M unit :=
  do l <- start_movement kwargs_position;
  do _ <- sampling_loop fuel l;
  do current <- gets _attr_current_cover_position;
  async_save {[ unique_id self := current ]}.

Definition async_set_cover_position (fuel : nat)
    (kwargs_position : option Z) : M unit :=
  do _ <- async_stop_cover;
  try_finally
    (async_with_lock (critical_section fuel kwargs_position))
    async_stop_cover.

Definition async_open_cover (fuel : nat) : M unit :=
  async_set_cover_position fuel (Some _MAX_POSITION).

Definition async_close_cover (fuel : nat) : M unit :=
  async_set_cover_position fuel (Some _MIN_POSITION).

Definition async_calibrate : M unit :=
  async_with_lock
    (do _ <- set_opening false;
     do _ <- set_closing false;
     do _ <- __async_publish OPEN;
     do _ <- asyncio_sleep (_opening_time self + 1);
     do _ <- __async_publish STOP;
     do _ <- asyncio_sleep 1;
     do _ <- __async_publish CLOSE;
     do _ <- asyncio_sleep (_closing_time self + 1);
     do _ <- __async_publish STOP;
     do _ <- asyncio_sleep 1;
     do _ <- modify (upd_position (Some 0));
     do current <- gets _attr_current_cover_position;
     do _ <- async_save {[ unique_id self := current ]};
     async_write_ha_state).

(** [async_added_to_hass].  [Store.async_load] returns [None] when nothing
    was ever saved under the key, and the document otherwise.  The
    registration of the calibrate service that ends the method touches
    none of the attributes modelled here. *)
Definition async_added_to_hass : M unit :=
  do _ <- modify (upd_store true);
  do _ <- suspend 0;
  do stored_data <- gets document;
  match stored_data with
  | None => raise AttributeError
  | Some data =>
      modify (upd_position (dict_get (data !! unique_id self) (Some 0)))
  end.

End Coroutines.

(** The entity right after [__init__], in a world with the given persisted
    document and clock. *)
Definition fresh_world (doc : option (gmap string (option Q))) (t : Q)
  : World :=
  {| _attr_is_opening := false;
     _attr_is_closing := false;
     _attr_current_cover_position := None;
     _store := false;
     _lock := false;
     document := doc;
     clock := t;
     awaited := 0;
     trace := [] |}.

(** An environment in which only sleeps take time, nobody interferes, MQTT
    is loaded and no call raises. *)
Definition quiet_env : Env :=
  {| latency := fun _ => 0;
     interrupted := fun _ => false;
     mqtt_entries := fun _ => FirstEntry true;
     raises := fun _ => false |}.

End Sequential.

(** ** Several invocations, scheduled cooperatively *)

(** The event loop runs one task at a time and switches only where a task
    awaits.  The machine below lets the scheduler pick any task that can
    resume, in any order, lets any task that waits for the lock take it
    once it is free, and lets any awaited publish or save raise: every
    run of the event loop is a run of the machine. *)

Module Concurrent.

(** The services of the entity. *)
Inductive Request : Type :=
| SetPosition (kwargs_position : option Z)
| OpenCover
| CloseCover
| StopCover
| Calibrate.

(** The four publish-then-sleep stages of [async_calibrate]: OPEN, STOP,
    CLOSE, STOP. *)
Inductive Stage : Type := RunUp | SettleUp | RunDown | SettleDown.

Definition stage_sleep (self : MQTTRelayCover) (st : Stage) : Q :=
  match st with
  | RunUp => _opening_time self + 1
  | SettleUp => 1
  | RunDown => _closing_time self + 1
  | SettleDown => 1
  end.

Definition next_stage (st : Stage) : option Stage :=
  match st with
  | RunUp => Some SettleUp
  | SettleUp => Some RunDown
  | RunDown => Some SettleDown
  | SettleDown => None
  end.

(** Where a task is suspended.  A task gives up control only at an
    [await]; the code between two of them runs as one step. *)
Inductive Pc : Type :=
| NotStarted
  (** [async_set_cover_position], in the first [async_stop_cover], at the
      publish *)
| InFirstStop (kwargs_position : option Z)
  (** at [async with self._lock] *)
| AtLock (kwargs_position : option Z)
  (** at the publish of OPEN or CLOSE *)
| InMovePublish (l : Locals)
  (** in [asyncio.sleep(_CHECK_INTERVAL)]; [now] is the value bound by the
      loop condition, [wake] the time at which the sleep is over *)
| InSleep (l : Locals) (now wake : Q)
  (** at [self._store.async_save(data)] *)
| InSave (data : gmap string (option Q))
  (** in the [async_stop_cover] of the [finally], at the publish *)
| InFinalStop
  (** in [async_stop_cover] called as a service, at the publish *)
| InStop
  (** [async_calibrate] at the publish of a stage, in its sleep, and at
      [async_save] *)
| InCalPublish (st : Stage)
| InCalSleep (st : Stage) (wake : Q)
| InCalSave (data : gmap string (option Q))
| Done.

(** What the tasks of one entity share.  The messages and the state
    announcements leave no mark on it: a publish is a suspension point
    that returns or raises, and nothing more. *)
Record Shared : Type := {
  _attr_is_opening : bool;
  _attr_is_closing : bool;
  _attr_current_cover_position : option Q;
  _lock : bool;
  document : option (gmap string (option Q));
  clock : Q
}.

Definition clear_flags (s : Shared) : Shared :=
  {| _attr_is_opening := false;
     _attr_is_closing := false;
     _attr_current_cover_position := _attr_current_cover_position s;
     _lock := _lock s; document := document s; clock := clock s |}.

Definition set_direction (opening : bool) (s : Shared) : Shared :=
  {| _attr_is_opening := opening;
     _attr_is_closing := negb opening;
     _attr_current_cover_position := _attr_current_cover_position s;
     _lock := _lock s; document := document s; clock := clock s |}.

Definition set_position (p : option Q) (s : Shared) : Shared :=
  {| _attr_is_opening := _attr_is_opening s;
     _attr_is_closing := _attr_is_closing s;
     _attr_current_cover_position := p;
     _lock := _lock s; document := document s; clock := clock s |}.

Definition set_lock (b : bool) (s : Shared) : Shared :=
  {| _attr_is_opening := _attr_is_opening s;
     _attr_is_closing := _attr_is_closing s;
     _attr_current_cover_position := _attr_current_cover_position s;
     _lock := b; document := document s; clock := clock s |}.

Definition save (data : gmap string (option Q)) (s : Shared) : Shared :=
  {| _attr_is_opening := _attr_is_opening s;
     _attr_is_closing := _attr_is_closing s;
     _attr_current_cover_position := _attr_current_cover_position s;
     _lock := _lock s;
     document := Some data;
     clock := clock s |}.

(** The argument of [async_save]: [{self.unique_id:
    self._attr_current_cover_position}]. *)
Definition own_entry (self : MQTTRelayCover) (s : Shared)
  : gmap string (option Q) :=
  {[ unique_id self := _attr_current_cover_position s ]}.

Definition advance (d : Q) (s : Shared) : Shared :=
  {| _attr_is_opening := _attr_is_opening s;
     _attr_is_closing := _attr_is_closing s;
     _attr_current_cover_position := _attr_current_cover_position s;
     _lock := _lock s; document := document s; clock := clock s + d |}.

(** The way out of the critical section, by its end or by an exception:
    the lock is released, and the [finally] clause runs [async_stop_cover]
    up to its publish. *)
Definition leave (s : Shared) : Pc * Shared :=
  (InFinalStop, clear_flags (set_lock false s)).

(** The loop condition, and what follows it up to the next [await]: the
    sleep of the loop body, or [async_save]. *)
Definition check_loop (self : MQTTRelayCover) (l : Locals) (s : Shared)
  : Pc * Shared :=
  let now := clock s in
  if within_budget now (start_moving_time l) (movement_time l) then
    match _attr_current_cover_position s with
    | Some p =>
        if target_pending (_attr_is_opening s) (_attr_is_closing s) p
             (target_position l)
        then (InSleep l now (now + _CHECK_INTERVAL), s)
        else (InSave (own_entry self s), s)
    | None =>
        if _attr_is_opening s || _attr_is_closing s
        then leave s
        else (InSave (own_entry self s), s)
    end
  else (InSave (own_entry self s), s).

(** The loop body after the sleep, then the next check of the
    condition. *)
Definition loop_body (self : MQTTRelayCover) (l : Locals) (now : Q)
    (s : Shared) : Pc * Shared :=
  if Qeq_bool (movement_time l) 0 then leave s
  else
    check_loop self l
      (set_position
         (Some (next_position (is_opening_direction l) (initial_position l)
                  (progress_at l now) (target_position l))) s).

(** The critical section from the acquisition of the lock to the publish
    of OPEN or CLOSE. *)
Definition enter (self : MQTTRelayCover) (kwargs_position : option Z)
    (s : Shared) : Pc * Shared :=
  let target := clamp_target kwargs_position in
  let s1 := set_lock true s in
  match _attr_current_cover_position s1 with
  | None => leave s1
  | Some initial_number =>
      let direction := Qltb initial_number (inject_Z target) in
      (InMovePublish
         {| target_position := target;
            initial_position := initial_number;
            start_moving_time := clock s1;
            is_opening_direction := direction;
            movement_time := movement_time_of self direction |},
       set_direction direction s1)
  end.

(** The first step of a request. *)
Definition begin (r : Request) (s : Shared) : option (Pc * Shared) :=
  match r with
  | SetPosition kwargs_position =>
      Some (InFirstStop kwargs_position, clear_flags s)
  | OpenCover => Some (InFirstStop (Some _MAX_POSITION), clear_flags s)
  | CloseCover => Some (InFirstStop (Some _MIN_POSITION), clear_flags s)
  | StopCover => Some (InStop, clear_flags s)
  | Calibrate =>
      if _lock s then None
      else Some (InCalPublish RunUp, clear_flags (set_lock true s))
  end.

(** One step of a task: from the [await] it is suspended at to the next
    one.  [None] when the task cannot resume yet (the lock is held, the
    sleep is not over) or has returned. *)
Definition step_task (self : MQTTRelayCover) (r : Request) (pc : Pc)
    (s : Shared) : option (Pc * Shared) :=
  match pc with
  | NotStarted => begin r s
  | InFirstStop kwargs_position =>
      Some (AtLock kwargs_position, s)
  | AtLock kwargs_position =>
      if _lock s then None else Some (enter self kwargs_position s)
  | InMovePublish l =>
      Some (check_loop self l s)
  | InSleep l now wake =>
      if Qle_bool wake (clock s) then Some (loop_body self l now s)
      else None
  | InSave data => Some (leave (save data s))
  | InFinalStop => Some (Done, s)
  | InStop => Some (Done, s)
  | InCalPublish st =>
      Some (InCalSleep st (clock s + stage_sleep self st), s)
  | InCalSleep st wake =>
      if Qle_bool wake (clock s) then
        match next_stage st with
        | Some st' => Some (InCalPublish st', s)
        | None =>
            let s' := set_position (Some 0) s in
            Some (InCalSave (own_entry self s'), s')
        end
      else None
  | InCalSave data => Some (Done, set_lock false (save data s))
  | Done => None
  end.

(** One step of a task whose awaited call raises: [async_publish], reached
    through [__async_publish], or [async_save].  The exception leaves the
    invocation through the [async with] and the [finally] that enclose the
    call: out of the first [async_stop_cover] of a move, which no [try]
    encloses, the invocation is over; out of the critical section of a
    move the lock is released and the [finally] runs its
    [async_stop_cover]; out of [async_calibrate] the lock is released and
    the invocation is over.  [None] where the task awaits nothing that
    raises (the lock, a sleep), has not started or has returned. *)
Definition fail_task (pc : Pc) (s : Shared) : option (Pc * Shared) :=
  match pc with
  | InFirstStop _ => Some (Done, s)
  | InMovePublish _ => Some (leave s)
  | InSave _ => Some (leave s)
  | InFinalStop => Some (Done, s)
  | InStop => Some (Done, s)
  | InCalPublish _ => Some (Done, set_lock false s)
  | InCalSave _ => Some (Done, set_lock false s)
  | NotStarted | AtLock _ | InSleep _ _ _ | InCalSleep _ _ | Done => None
  end.

(** The entity with its tasks. *)
Record Machine : Type := {
  shared : Shared;
  tasks : list (Request * Pc)
}.

(** What the event loop does next: resume task [i], let time pass, or
    resume task [i] with the exception of the call it awaits. *)
Inductive Action : Type :=
| Resume (i : nat)
| Elapse (d : Q)
| Fail (i : nat).

Definition step (self : MQTTRelayCover) (m : Machine) (a : Action)
  : option Machine :=
  match a with
  | Elapse d =>
      if Qle_bool 0 d
      then Some {| shared := advance d (shared m); tasks := tasks m |}
      else None
  | Resume i =>
      match tasks m !! i with
      | Some (r, pc) =>
          match step_task self r pc (shared m) with
          | Some (pc', s') =>
              Some {| shared := s'; tasks := <[ i := (r, pc') ]> (tasks m) |}
          | None => None
          end
      | None => None
      end
  | Fail i =>
      match tasks m !! i with
      | Some (r, pc) =>
          match fail_task pc (shared m) with
          | Some (pc', s') =>
              Some {| shared := s'; tasks := <[ i := (r, pc') ]> (tasks m) |}
          | None => None
          end
      | None => None
      end
  end.

(** A schedule, run from left to right. *)
Fixpoint exec (self : MQTTRelayCover) (schedule : list Action)
    (m : Machine) : option Machine :=
  match schedule with
  | [] => Some m
  | a :: schedule' =>
      match step self m a with
      | Some m' => exec self schedule' m'
      | None => None
      end
  end.

(** The entity after [async_added_to_hass] loaded position [p], with the
    given requests pending. *)
Definition boot (self : MQTTRelayCover) (p : Q) (t : Q)
    (requests : list Request) : Machine :=
  {| shared :=
       {| _attr_is_opening := false;
          _attr_is_closing := false;
          _attr_current_cover_position := Some p;
          _lock := false;
          document := Some {[ unique_id self := Some p ]};
          clock := t |};
     tasks := map (fun r => (r, NotStarted)) requests |}.

Definition all_done (m : Machine) : bool :=
  forallb (fun t => match snd t with Done => true | _ => false end)
    (tasks m).

End Concurrent.

(** * Vocabulary of the statements *)

Import Sequential.

(** The outcome is a return or an exception: the coroutine came to an
    end. *)
Definition finished {A : Type} (o : Outcome A) : Prop :=
  match o with
  | Returned _ | Raised _ => True
  | LockBusy | OutOfFuel => False
  end.

(** What a suspension point or an external call may change besides the
    clock and the trace: nothing but the direction flags, which it may
    clear. *)
Record undisturbed (w w' : World) : Prop := {
  und_position :
    Sequential._attr_current_cover_position w'
    = Sequential._attr_current_cover_position w;
  und_store : Sequential._store w' = Sequential._store w;
  und_lock : Sequential._lock w' = Sequential._lock w;
  und_document : Sequential.document w' = Sequential.document w;
  und_flags :
    (Sequential._attr_is_opening w' = Sequential._attr_is_opening w
     /\ Sequential._attr_is_closing w' = Sequential._attr_is_closing w)
    \/ (Sequential._attr_is_opening w' = false
        /\ Sequential._attr_is_closing w' = false)
}.

(** The shape of what one call of [__async_publish] adds to the trace. *)
Definition publish_events (cmd : Command) (d : Delivery) (logged : bool)
  : list Event :=
  (if logged then [EvLogError] else []) ++ [EvPublish cmd d].

(** From [w] to [w'] only suspension points and external calls happened,
    and they added [evs] to the trace. *)
Definition extends (w w' : World) (evs : list Event) : Prop :=
  undisturbed w w' /\ trace w' = trace w ++ evs.

(** The trace without the error log and without the fate of each publish:
    what the invocation asked for, in order. *)
Inductive Action : Type :=
| Publish (cmd : Command)
| Sleep (seconds : Q)
| Save (data : gmap string (option Q))
| Announce (opening closing : bool) (pos : option Q).

Fixpoint outline (evs : list Event) : list Action :=
  match evs with
  | [] => []
  | EvPublish cmd _ :: evs' => Publish cmd :: outline evs'
  | EvLogError :: evs' => outline evs'
  | EvSleep seconds :: evs' => Sleep seconds :: outline evs'
  | EvSave data :: evs' => Save data :: outline evs'
  | EvWriteState o c p :: evs' => Announce o c p :: outline evs'
  end.

(** How many times the invocation asked for the publish of [cmd]. *)
Fixpoint count_publish (cmd : Command) (acts : list Action) : nat :=
  match acts with
  | [] => 0
  | Publish c :: acts' =>
      match c, cmd with
      | OPEN, OPEN | CLOSE, CLOSE | STOP, STOP => S (count_publish cmd acts')
      | _, _ => count_publish cmd acts'
      end
  | _ :: acts' => count_publish cmd acts'
  end.

(** The documents written to the store, in order. *)
Fixpoint saved (acts : list Action) : list (gmap string (option Q)) :=
  match acts with
  | [] => []
  | Save data :: acts' => data :: saved acts'
  | _ :: acts' => saved acts'
  end.

(** The sleeps of the invocation, in order. *)
Fixpoint sleeps (acts : list Action) : list Q :=
  match acts with
  | [] => []
  | Sleep seconds :: acts' => seconds :: sleeps acts'
  | _ :: acts' => sleeps acts'
  end.

(** The local variables that [async_set_cover_position] fixes when it
    enters the critical section at time [t] with the position at [q]. *)
Definition locals_of (self : MQTTRelayCover) (kwargs_position : option Z)
    (q t : Q) : Locals :=
  let target := clamp_target kwargs_position in
  let direction := Qltb q (inject_Z target) in
  {| target_position := target;
     initial_position := q;
     start_moving_time := t;
     is_opening_direction := direction;
     movement_time := movement_time_of self direction |}.

(** OPEN when opening, CLOSE when closing. *)
Definition direction_command (l : Locals) : Command :=
  if is_opening_direction l then OPEN else CLOSE.

(** A number of passes after which the sampling loop of a movement of
    duration [d] is over: ten passes per second of travel. *)
Definition sampling_bound (d : Q) : nat := Z.to_nat (Qceiling (d * 10)).

Definition enough_fuel (self : MQTTRelayCover) : nat :=
  Nat.max (sampling_bound (_opening_time self))
    (sampling_bound (_closing_time self)).

(** From [w] to [w'] nothing was saved: the trace grew by events that are
    not saves, and the document is the same. *)
Definition quietly (w w' : World) : Prop :=
  exists evs,
    trace w' = trace w ++ evs
    /\ saved (outline evs) = []
    /\ Sequential.document w' = Sequential.document w.

(** From [w] to [w'] one document was saved, the one that maps the
    identifier of the cover to the position in [w'] and holds nothing
    else, and it is the document in [w']. *)
Definition wrote_own_entry (self : MQTTRelayCover) (w w' : World) : Prop :=
  exists evs,
    trace w' = trace w ++ evs
    /\ saved (outline evs)
       = [{[ unique_id self := Sequential._attr_current_cover_position w' ]}]
    /\ Sequential.document w'
       = Some {[ unique_id self
                 := Sequential._attr_current_cover_position w' ]}.

(** A computation that never saves. *)
Definition silent {A : Type} (m : M A) : Prop :=
  forall w o w', m w = (o, w') -> quietly w w'.

(** A computation that never saves and leaves the position alone. *)
Definition still {A : Type} (m : M A) : Prop :=
  forall w o w',
    m w = (o, w') ->
    quietly w w'
    /\ Sequential._attr_current_cover_position w'
       = Sequential._attr_current_cover_position w.

(** A computation that saves the entry of the cover exactly when it
    returns. *)
Definition saving (self : MQTTRelayCover) {A : Type} (m : M A) : Prop :=
  forall w o w',
    m w = (o, w') ->
    match o with
    | Returned _ => wrote_own_entry self w w'
    | _ => quietly w w'
    end.

(** A computation that has saved the entry of the cover when it returns,
    and has saved that entry or nothing when it does not. *)
Definition persisting (self : MQTTRelayCover) {A : Type} (m : M A) : Prop :=
  forall w o w',
    m w = (o, w') ->
    match o with
    | Returned _ => wrote_own_entry self w w'
    | _ => quietly w w' \/ wrote_own_entry self w w'
    end.

(** What an operation of the cover [self] did to the store between [w]
    and [w']: nothing, or one save of a document that holds the position
    of this cover and no entry for any [other] identifier; when the
    operation returned it is the latter. *)
Definition store_effect (self : MQTTRelayCover) (other : string)
    (w : World) (o : Outcome unit) (w' : World) : Prop :=
  exists evs,
    trace w' = trace w ++ evs
    /\ ((saved (outline evs) = []
         /\ Sequential.document w' = Sequential.document w)
        \/ (saved (outline evs)
            = [{[ unique_id self
                  := Sequential._attr_current_cover_position w' ]}]
            /\ Sequential.document w'
               = Some {[ unique_id self
                         := Sequential._attr_current_cover_position w' ]}
            /\ Sequential.document w' ≫= (fun data => data !! other) = None))
    /\ match o with
       | Returned _ => saved (outline evs) <> []
       | _ => True
       end.

(** The world after one pass of the loop body that started in [w], slept
    into [w1] and read [now] before the sleep. *)
Definition after_pass (l : Locals) (now : Q) (w1 : World) : World :=
  let p :=
    Some (next_position (is_opening_direction l) (initial_position l)
            (progress_at l now) (target_position l)) in
  upd_event
    (EvWriteState (Sequential._attr_is_opening w1)
       (Sequential._attr_is_closing w1) p)
    (upd_position p w1).

(** The closing time of a cover configured with an opening time only, and
    that one 0, is 0. *)
Definition timeless_cover : MQTTRelayCover :=
  __init__ "shutter" (config_opening_only 0).

(** A cover with an opening and a closing time of 10 s. *)
Definition ten_second_cover : MQTTRelayCover :=
  __init__ "blind"
    {| CONF_UNIQUE_ID := None;
       CONF_NAME := None;
       CONF_FRIENDLY_NAME := None;
       CONF_OPENING_TIME := Some 10000%Z;
       CONF_CLOSING_TIME := Some 10000%Z;
       CONF_MQTT_COMMAND_TOPIC := Some "home/blind/set"%string;
       CONF_MQTT_PAYLOAD_OPEN := Some "OPEN"%string;
       CONF_MQTT_PAYLOAD_CLOSE := Some "CLOSE"%string;
       CONF_MQTT_PAYLOAD_STOP := Some "STOP"%string |}.

(** The entity after [async_added_to_hass], at rest at position [p], with
    the document [doc] persisted. *)
Definition resting_world (p : Q) (doc : gmap string (option Q)) : World :=
  {| Sequential._attr_is_opening := false;
     Sequential._attr_is_closing := false;
     Sequential._attr_current_cover_position := Some p;
     Sequential._store := true;
     Sequential._lock := false;
     Sequential.document := Some doc;
     Sequential.clock := 0;
     awaited := 0;
     trace := [] |}.

(** A world in which the store also holds the position of another cover,
    and this cover rests at 10. *)
Definition shared_store_world : World :=
  resting_world 10 {[ "shutter"%string := Some 70; "blind"%string := Some 10 ]}.

(** That world after the cover moved from 10 to 12 in the quiet
    environment. *)
Definition shared_store_world_after_move : World :=
  snd (async_set_cover_position quiet_env ten_second_cover 5 (Some 12%Z)
         shared_store_world).

(** The same entity while some movement has set the opening flag. *)
Definition opening_world (p : Q) (doc : gmap string (option Q)) : World :=
  upd_opening true (resting_world p doc).

(** ** Vocabulary for the concurrent machine *)

(** A task is in the part of the critical section in which its direction
    flags are meant to be set: from the publish of OPEN or CLOSE to the
    save. *)
Definition moving (pc : Concurrent.Pc) : bool :=
  match pc with
  | Concurrent.InMovePublish _
  | Concurrent.InSleep _ _ _
  | Concurrent.InSave _ => true
  | _ => false
  end.

(** The local variables of a movement at clock [t]: it started from a
    position in range, towards a target in range, not after [t]. *)
Definition locals_ok (l : Locals) (t : Q) : Prop :=
  0 <= initial_position l <= 100
  /\ (0 <= target_position l <= 100)%Z
  /\ start_moving_time l <= t.

(** What holds of a suspended task at clock [t]. *)
Definition pc_ok (t : Q) (pc : Concurrent.Pc) : Prop :=
  match pc with
  | Concurrent.InMovePublish l => locals_ok l t
  | Concurrent.InSleep l now wake =>
      locals_ok l t
      /\ start_moving_time l <= now
      /\ now < start_moving_time l + movement_time l
  | _ => True
  end.

(** The invariant of the machine: the position is a number in [0,100];
    every task is in order; and when a direction flag is set, some task is
    in the moving part of its critical section. *)
Definition invariant (m : Concurrent.Machine) : Prop :=
  (exists q,
      Concurrent._attr_current_cover_position (Concurrent.shared m) = Some q
      /\ 0 <= q <= 100)
  /\ (forall j r pc,
        Concurrent.tasks m !! j = Some (r, pc) ->
        pc_ok (Concurrent.clock (Concurrent.shared m)) pc)
  /\ (Concurrent._attr_is_opening (Concurrent.shared m)
      || Concurrent._attr_is_closing (Concurrent.shared m) = true ->
      exists j r pc,
        Concurrent.tasks m !! j = Some (r, pc) /\ moving pc = true).

(** What one step of a task keeps: the position in range, the clock, the
    order of the task; and it leaves the flags cleared, or the task in the
    moving part, or the flags as they were while the task was not in the
    moving part. *)
Definition step_keeps (pc : Concurrent.Pc) (s : Concurrent.Shared)
    (pc' : Concurrent.Pc) (s' : Concurrent.Shared) : Prop :=
  (exists q,
      Concurrent._attr_current_cover_position s' = Some q /\ 0 <= q <= 100)
  /\ Concurrent.clock s' = Concurrent.clock s
  /\ pc_ok (Concurrent.clock s') pc'
  /\ ((Concurrent._attr_is_opening s' = false
       /\ Concurrent._attr_is_closing s' = false)
      \/ moving pc' = true
      \/ (Concurrent._attr_is_opening s' = Concurrent._attr_is_opening s
          /\ Concurrent._attr_is_closing s' = Concurrent._attr_is_closing s
          /\ moving pc = false)).

(** A cover with an opening and a closing time of 1 s. *)
Definition one_second_cover : MQTTRelayCover :=
  __init__ "blind"
    {| CONF_UNIQUE_ID := None;
       CONF_NAME := None;
       CONF_FRIENDLY_NAME := None;
       CONF_OPENING_TIME := Some 1000%Z;
       CONF_CLOSING_TIME := Some 1000%Z;
       CONF_MQTT_COMMAND_TOPIC := Some "home/blind/set"%string;
       CONF_MQTT_PAYLOAD_OPEN := Some "OPEN"%string;
       CONF_MQTT_PAYLOAD_CLOSE := Some "CLOSE"%string;
       CONF_MQTT_PAYLOAD_STOP := Some "STOP"%string |}.

(** Two moves on one cover: task 0 to 100, task 1 to 50. *)
Definition overlapping_moves : list Concurrent.Request :=
  [Concurrent.SetPosition (Some 100%Z); Concurrent.SetPosition (Some 50%Z)].

(** Task 0 starts, takes the lock and makes two passes of its loop; task 1
    arrives, runs its first stop and waits for the lock; task 0 wakes up,
    finds the flags cleared, leaves the loop, saves, releases the lock and
    starts its last stop; while that stop awaits its publish, task 1 takes
    the lock and sets its direction. *)
Definition overlapped_prefix : list Concurrent.Action :=
  [Concurrent.Resume 0; Concurrent.Resume 0; Concurrent.Resume 0;
   Concurrent.Resume 0; Concurrent.Elapse (1 # 10);
   Concurrent.Resume 0; Concurrent.Elapse (1 # 10);
   Concurrent.Resume 0;
   Concurrent.Resume 1; Concurrent.Resume 1;
   Concurrent.Elapse (1 # 10);
   Concurrent.Resume 0; Concurrent.Resume 0;
   Concurrent.Resume 1].

(** Then task 0 returns, and task 1 runs to its end. *)
Definition overlapping_schedule : list Concurrent.Action :=
  overlapped_prefix
  ++ [Concurrent.Resume 0;
      Concurrent.Resume 1; Concurrent.Elapse (1 # 10);
      Concurrent.Resume 1; Concurrent.Elapse (1 # 10);
      Concurrent.Resume 1; Concurrent.Elapse (1 # 10);
      Concurrent.Resume 1; Concurrent.Elapse (1 # 10);
      Concurrent.Resume 1; Concurrent.Resume 1; Concurrent.Resume 1].

(** The machine at the end of a schedule that can be run. *)
Definition machine_after (self : MQTTRelayCover)
    (schedule : list Concurrent.Action) (m : Concurrent.Machine)
  : Concurrent.Machine :=
  match Concurrent.exec self schedule m with
  | Some m' => m'
  | None => m
  end.

(** The request is a movement: [async_set_cover_position], called
    directly or through [async_open_cover] or [async_close_cover]. *)
Definition is_move (r : Concurrent.Request) : bool :=
  match r with
  | Concurrent.SetPosition _ | Concurrent.OpenCover | Concurrent.CloseCover =>
      true
  | Concurrent.StopCover | Concurrent.Calibrate => false
  end.

(** Where a task of the request [r] can be suspended. *)
Definition on_track (r : Concurrent.Request) (pc : Concurrent.Pc) : bool :=
  match pc with
  | Concurrent.NotStarted | Concurrent.Done => true
  | Concurrent.InFirstStop _ | Concurrent.AtLock _
  | Concurrent.InMovePublish _ | Concurrent.InSleep _ _ _
  | Concurrent.InSave _ | Concurrent.InFinalStop => is_move r
  | Concurrent.InStop =>
      match r with Concurrent.StopCover => true | _ => false end
  | Concurrent.InCalPublish _ | Concurrent.InCalSleep _ _
  | Concurrent.InCalSave _ =>
      match r with Concurrent.Calibrate => true | _ => false end
  end.

(** What one step of a task does to the direction flags: it leaves them
    cleared, or the task in the moving part, or the flags as they were
    while the task was not in the moving part. *)
Definition flags_step (pc : Concurrent.Pc) (s : Concurrent.Shared)
    (pc' : Concurrent.Pc) (s' : Concurrent.Shared) : Prop :=
  (Concurrent._attr_is_opening s' = false
   /\ Concurrent._attr_is_closing s' = false)
  \/ moving pc' = true
  \/ (Concurrent._attr_is_opening s' = Concurrent._attr_is_opening s
      /\ Concurrent._attr_is_closing s' = Concurrent._attr_is_closing s
      /\ moving pc = false).

(** Every task is where its request can take it, and when a direction
    flag is set, some task is in the moving part of its critical
    section. *)
Definition orderly (m : Concurrent.Machine) : Prop :=
  (forall j r pc,
      Concurrent.tasks m !! j = Some (r, pc) -> on_track r pc = true)
  /\ (Concurrent._attr_is_opening (Concurrent.shared m)
      || Concurrent._attr_is_closing (Concurrent.shared m) = true ->
      exists j r pc,
        Concurrent.tasks m !! j = Some (r, pc) /\ moving pc = true).

(** * The platform and the integration *)

(** ** [cover.py]: the entities of a platform configuration *)

Module Platform.

(** [_LOGGER.info(...)] returns [None]. *)
Definition logger_info (message : string) : option unit := None.

(** Truth value of an optional result: [None] is false. *)
Definition is_true (v : option unit) : bool :=
  match v with
  | Some _ => true
  | None => false
  end.

(** The list that [async_setup_platform] hands to [async_add_entities]:
    one [MQTTRelayCover] for each item of [config[CONF_COVERS]], in order,
    kept when [not _LOGGER.info(...)] holds. *)
Definition async_setup_platform (covers : list (string * ConfigType))
  : list MQTTRelayCover :=
  map (fun item => __init__ (fst item) (snd item))
    (List.filter
       (fun item =>
          negb (is_true
                  (logger_info ("Setting MQTT Relay Cover: " +:+ fst item))))
       covers).

End Platform.

(** ** [__init__.py]: the data of the config entries *)

Module Integration.

Inductive Result (A : Type) : Type :=
| Finished (a : A)
| KeyError
| PlatformError.
Arguments Finished {A} a.
Arguments KeyError {A}.
Arguments PlatformError {A}.

Section Entries.

(** [entry.data] *)
Variable Data : Type.

(** [async_setup_entry] on [hass.data], a dict of dicts: by domain, then
    by entry id.  The entry is stored before the platforms are set up;
    [forwarded] tells whether [async_forward_entry_setups] returned or
    raised. *)
Definition async_setup_entry (forwarded : bool) (entry_id : string)
    (entry_data : Data) (hass_data : gmap string (gmap string Data))
  : Result bool * gmap string (gmap string Data) :=
  let domain_data := default ∅ (hass_data !! DOMAIN) in
  (if forwarded then Finished true else PlatformError,
   <[ DOMAIN := <[ entry_id := entry_data ]> domain_data ]> hass_data).

(** [async_unload_entry]; [unload_ok] is what [async_unload_platforms]
    returned.  [hass.data[DOMAIN]] and [pop(entry_id)] raise [KeyError] on
    a missing key. *)
Definition async_unload_entry (unload_ok : bool) (entry_id : string)
    (hass_data : gmap string (gmap string Data))
  : Result bool * gmap string (gmap string Data) :=
  if unload_ok then
    match hass_data !! DOMAIN with
    | None => (KeyError, hass_data)
    | Some domain_data =>
        match domain_data !! entry_id with
        | None => (KeyError, hass_data)
        | Some _ =>
            (Finished true,
             <[ DOMAIN := delete entry_id domain_data ]> hass_data)
        end
    end
  else (Finished false, hass_data).

End Entries.

End Integration.

(** ** Vocabulary of the further statements *)

(** The position is a number between [lo] and [hi]. *)
Definition position_within (lo hi : Q) (w : World) : Prop :=
  exists p,
    Sequential._attr_current_cover_position w = Some p /\ lo <= p <= hi.

(** A computation that keeps [inv], whatever its outcome. *)
Definition keeps (inv : World -> Prop) {A : Type} (m : M A) : Prop :=
  forall w o w', inv w -> m w = (o, w') -> inv w'.

(** The estimate [p] has not gone past the target [t] of a movement in
    the direction [direction]. *)
Definition not_past (direction : bool) (p : Q) (t : Z) : Prop :=
  if direction then p <= inject_Z t else inject_Z t <= p.

(** The world [w] is [k] ticks into the movement [l], on an ideal
    clock. *)
Definition at_tick (l : Locals) (k : nat) (w : World) : Prop :=
  Sequential.clock w
  == start_moving_time l + inject_Z (Z.of_nat k) * (1 # 10).

(** A task holds the lock: it is inside [async with self._lock]. *)
Definition holds_lock (pc : Concurrent.Pc) : bool :=
  match pc with
  | Concurrent.InMovePublish _
  | Concurrent.InSleep _ _ _
  | Concurrent.InSave _
  | Concurrent.InCalPublish _
  | Concurrent.InCalSleep _ _
  | Concurrent.InCalSave _ => true
  | _ => false
  end.

(** Mutual exclusion: at most one task holds the lock, and the lock is
    held exactly when some task holds it. *)
Definition exclusive (m : Concurrent.Machine) : Prop :=
  (forall i j ri pci rj pcj,
      Concurrent.tasks m !! i = Some (ri, pci) ->
      Concurrent.tasks m !! j = Some (rj, pcj) ->
      holds_lock pci = true -> holds_lock pcj = true -> i = j)
  /\ (Concurrent._lock (Concurrent.shared m) = true <->
      exists i r pc,
        Concurrent.tasks m !! i = Some (r, pc) /\ holds_lock pc = true).

(** What one step of a task does to the lock: it takes the free lock, or
    gives the lock back, or leaves it as it is. *)
Definition lock_step (pc : Concurrent.Pc) (s : Concurrent.Shared)
    (pc' : Concurrent.Pc) (s' : Concurrent.Shared) : Prop :=
  match holds_lock pc, holds_lock pc' with
  | false, true =>
      Concurrent._lock s = false /\ Concurrent._lock s' = true
  | true, false => Concurrent._lock s' = false
  | _, _ => Concurrent._lock s' = Concurrent._lock s
  end.

(** The quiet environment, except that another task runs
    [async_stop_cover] at every suspension point. *)
Definition stopping_env : Env :=
  {| latency := fun _ => 0;
     interrupted := fun _ => true;
     mqtt_entries := fun _ => FirstEntry true;
     raises := fun _ => false |}.

(** The local variables of the ten-second cover on its way from 10 to 50,
    started at time 0. *)
Definition opening_to_half : Locals :=
  locals_of ten_second_cover (Some 50%Z) 10 0.

(** The entity at rest at position [p] while another task holds the
    lock. *)
Definition locked_world (p : Q) (doc : gmap string (option Q)) : World :=
  upd_lock true (resting_world p doc).

(** Both direction flags are false. *)
Definition idle (w : World) : Prop :=
  Sequential._attr_is_opening w = false
  /\ Sequential._attr_is_closing w = false.

(** A computation that, started with both flags false, comes to an end
    with both flags false and the lock as it was, and that has let at
    least [d] seconds pass when it returns. *)
Definition calm (d : Q) {A : Type} (m : M A) : Prop :=
  forall w o w',
    idle w ->
    m w = (o, w') ->
    idle w'
    /\ Sequential._lock w' = Sequential._lock w
    /\ finished o
    /\ match o with
       | Returned _ => Sequential.clock w + d <= Sequential.clock w'
       | _ => True
       end.

(** The commands the invocation asked to publish, in order. *)
Fixpoint commands (acts : list Action) : list Command :=
  match acts with
  | [] => []
  | Publish cmd :: acts' => cmd :: commands acts'
  | _ :: acts' => commands acts'
  end.

(** From [w] to [w'] the trace grew, and the commands asked for are
    [cs]. *)
Definition asked (cs : list Command) (w w' : World) : Prop :=
  exists evs, trace w' = trace w ++ evs /\ commands (outline evs) = cs.

(** The command for a movement from [q] to the clamped target. *)
Definition command_towards (q : Q) (kwargs_position : option Z) : Command :=
  if Qltb q (inject_Z (clamp_target kwargs_position)) then OPEN else CLOSE.

(** Task 0 of a move to 100 up to its second sleep: it starts, takes
    the lock, makes one pass of the loop and sleeps again. *)
Definition second_sleep_prefix : list Concurrent.Action :=
  [Concurrent.Resume 0; Concurrent.Resume 0; Concurrent.Resume 0;
   Concurrent.Resume 0; Concurrent.Elapse (1 # 10);
   Concurrent.Resume 0; Concurrent.Elapse (1 # 10)].

(** A platform configuration with two covers. *)
Definition two_covers : list (string * ConfigType) :=
  [("blind"%string, config_opening_only 10000);
   ("shutter"%string, config_opening_only 0)].

(** [hass.data] with one entry of this integration. *)
Definition one_entry : gmap string (gmap string nat) :=
  {[ DOMAIN := {[ "entry-1"%string := 7%nat ]} ]}.

(** The position is a number less than a full travel away from [q]. *)
Definition short_of_full_travel (q : Q) (w : World) : Prop :=
  exists p,
    Sequential._attr_current_cover_position w = Some p
    /\ q - 100 < p < q + 100.

(** An environment in which every suspension point is 0.995 ms late,
    nobody interferes, MQTT is loaded and no call raises. *)
Definition late_env : Env :=
  {| latency := fun _ => 199 # 200000;
     interrupted := fun _ => false;
     mqtt_entries := fun _ => FirstEntry true;
     raises := fun _ => false |}.

(** A configuration that gives a friendly name and no name. *)
Definition config_friendly_only : ConfigType :=
  {| CONF_UNIQUE_ID := None;
     CONF_NAME := None;
     CONF_FRIENDLY_NAME := Some "Living room blind"%string;
     CONF_OPENING_TIME := Some 10000%Z;
     CONF_CLOSING_TIME := Some 10000%Z;
     CONF_MQTT_COMMAND_TOPIC := Some "home/blind/set"%string;
     CONF_MQTT_PAYLOAD_OPEN := Some "OPEN"%string;
     CONF_MQTT_PAYLOAD_CLOSE := Some "CLOSE"%string;
     CONF_MQTT_PAYLOAD_STOP := Some "STOP"%string |}.

(** * Facts *)

(** ** Comparisons *)

Lemma Qltb_lt (x y : Q) : Qltb x y = true <-> x < y.
Proof.
  unfold Qltb. rewrite negb_true_iff. split.
  - intros H. apply Qnot_le_lt. intros Hle.
    apply Qle_bool_iff in Hle. congruence.
  - intros H. destruct (Qle_bool y x) eqn:E; [|reflexivity].
    apply Qle_bool_iff in E. exfalso. eapply Qlt_not_le; eassumption.
Qed.

Lemma Qltb_ge (x y : Q) : Qltb x y = false <-> y <= x.
Proof.
  unfold Qltb. rewrite negb_false_iff. apply Qle_bool_iff.
Qed.

Lemma Qltb_irrefl_eq (x y : Q) : x == y -> Qltb x y = false /\ Qltb y x = false.
Proof.
  intros H. split; apply Qltb_ge; rewrite H; apply Qle_refl.
Qed.

Lemma clamp_target_range (kwargs_position : option Z) :
  (0 <= clamp_target kwargs_position <= 100)%Z.
Proof. unfold clamp_target, _MAX_POSITION, _MIN_POSITION. lia. Qed.

Lemma clamp_target_id (p : Z) :
  (0 <= p <= 100)%Z -> clamp_target (Some p) = p.
Proof. unfold clamp_target, _MAX_POSITION, _MIN_POSITION. simpl. lia. Qed.

(** ** Construction *)

Lemma closing_time_default (object_id : string) (cfg : ConfigType) :
  CONF_CLOSING_TIME cfg = None ->
  _closing_time (__init__ object_id cfg)
  == _opening_time (__init__ object_id cfg) / 1000.
Proof.
  intros H. unfold __init__. simpl. rewrite H. reflexivity.
Qed.

(** C6 (fails on the code).  With an opening time of 10000 ms and no
    closing time in the configuration, [__init__] sets the opening time to
    10 s and the closing time to 0.01 s: the default, already in seconds,
    is divided by 1000 once more, so the two durations differ. *)
Theorem closing_time_default_differs_from_opening_time :
  let cover := __init__ "cover" (config_opening_only 10000) in
  _opening_time cover == 10
  /\ _closing_time cover == 1 # 100
  /\ ~ _closing_time cover == _opening_time cover.
Proof.
  repeat split; try reflexivity.
  intros H. vm_compute in H. discriminate H.
Qed.

(** ** One invocation *)

Lemma undisturbed_refl (w : World) : undisturbed w w.
Proof. split; auto. Qed.

Lemma undisturbed_trans (w1 w2 w3 : World) :
  undisturbed w1 w2 -> undisturbed w2 w3 -> undisturbed w1 w3.
Proof.
  intros [p1 s1 l1 d1 f1] [p2 s2 l2 d2 f2]. split; try congruence.
  destruct f2 as [[a b]|[a b]]; [|right; auto].
  destruct f1 as [[c d]|[c d]]; [left|right]; split; congruence.
Qed.

Lemma bind_Returned {A B : Type} (m : M A) (k : A -> M B) (w w' : World)
    (b : B) :
  bind m k w = (Returned b, w') ->
  exists a w1, m w = (Returned a, w1) /\ k a w1 = (Returned b, w').
Proof.
  unfold bind. destruct (m w) as [[a|e| |] w1]; intros H;
    try discriminate H. eauto.
Qed.

Lemma bind_step {A B : Type} (m : M A) (k : A -> M B) (w w1 : World)
    (a : A) :
  m w = (Returned a, w1) -> bind m k w = k a w1.
Proof. intros H. unfold bind. rewrite H. reflexivity. Qed.

Lemma bind_raised {A B : Type} (m : M A) (k : A -> M B) (w w1 : World)
    (e : Exn) :
  m w = (Raised e, w1) -> bind m k w = (Raised e, w1).
Proof. intros H. unfold bind. rewrite H. reflexivity. Qed.

Lemma try_finally_step {A : Type} (body : M A) (handler : M unit)
    (w w1 w2 : World) (a : A) :
  body w = (Returned a, w1) ->
  handler w1 = (Returned tt, w2) ->
  try_finally body handler w = (Returned a, w2).
Proof.
  intros H1 H2. unfold try_finally. rewrite H1, H2. reflexivity.
Qed.

Lemma with_lock_free {A : Type} (body : M A) (w : World) :
  Sequential._lock w = false ->
  async_with_lock body w
  = try_finally body (modify (upd_lock false)) (upd_lock true w).
Proof.
  intros H. unfold async_with_lock, bind, gets, modify. cbn.
  rewrite H. reflexivity.
Qed.

Lemma with_lock_busy {A : Type} (body : M A) (w : World) :
  Sequential._lock w = true -> async_with_lock body w = (LockBusy, w).
Proof.
  intros H. unfold async_with_lock, bind, gets. cbn. rewrite H.
  reflexivity.
Qed.

Lemma try_finally_Returned {A : Type} (body : M A) (handler : M unit)
    (w w' : World) (a : A) :
  try_finally body handler w = (Returned a, w') ->
  exists w1, body w = (Returned a, w1) /\ handler w1 = (Returned tt, w').
Proof.
  unfold try_finally. destruct (body w) as [[x|e| |] w1];
    try discriminate;
    destruct (handler w1) as [[[]|e'| |] w2] eqn:E;
    intros H; try discriminate H.
  injection H as -> ->. eauto.
Qed.

Arguments suspend : simpl never.
Arguments __async_publish : simpl never.
Arguments async_save : simpl never.
Arguments async_stop_cover : simpl never.
Arguments sampling_loop : simpl never.
Arguments start_movement : simpl never.
Arguments asyncio_sleep : simpl never.

Section Primitives.

Variable env : Env.
Variable self : MQTTRelayCover.

Lemma suspend_eq (seconds : Q) (w : World) :
  exists w',
    suspend env seconds w = (Returned tt, w')
    /\ undisturbed w w'
    /\ (interrupted env (awaited w) = false ->
        Sequential._attr_is_opening w' = Sequential._attr_is_opening w
        /\ Sequential._attr_is_closing w' = Sequential._attr_is_closing w)
    /\ Sequential.clock w'
       = Sequential.clock w + seconds + latency env (awaited w)
    /\ awaited w' = S (awaited w)
    /\ trace w' = trace w.
Proof.
  unfold suspend. eexists. split; [reflexivity|].
  destruct (interrupted env (awaited w)); simpl;
    repeat split; auto; try discriminate.
Qed.

Lemma publish_eq (cmd : Command) (w : World) :
  exists o w' d logged,
    __async_publish env cmd w = (o, w')
    /\ undisturbed w w'
    /\ trace w' = trace w ++ publish_events cmd d logged
    /\ ((o = Returned tt /\ d <> Errored)
        \/ (o = Raised ExternalError /\ d = Errored
            /\ exists n, raises env n = true))
    /\ ((forall n, interrupted env n = false) ->
        Sequential._attr_is_opening w' = Sequential._attr_is_opening w
        /\ Sequential._attr_is_closing w' = Sequential._attr_is_closing w)
    /\ ((forall n, 0 <= latency env n) ->
        Sequential.clock w <= Sequential.clock w')
    /\ ((forall n, latency env n == 0) ->
        Sequential.clock w' == Sequential.clock w)
    /\ (d = Delivered <->
        mqtt_entries env (awaited w) = FirstEntry true
        /\ raises env (S (awaited w)) = false).
Proof.
  unfold __async_publish, __isMQTTAvailable, bind, gets, ret, emit, modify,
    raise.
  destruct (mqtt_entries env (awaited w)) as [|[|]] eqn:M; cbn.
  - exists (Returned tt), (upd_event (EvPublish cmd Skipped)
                             (upd_event EvLogError w)), Skipped, true.
    cbn. rewrite <- app_assoc.
    split; [reflexivity|]. split; [split; cbn; auto|].
    split; [reflexivity|].
    split; [left; split; [reflexivity|discriminate]|].
    split; [auto|]. split; [intros _; apply Qle_refl|].
    split; [intros _; reflexivity|].
    split; [discriminate|intros [? _]; discriminate].
  - destruct (suspend_eq 0 w) as (w1 & E1 & U1 & F1 & C1 & A1 & T1).
    rewrite E1. cbn.
    destruct (suspend_eq 0 w1) as (w2 & E2 & U2 & F2 & C2 & A2 & T2).
    rewrite E2. cbn.
    assert (U : undisturbed w w2) by (eapply undisturbed_trans; eauto).
    assert (HC : Sequential.clock w2
                 == Sequential.clock w + latency env (awaited w)
                    + latency env (awaited w1)).
    { rewrite C2, C1. ring. }
    rewrite A1. destruct (raises env (S (awaited w))) eqn:R; cbn.
    + exists (Raised ExternalError),
        (upd_event (EvPublish cmd Errored) w2), Errored, false.
      cbn. rewrite T2, T1.
      split; [reflexivity|]. split; [destruct U; split; auto|].
      split; [reflexivity|]. split; [right; eauto|].
      split; [intros Q; rewrite (proj1 (F2 (Q _))), (proj2 (F2 (Q _)));
              apply F1, Q|].
      split; [intros L; rewrite HC; pose proof (L (awaited w));
              pose proof (L (awaited w1)); lra|].
      split; [intros L; rewrite HC, (L (awaited w)), (L (awaited w1));
              ring|].
      split; [discriminate|intros [_ ?]; discriminate].
    + exists (Returned tt),
        (upd_event (EvPublish cmd Delivered) w2), Delivered, false.
      cbn. rewrite T2, T1.
      split; [reflexivity|]. split; [destruct U; split; auto|].
      split; [reflexivity|].
      split; [left; split; [reflexivity|discriminate]|].
      split; [intros Q; rewrite (proj1 (F2 (Q _))), (proj2 (F2 (Q _)));
              apply F1, Q|].
      split; [intros L; rewrite HC; pose proof (L (awaited w));
              pose proof (L (awaited w1)); lra|].
      split; [intros L; rewrite HC, (L (awaited w)), (L (awaited w1));
              ring|].
      split; auto.
  - destruct (suspend_eq 0 w) as (w1 & E1 & U1 & F1 & C1 & A1 & T1).
    rewrite E1. cbn.
    exists (Returned tt), (upd_event (EvPublish cmd Skipped) w1),
      Skipped, false.
    cbn. rewrite T1.
    split; [reflexivity|]. split; [destruct U1; split; auto|].
    split; [reflexivity|].
    split; [left; split; [reflexivity|discriminate]|].
    split; [intros Q; apply F1, Q|].
    split; [intros L; rewrite C1; pose proof (L (awaited w)); lra|].
    split; [intros L; rewrite C1, (L (awaited w)); ring|].
    split; [discriminate|intros [? _]; discriminate].
Qed.

Lemma sleep_eq (seconds : Q) (w : World) :
  exists w',
    asyncio_sleep env seconds w = (Returned tt, w')
    /\ undisturbed w w'
    /\ (interrupted env (awaited w) = false ->
        Sequential._attr_is_opening w' = Sequential._attr_is_opening w
        /\ Sequential._attr_is_closing w' = Sequential._attr_is_closing w)
    /\ Sequential.clock w'
       = Sequential.clock w + seconds + latency env (awaited w)
    /\ trace w' = trace w ++ [EvSleep seconds].
Proof.
  unfold asyncio_sleep, bind, emit, modify. cbn.
  destruct (suspend_eq seconds (upd_event (EvSleep seconds) w))
    as (w' & E & U & F & C & A & T).
  exists w'. split; [exact E|].
  split; [destruct U; split; auto|]. auto.
Qed.

(** [async_stop_cover] from any state: the flags end up cleared, one
    publish of STOP is attempted, and the state is announced unless
    [async_publish] raised. *)
Lemma stop_eq (w : World) :
  exists o w' d logged,
    async_stop_cover env w = (o, w')
    /\ Sequential._attr_is_opening w' = false
    /\ Sequential._attr_is_closing w' = false
    /\ Sequential._attr_current_cover_position w'
       = Sequential._attr_current_cover_position w
    /\ Sequential._store w' = Sequential._store w
    /\ Sequential._lock w' = Sequential._lock w
    /\ Sequential.document w' = Sequential.document w
    /\ ((o = Returned tt /\ d <> Errored
         /\ trace w'
            = trace w ++ publish_events STOP d logged
              ++ [EvWriteState false false
                    (Sequential._attr_current_cover_position w)])
        \/ (o = Raised ExternalError /\ d = Errored
            /\ (exists n, raises env n = true)
            /\ trace w' = trace w ++ publish_events STOP d logged))
    /\ ((forall n, 0 <= latency env n) ->
        Sequential.clock w <= Sequential.clock w')
    /\ (d = Delivered <->
        mqtt_entries env (awaited w) = FirstEntry true
        /\ raises env (S (awaited w)) = false).
Proof.
  unfold async_stop_cover, set_opening, set_closing, bind, modify. cbn.
  destruct (publish_eq STOP (upd_closing false (upd_opening false w)))
    as (o & w1 & d & logged & E & U & T & O & _ & C & _ & D).
  rewrite E. destruct U as [Up Us Ul Ud Uf]. cbn in *.
  assert (F : Sequential._attr_is_opening w1 = false
              /\ Sequential._attr_is_closing w1 = false)
    by (destruct Uf as [F|F]; exact F).
  destruct F as [Fo Fc].
  destruct O as [[-> Hd]|(-> & Hd & Hr)].
  - exists (Returned tt),
      (upd_event (EvWriteState false false
                    (Sequential._attr_current_cover_position w)) w1),
      d, logged.
    unfold async_write_ha_state, emit, modify. rewrite Fo, Fc, Up. cbn.
    do 7 (split; [auto; fail|]). split; [|exact (conj C D)].
    left. repeat split; auto. rewrite T. rewrite <- app_assoc. reflexivity.
  - exists (Raised ExternalError), w1, d, logged.
    do 7 (split; [auto; fail|]). split; [|exact (conj C D)].
    right. repeat split; auto.
Qed.

Lemma save_eq (data : gmap string (option Q)) (w : World) :
  Sequential._store w = true ->
  exists o w',
    async_save env data w = (o, w')
    /\ Sequential._attr_current_cover_position w'
       = Sequential._attr_current_cover_position w
    /\ Sequential._store w' = Sequential._store w
    /\ Sequential._lock w' = Sequential._lock w
    /\ ((Sequential._attr_is_opening w' = Sequential._attr_is_opening w
         /\ Sequential._attr_is_closing w' = Sequential._attr_is_closing w)
        \/ (Sequential._attr_is_opening w' = false
            /\ Sequential._attr_is_closing w' = false))
    /\ ((o = Returned tt /\ Sequential.document w' = Some data
         /\ trace w' = trace w ++ [EvSave data])
        \/ (o = Raised ExternalError
            /\ Sequential.document w' = Sequential.document w
            /\ trace w' = trace w /\ exists n, raises env n = true)).
Proof.
  intros S. unfold async_save, bind, gets, modify, emit, raise. cbn.
  rewrite S.
  destruct (suspend_eq 0 w) as (w1 & E & [Up Us Ul Ud Uf] & _ & _ & _ & T).
  rewrite E. destruct (raises env (awaited w)) eqn:R; cbn.
  - exists (Raised ExternalError), w1. do 5 (split; [auto; congruence|]).
    right. eauto.
  - eexists (Returned tt), _. split; [reflexivity|]. cbn.
    do 4 (split; [auto; congruence|]). left. rewrite T. auto.
Qed.

Lemma save_without_store (data : gmap string (option Q)) (w : World) :
  Sequential._store w = false ->
  async_save env data w = (Raised AttributeError, w).
Proof.
  intros S. unfold async_save, bind, gets, raise. cbn. rewrite S.
  reflexivity.
Qed.

End Primitives.

Lemma extends_refl (w : World) : extends w w [].
Proof. split; [apply undisturbed_refl|]. symmetry. apply app_nil_r. Qed.

Lemma extends_trans (w1 w2 w3 : World) (e1 e2 : list Event) :
  extends w1 w2 e1 -> extends w2 w3 e2 -> extends w1 w3 (e1 ++ e2).
Proof.
  intros [U1 T1] [U2 T2]. split; [eapply undisturbed_trans; eauto|].
  rewrite T2, T1. symmetry. apply app_assoc.
Qed.

Lemma undisturbed_idle (w w' : World) :
  undisturbed w w' ->
  Sequential._attr_is_opening w = false ->
  Sequential._attr_is_closing w = false ->
  Sequential._attr_is_opening w' = false
  /\ Sequential._attr_is_closing w' = false.
Proof.
  intros [_ _ _ _ [[-> ->]|[-> ->]]]; auto.
Qed.

Lemma outline_app (e1 e2 : list Event) :
  outline (e1 ++ e2) = outline e1 ++ outline e2.
Proof.
  induction e1 as [|[] e1 IH]; cbn; rewrite ?IH; reflexivity.
Qed.

Lemma outline_publish_events (cmd : Command) (d : Delivery) (l : bool) :
  outline (publish_events cmd d l) = [Publish cmd].
Proof. destruct l; reflexivity. Qed.

(** With calls that do not raise, a publish returns. *)
Lemma publish_ok (env : Env) (cmd : Command) (w : World) :
  (forall n, raises env n = false) ->
  exists w' d logged,
    __async_publish env cmd w = (Returned tt, w')
    /\ extends w w' (publish_events cmd d logged)
    /\ ((forall n, interrupted env n = false) ->
        Sequential._attr_is_opening w' = Sequential._attr_is_opening w
        /\ Sequential._attr_is_closing w' = Sequential._attr_is_closing w)
    /\ ((forall n, 0 <= latency env n) ->
        Sequential.clock w <= Sequential.clock w')
    /\ ((forall n, latency env n == 0) ->
        Sequential.clock w' == Sequential.clock w).
Proof.
  intros NR.
  destruct (publish_eq env cmd w)
    as (o & w' & d & logged & E & U & T & O & F & C & I & _).
  destruct O as [[-> _]|(_ & _ & [n Hn])].
  - exists w', d, logged. unfold extends. auto 10.
  - rewrite NR in Hn. discriminate Hn.
Qed.

Lemma sleep_ok (env : Env) (seconds : Q) (w : World) :
  exists w',
    asyncio_sleep env seconds w = (Returned tt, w')
    /\ extends w w' [EvSleep seconds].
Proof.
  destruct (sleep_eq env seconds w) as (w' & E & U & _ & _ & T).
  exists w'. unfold extends. auto.
Qed.



(** ** Start-up *)

Lemma added_to_hass_eq (env : Env) (self : MQTTRelayCover) (w : World) :
  exists w1,
    undisturbed (upd_store true w) w1
    /\ async_added_to_hass env self w
       = match Sequential.document w with
         | None => (Raised AttributeError, w1)
         | Some data =>
             (Returned tt,
              upd_position (dict_get (data !! unique_id self) (Some 0)) w1)
         end.
Proof.
  unfold async_added_to_hass, bind, modify, gets, raise. cbn.
  destruct (suspend_eq env 0 (upd_store true w)) as (w1 & E & U & _).
  rewrite E. exists w1. split; [exact U|].
  destruct U as [_ _ _ Ud _]. cbn in Ud. rewrite Ud.
  destruct (Sequential.document w); reflexivity.
Qed.

(** C7 (fails on the code when nothing was ever persisted).  Start-up of
    an entity fresh from [__init__]: with a document that holds [p] under
    the identifier of the cover the position becomes [p]; with a document
    that lacks the identifier it becomes 0; in both cases the call returns
    and the direction is idle.  With no document at all, [async_load]
    gives [None], the call raises [AttributeError] and the position stays
    unset. *)
Theorem added_to_hass_loads_position_or_raises
    (env : Env) (self : MQTTRelayCover) (t : Q) :
  (forall (doc : gmap string (option Q)) (p : Q),
      exists w',
        async_added_to_hass env self
          (fresh_world (Some (<[ unique_id self := Some p ]> doc)) t)
        = (Returned tt, w')
        /\ Sequential._attr_current_cover_position w' = Some p
        /\ is_stopped w' = true)
  /\ (forall doc : gmap string (option Q),
      exists w',
        async_added_to_hass env self
          (fresh_world (Some (delete (unique_id self) doc)) t)
        = (Returned tt, w')
        /\ Sequential._attr_current_cover_position w' = Some 0
        /\ is_stopped w' = true)
  /\ (exists w',
        async_added_to_hass env self (fresh_world None t)
        = (Raised AttributeError, w')
        /\ Sequential._attr_current_cover_position w' = None).
Proof.
  assert (idle : forall doc w1,
             undisturbed (upd_store true (fresh_world doc t)) w1 ->
             forall p, is_stopped (upd_position p w1) = true).
  { intros doc w1 [_ _ _ _ Uf] p. unfold is_stopped. cbn in *.
    destruct Uf as [[-> ->]|[-> ->]]; reflexivity. }
  split; [|split].
  - intros doc p.
    destruct (added_to_hass_eq env self
                (fresh_world (Some (<[ unique_id self := Some p ]> doc)) t))
      as (w1 & U & E).
    cbn in E. rewrite lookup_insert_eq in E. cbn in E.
    eexists. split; [exact E|]. split; [reflexivity|].
    eapply idle, U.
  - intros doc.
    destruct (added_to_hass_eq env self
                (fresh_world (Some (delete (unique_id self) doc)) t))
      as (w1 & U & E).
    cbn in E. rewrite lookup_delete_eq in E. cbn in E.
    eexists. split; [exact E|]. split; [reflexivity|].
    eapply idle, U.
  - destruct (added_to_hass_eq env self (fresh_world None t))
      as (w1 & U & E).
    cbn in E. exists w1. split; [exact E|].
    destruct U as [Up _ _ _ _]. exact Up.
Qed.

(** ** Running a coroutine step by step *)

Lemma save_ok (env : Env) (data : gmap string (option Q)) (w : World) :
  (forall n, raises env n = false) ->
  Sequential._store w = true ->
  exists w',
    async_save env data w = (Returned tt, w')
    /\ Sequential._attr_current_cover_position w'
       = Sequential._attr_current_cover_position w
    /\ Sequential._lock w' = Sequential._lock w
    /\ ((Sequential._attr_is_opening w' = Sequential._attr_is_opening w
         /\ Sequential._attr_is_closing w' = Sequential._attr_is_closing w)
        \/ (Sequential._attr_is_opening w' = false
            /\ Sequential._attr_is_closing w' = false))
    /\ Sequential.document w' = Some data
    /\ trace w' = trace w ++ [EvSave data].
Proof.
  intros NR S.
  destruct (save_eq env data w S) as (o & w' & E & P & _ & L & F & O).
  destruct O as [(-> & D & T)|(_ & _ & _ & [n Hn])].
  - exists w'. auto 10.
  - rewrite NR in Hn. discriminate Hn.
Qed.

Ltac run_publish NR :=
  lazymatch goal with
  | |- context [__async_publish ?env ?cmd ?w] =>
      let w' := fresh "w" in
      let d := fresh "d" in
      let lg := fresh "lg" in
      let E := fresh "E" in
      let X := fresh "X" in
      destruct (publish_ok env cmd w NR) as (w' & d & lg & E & X & _);
      rewrite E; clear E; cbn
  end.

Ltac run_sleep :=
  lazymatch goal with
  | |- context [asyncio_sleep ?env ?seconds ?w] =>
      let w' := fresh "w" in
      let E := fresh "E" in
      let X := fresh "X" in
      destruct (sleep_ok env seconds w) as (w' & E & X);
      rewrite E; clear E; cbn
  end.

Ltac outline_norm :=
  repeat first
    [ rewrite outline_app
    | rewrite outline_publish_events
    | progress cbn [outline app saved sleeps count_publish] ].

(** ** Calibration *)

(** C5.  A run of [async_calibrate] that finds the lock free, on an
    entity with its store, with calls that do not raise: it returns; what
    it asked for is, in this order, OPEN, a sleep of the opening time plus
    1 s, STOP, a sleep of 1 s, CLOSE, a sleep of the closing time plus
    1 s, STOP, a sleep of 1 s, one save of the document that maps the
    identifier to 0, and the announcement of the state; there is no other
    save; the position is then 0 and the lock is free again. *)
Theorem calibrate_runs_the_sequence_and_saves_zero_once
    (env : Env) (self : MQTTRelayCover) (w : World) :
  (forall n, raises env n = false) ->
  Sequential._lock w = false ->
  Sequential._store w = true ->
  exists w' evs,
    async_calibrate env self w = (Returned tt, w')
    /\ trace w' = trace w ++ evs
    /\ outline evs
       = [Publish OPEN; Sleep (_opening_time self + 1);
          Publish STOP; Sleep 1;
          Publish CLOSE; Sleep (_closing_time self + 1);
          Publish STOP; Sleep 1;
          Save {[ unique_id self := Some 0 ]};
          Announce false false (Some 0)]
    /\ saved (outline evs) = [{[ unique_id self := Some 0 ]}]
    /\ Sequential._attr_current_cover_position w' = Some 0
    /\ Sequential.document w' = Some {[ unique_id self := Some 0 ]}
    /\ Sequential._lock w' = false.
Proof.
  intros NR L S.
  unfold async_calibrate, async_with_lock, try_finally, set_opening,
    set_closing, bind, gets, modify. cbn. rewrite L. cbn.
  set (w0 := upd_closing false (upd_opening false (upd_lock true w))).
  run_publish NR. run_sleep. run_publish NR. run_sleep.
  run_publish NR. run_sleep. run_publish NR. run_sleep.
  pose proof (extends_trans _ _ _ _ _ X
               (extends_trans _ _ _ _ _ X0
                 (extends_trans _ _ _ _ _ X1
                   (extends_trans _ _ _ _ _ X2
                     (extends_trans _ _ _ _ _ X3
                       (extends_trans _ _ _ _ _ X4
                         (extends_trans _ _ _ _ _ X5 X6)))))))
    as [U T].
  destruct (undisturbed_idle _ _ U eq_refl eq_refl) as [Fo Fc].
  destruct U as [_ Us _ _ _]. cbn in Us, T.
  destruct (save_ok env {[ unique_id self := Some 0 ]}
              (upd_position (Some 0) w8) NR)
    as (w9 & E & P9 & L9 & F9 & D9 & T9); [cbn; congruence|].
  rewrite E. cbn in *. unfold async_write_ha_state, emit, modify. cbn.
  assert (F : Sequential._attr_is_opening w9 = false
              /\ Sequential._attr_is_closing w9 = false).
  { destruct F9 as [[-> ->]|F9]; auto. }
  destruct F as [-> ->]. rewrite P9.
  eexists _, _. split; [reflexivity|]. cbn.
  rewrite T9, T. repeat rewrite <- app_assoc.
  split; [reflexivity|].
  outline_norm. auto.
Qed.

Lemma calibrate_runs_the_sequence_and_saves_zero_once_witness :
  (forall n, raises quiet_env n = false)
  /\ Sequential._lock (resting_world 55 ∅) = false
  /\ Sequential._store (resting_world 55 ∅) = true
  /\ exists w' evs,
       async_calibrate quiet_env ten_second_cover (resting_world 55 ∅)
       = (Returned tt, w')
       /\ trace w' = trace (resting_world 55 ∅) ++ evs
       /\ outline evs
          = [Publish OPEN; Sleep (_opening_time ten_second_cover + 1);
             Publish STOP; Sleep 1;
             Publish CLOSE; Sleep (_closing_time ten_second_cover + 1);
             Publish STOP; Sleep 1;
             Save {[ unique_id ten_second_cover := Some 0 ]};
             Announce false false (Some 0)]
       /\ saved (outline evs) = [{[ unique_id ten_second_cover := Some 0 ]}]
       /\ Sequential._attr_current_cover_position w' = Some 0
       /\ Sequential.document w'
          = Some {[ unique_id ten_second_cover := Some 0 ]}
       /\ Sequential._lock w' = false.
Proof.
  split; [intros n; reflexivity|].
  split; [reflexivity|].
  split; [reflexivity|].
  apply (calibrate_runs_the_sequence_and_saves_zero_once quiet_env
           ten_second_cover (resting_world 55 ∅)).
  - intros n. reflexivity.
  - reflexivity.
  - reflexivity.
Defined.

(** ** Moving to a position, with calls that do not raise *)

Lemma stop_ok (env : Env) (w : World) :
  (forall n, raises env n = false) ->
  exists w' d logged,
    async_stop_cover env w = (Returned tt, w')
    /\ Sequential._attr_is_opening w' = false
    /\ Sequential._attr_is_closing w' = false
    /\ Sequential._attr_current_cover_position w'
       = Sequential._attr_current_cover_position w
    /\ Sequential._store w' = Sequential._store w
    /\ Sequential._lock w' = Sequential._lock w
    /\ Sequential.document w' = Sequential.document w
    /\ trace w'
       = trace w ++ publish_events STOP d logged
         ++ [EvWriteState false false
               (Sequential._attr_current_cover_position w)]
    /\ ((forall n, 0 <= latency env n) ->
        Sequential.clock w <= Sequential.clock w').
Proof.
  intros NR.
  destruct (stop_eq env w)
    as (o & w' & d & logged & E & Fo & Fc & P & S & L & D & O & C & _).
  destruct O as [(-> & _ & T)|(_ & _ & [n Hn] & _)].
  - exists w', d, logged. auto 12.
  - rewrite NR in Hn. discriminate Hn.
Qed.

Lemma start_movement_ok (env : Env) (self : MQTTRelayCover)
    (kwargs_position : option Z) (w : World) (q : Q) :
  (forall n, raises env n = false) ->
  Sequential._attr_current_cover_position w = Some q ->
  let l := locals_of self kwargs_position q (Sequential.clock w) in
  exists w' d logged,
    start_movement env self kwargs_position w = (Returned l, w')
    /\ extends
         (upd_closing (negb (is_opening_direction l))
            (upd_opening (is_opening_direction l) w))
         w' (publish_events (direction_command l) d logged)
    /\ ((forall n, interrupted env n = false) ->
        Sequential._attr_is_opening w' = is_opening_direction l
        /\ Sequential._attr_is_closing w' = negb (is_opening_direction l))
    /\ ((forall n, 0 <= latency env n) ->
        Sequential.clock w <= Sequential.clock w')
    /\ ((forall n, latency env n == 0) ->
        Sequential.clock w' == Sequential.clock w).
Proof.
  intros NR P l.
  unfold start_movement, time_monotonic, set_opening, set_closing, bind,
    gets, modify, ret. cbn. rewrite P. cbn.
  fold (locals_of self kwargs_position q (Sequential.clock w)). fold l.
  destruct (publish_ok env (direction_command l)
              (upd_closing (negb (is_opening_direction l))
                 (upd_opening (is_opening_direction l) w)) NR)
    as (w' & d & logged & E & X & F & C & I).
  unfold direction_command in E. cbn in E. rewrite E.
  exists w', d, logged. auto 10.
Qed.

(** ** The sampling loop *)

Section Loop.

Variable env : Env.

Lemma loop_condition_cases (target : Z) (start duration now : Q)
    (w : World) :
  (exists b, loop_condition target start duration now w = (Returned b, w))
  \/ loop_condition target start duration now w = (Raised TypeError, w).
Proof.
  unfold loop_condition, bind, gets, ret, raise.
  destruct (within_budget now start duration); cbn; [|eauto].
  destruct (Sequential._attr_current_cover_position w); cbn; [eauto|].
  destruct (Sequential._attr_is_opening w || Sequential._attr_is_closing w);
    eauto.
Qed.

Lemma loop_condition_out_of_budget (target : Z) (start duration now : Q)
    (w : World) :
  start + duration <= now ->
  loop_condition target start duration now w = (Returned false, w).
Proof.
  intros H. unfold loop_condition, within_budget.
  apply Qltb_ge in H. rewrite H. reflexivity.
Qed.

Lemma loop_condition_at_target (target : Z) (start duration now : Q)
    (w : World) (q : Q) :
  Sequential._attr_current_cover_position w = Some q ->
  q == inject_Z target ->
  loop_condition target start duration now w = (Returned false, w).
Proof.
  intros P H. unfold loop_condition, bind, gets, ret.
  destruct (within_budget now start duration); cbn; [|reflexivity].
  rewrite P. unfold target_pending.
  destruct (Qltb_irrefl_eq _ _ H) as [-> ->].
  rewrite !andb_false_r. reflexivity.
Qed.

Lemma loop_condition_pending (target : Z) (start duration now : Q)
    (w : World) (q : Q) :
  Sequential._attr_current_cover_position w = Some q ->
  loop_condition target start duration now w
  = (Returned
       (within_budget now start duration
        && target_pending (Sequential._attr_is_opening w)
             (Sequential._attr_is_closing w) q target), w).
Proof.
  intros P. unfold loop_condition, bind, gets, ret.
  destruct (within_budget now start duration); cbn; [|reflexivity].
  rewrite P. reflexivity.
Qed.

Lemma sampling_loop_exit (fuel : nat) (l : Locals) (w : World) :
  loop_condition (target_position l) (start_moving_time l)
    (movement_time l) (Sequential.clock w) w = (Returned false, w) ->
  sampling_loop env fuel l w = (Returned (Sequential.clock w), w).
Proof.
  intros H. destruct fuel; unfold sampling_loop; fold sampling_loop;
    unfold bind, time_monotonic, gets; cbn; rewrite H; reflexivity.
Qed.

Lemma sampling_loop_raise (fuel : nat) (l : Locals) (w : World) (e : Exn) :
  loop_condition (target_position l) (start_moving_time l)
    (movement_time l) (Sequential.clock w) w = (Raised e, w) ->
  sampling_loop env fuel l w = (Raised e, w).
Proof.
  intros H. destruct fuel; unfold sampling_loop; fold sampling_loop;
    unfold bind, time_monotonic, gets; cbn; rewrite H; reflexivity.
Qed.

Lemma sampling_loop_pass (fuel : nat) (l : Locals) (w w1 : World) :
  loop_condition (target_position l) (start_moving_time l)
    (movement_time l) (Sequential.clock w) w = (Returned true, w) ->
  asyncio_sleep env _CHECK_INTERVAL w = (Returned tt, w1) ->
  sampling_loop env (S fuel) l w
  = if Qeq_bool (movement_time l) 0
    then (Raised ZeroDivisionError, w1)
    else sampling_loop env fuel l (after_pass l (Sequential.clock w) w1).
Proof.
  intros H E. unfold sampling_loop; fold sampling_loop.
  unfold bind, time_monotonic, gets. cbn. rewrite H, E.
  unfold truediv. destruct (Qeq_bool (movement_time l) 0);
    reflexivity.
Qed.

Lemma sampling_loop_out_of_fuel (l : Locals) (w : World) :
  loop_condition (target_position l) (start_moving_time l)
    (movement_time l) (Sequential.clock w) w = (Returned true, w) ->
  sampling_loop env 0 l w = (OutOfFuel, w).
Proof.
  intros H. unfold sampling_loop, bind, time_monotonic, gets. cbn.
  rewrite H. reflexivity.
Qed.

(** The loop leaves the store, the lock and the document alone, and only
    adds to the trace. *)
Lemma sampling_loop_frame (fuel : nat) (l : Locals) (w : World) :
  forall o w',
    sampling_loop env fuel l w = (o, w') ->
    Sequential._store w' = Sequential._store w
    /\ Sequential._lock w' = Sequential._lock w
    /\ Sequential.document w' = Sequential.document w
    /\ exists evs, trace w' = trace w ++ evs /\ saved (outline evs) = [].
Proof.
  revert w. induction fuel as [|fuel IH]; intros w o w' H.
  - destruct (loop_condition_cases (target_position l) (start_moving_time l)
                (movement_time l) (Sequential.clock w) w) as [[[|] C]|C].
    + rewrite (sampling_loop_out_of_fuel l w C) in H.
      injection H as <- <-. repeat split; auto.
      exists []. split; [symmetry; apply app_nil_r|reflexivity].
    + rewrite (sampling_loop_exit 0 l w C) in H.
      injection H as <- <-. repeat split; auto.
      exists []. split; [symmetry; apply app_nil_r|reflexivity].
    + rewrite (sampling_loop_raise 0 l w _ C) in H.
      injection H as <- <-. repeat split; auto.
      exists []. split; [symmetry; apply app_nil_r|reflexivity].
  - destruct (loop_condition_cases (target_position l) (start_moving_time l)
                (movement_time l) (Sequential.clock w) w) as [[[|] C]|C].
    + destruct (sleep_ok env _CHECK_INTERVAL w) as (w1 & E & [U T]).
      rewrite (sampling_loop_pass fuel l w w1 C E) in H.
      destruct U as [_ Us Ul Ud _].
      destruct (Qeq_bool (movement_time l) 0).
      * injection H as <- <-. repeat split; auto.
        exists [EvSleep _CHECK_INTERVAL]. split; [exact T|reflexivity].
      * apply IH in H. destruct H as (S' & L' & D' & evs & T' & N').
        cbn in S', L', D', T'. repeat split; try congruence.
        exists ([EvSleep _CHECK_INTERVAL]
                ++ [EvWriteState (Sequential._attr_is_opening w1)
                      (Sequential._attr_is_closing w1)
                      (Some (next_position (is_opening_direction l)
                               (initial_position l)
                               (progress_at l (Sequential.clock w))
                               (target_position l)))]
                ++ evs).
        split; [rewrite T', T, <- !app_assoc; reflexivity|].
        cbn. exact N'.
    + rewrite (sampling_loop_exit (S fuel) l w C) in H.
      injection H as <- <-. repeat split; auto.
      exists []. split; [symmetry; apply app_nil_r|reflexivity].
    + rewrite (sampling_loop_raise (S fuel) l w _ C) in H.
      injection H as <- <-. repeat split; auto.
      exists []. split; [symmetry; apply app_nil_r|reflexivity].
Qed.

End Loop.

(** ** The frame of [async_set_cover_position] around its loop *)

(** With calls that do not raise, from a world with the lock free, the
    store in place and the position at [q]: the invocation reaches the
    loop in some world [w3], and whenever the loop returns from there the
    invocation saves, stops and returns. *)
Lemma set_cover_position_ok (env : Env) (self : MQTTRelayCover)
    (fuel : nat) (kwargs_position : option Z) (w : World) (q : Q) :
  (forall n, raises env n = false) ->
  Sequential._lock w = false ->
  Sequential._store w = true ->
  Sequential._attr_current_cover_position w = Some q ->
  exists w1 w3 d1 lg1 d3 lg3,
    let l := locals_of self kwargs_position q (Sequential.clock w1) in
    trace w3
    = trace w ++ publish_events STOP d1 lg1
      ++ [EvWriteState false false (Some q)]
      ++ publish_events (direction_command l) d3 lg3
    /\ Sequential._attr_current_cover_position w3 = Some q
    /\ ((forall n, interrupted env n = false) ->
        Sequential._attr_is_opening w3 = is_opening_direction l
        /\ Sequential._attr_is_closing w3 = negb (is_opening_direction l))
    /\ ((forall n, 0 <= latency env n) ->
        Sequential.clock w1 <= Sequential.clock w3)
    /\ ((forall n, latency env n == 0) ->
        Sequential.clock w3 == Sequential.clock w1)
    /\ forall now w4,
         sampling_loop env fuel l w3 = (Returned now, w4) ->
         exists w' d5 lg5,
           async_set_cover_position env self fuel kwargs_position w
           = (Returned tt, w')
           /\ Sequential._attr_current_cover_position w'
              = Sequential._attr_current_cover_position w4
           /\ Sequential._attr_is_opening w' = false
           /\ Sequential._attr_is_closing w' = false
           /\ Sequential._lock w' = false
           /\ Sequential.document w'
              = Some {[ unique_id self
                        := Sequential._attr_current_cover_position w4 ]}
           /\ trace w'
              = trace w4
                ++ [EvSave {[ unique_id self
                               := Sequential._attr_current_cover_position
                                    w4 ]}]
                ++ publish_events STOP d5 lg5
                ++ [EvWriteState false false
                      (Sequential._attr_current_cover_position w4)].
Proof.
  intros NR L S P.
  destruct (stop_ok env w NR)
    as (w1 & d1 & lg1 & E1 & _ & _ & P1 & S1 & L1 & _ & T1 & _).
  rewrite P in P1, T1. rewrite L in L1. rewrite S in S1.
  destruct (start_movement_ok env self kwargs_position
              (upd_lock true w1) q NR P1)
    as (w3 & d3 & lg3 & E3 & [U3 T3] & F3 & C3 & I3).
  cbn in T3, C3, I3.
  destruct U3 as [P3 S3 L3 _ _]. cbn in P3, S3, L3.
  exists w1, w3, d1, lg1, d3, lg3. cbn zeta.
  split; [rewrite T3, T1, <- !app_assoc; reflexivity|].
  split; [congruence|].
  split; [exact F3|]. split; [exact C3|]. split; [exact I3|].
  intros now w4 E4.
  destruct (sampling_loop_frame env fuel _ w3 _ _ E4)
    as (S4 & L4 & _).
  destruct (save_ok env
              {[ unique_id self
                 := Sequential._attr_current_cover_position w4 ]} w4 NR)
    as (w5 & E5 & P5 & L5 & _ & D5 & T5); [congruence|].
  destruct (stop_ok env (upd_lock false w5) NR)
    as (w6 & d6 & lg6 & E6 & Fo & Fc & P6 & _ & L6 & D6 & T6 & _).
  cbn in P6, L6, D6, T6.
  exists w6, d6, lg6.
  split.
  - unfold async_set_cover_position. rewrite (bind_step _ _ _ _ _ E1).
    apply try_finally_step with (w1 := upd_lock false w5); [|exact E6].
    rewrite (with_lock_free _ _ L1).
    apply try_finally_step with (w1 := w5); [|reflexivity].
    unfold critical_section.
    rewrite (bind_step _ _ _ _ _ E3), (bind_step _ _ _ _ _ E4).
    exact E5.
  - split; [congruence|]. split; [exact Fo|]. split; [exact Fc|].
    split; [exact L6|]. split; [congruence|].
    rewrite T6, T5, P5, <- !app_assoc. reflexivity.
Qed.

(** ** Moving to the current position *)

(** C4.  [async_set_cover_position] with a target [p] in [0,100] that
    equals the current position, from a world with the lock free and the
    store in place, with calls that do not raise, whatever the fuel: it
    returns; the position is the one from before; what it asked for is
    STOP and an announcement (the first stop), CLOSE, one save of the
    document that maps the identifier to the position, then STOP and an
    announcement again; so STOP is asked for exactly twice and there is
    exactly one save. *)
Theorem move_to_current_position_keeps_it
    (env : Env) (self : MQTTRelayCover) (fuel : nat) (p : Z) (q : Q)
    (w : World) :
  (forall n, raises env n = false) ->
  Sequential._lock w = false ->
  Sequential._store w = true ->
  (0 <= p <= 100)%Z ->
  Sequential._attr_current_cover_position w = Some q ->
  q == inject_Z p ->
  exists w' evs,
    async_set_cover_position env self fuel (Some p) w = (Returned tt, w')
    /\ Sequential._attr_current_cover_position w' = Some q
    /\ trace w' = trace w ++ evs
    /\ outline evs
       = [Publish STOP; Announce false false (Some q);
          Publish CLOSE;
          Save {[ unique_id self := Some q ]};
          Publish STOP; Announce false false (Some q)]
    /\ count_publish STOP (outline evs) = 2%nat
    /\ saved (outline evs) = [{[ unique_id self := Some q ]}].
Proof.
  intros NR L S R P Hq.
  destruct (set_cover_position_ok env self fuel (Some p) w q NR L S P)
    as (w1 & w3 & d1 & lg1 & d3 & lg3 & T3 & P3 & _ & _ & _ & K).
  cbn zeta in *.
  set (l := locals_of self (Some p) q (Sequential.clock w1)) in *.
  assert (Ht : target_position l = p) by (apply clamp_target_id, R).
  assert (Hd : is_opening_direction l = false).
  { cbn. rewrite (clamp_target_id p R). apply (Qltb_irrefl_eq _ _ Hq). }
  assert (Hc : direction_command l = CLOSE)
    by (unfold direction_command; rewrite Hd; reflexivity).
  assert (E4 : sampling_loop env fuel l w3
               = (Returned (Sequential.clock w3), w3)).
  { apply sampling_loop_exit.
    apply loop_condition_at_target with (q := q); [exact P3|].
    rewrite Ht. exact Hq. }
  destruct (K _ _ E4) as (w' & d5 & lg5 & E & P' & _ & _ & _ & _ & T').
  rewrite P3 in P', T'. rewrite Hc in T3.
  eexists w', _. split; [exact E|]. split; [exact P'|].
  split; [rewrite T', T3, <- !app_assoc; reflexivity|].
  outline_norm. auto.
Qed.

Lemma move_to_current_position_keeps_it_witness :
  (forall n, raises quiet_env n = false)
  /\ Sequential._lock (resting_world 40 ∅) = false
  /\ Sequential._store (resting_world 40 ∅) = true
  /\ (0 <= 40 <= 100)%Z
  /\ Sequential._attr_current_cover_position (resting_world 40 ∅) = Some 40
  /\ 40 == inject_Z 40
  /\ exists w' evs,
       async_set_cover_position quiet_env ten_second_cover 0 (Some 40%Z)
         (resting_world 40 ∅)
       = (Returned tt, w')
       /\ Sequential._attr_current_cover_position w' = Some 40
       /\ trace w' = trace (resting_world 40 ∅) ++ evs
       /\ outline evs
          = [Publish STOP; Announce false false (Some 40);
             Publish CLOSE;
             Save {[ unique_id ten_second_cover := Some 40 ]};
             Publish STOP; Announce false false (Some 40)]
       /\ count_publish STOP (outline evs) = 2%nat
       /\ saved (outline evs) = [{[ unique_id ten_second_cover := Some 40 ]}].
Proof.
  split; [intros n; reflexivity|].
  split; [reflexivity|].
  split; [reflexivity|].
  split; [lia|].
  split; [reflexivity|].
  split; [reflexivity|].
  apply (move_to_current_position_keeps_it quiet_env ten_second_cover 0
           40%Z 40 (resting_world 40 ∅)).
  - intros n. reflexivity.
  - reflexivity.
  - reflexivity.
  - lia.
  - reflexivity.
  - reflexivity.
Defined.

(** ** A travel budget of zero *)

(** C8.  [async_set_cover_position] when the travel time of the direction
    it chooses is 0, with a monotonic clock and calls that do not raise,
    from a world with the lock free and the store in place, whatever the
    fuel: it returns (no [ZeroDivisionError], the quotient by
    [movement_time] sits in the loop body); the trace has no sleep and no
    announcement from the loop, so the body never ran; the position is the
    one from before; STOP is asked for before and after, and the position
    is saved once. *)
Theorem zero_travel_budget_skips_the_loop
    (env : Env) (self : MQTTRelayCover) (fuel : nat)
    (kwargs_position : option Z) (q : Q) (w : World) :
  (forall n, raises env n = false) ->
  (forall n, 0 <= latency env n) ->
  Sequential._lock w = false ->
  Sequential._store w = true ->
  Sequential._attr_current_cover_position w = Some q ->
  movement_time_of self
    (Qltb q (inject_Z (clamp_target kwargs_position))) == 0 ->
  exists w' evs,
    async_set_cover_position env self fuel kwargs_position w
    = (Returned tt, w')
    /\ Sequential._attr_current_cover_position w' = Some q
    /\ trace w' = trace w ++ evs
    /\ outline evs
       = [Publish STOP; Announce false false (Some q);
          Publish
            (if Qltb q (inject_Z (clamp_target kwargs_position))
             then OPEN else CLOSE);
          Save {[ unique_id self := Some q ]};
          Publish STOP; Announce false false (Some q)]
    /\ sleeps (outline evs) = []
    /\ saved (outline evs) = [{[ unique_id self := Some q ]}].
Proof.
  intros NR Mono L S P Hz.
  set (direction := Qltb q (inject_Z (clamp_target kwargs_position))) in *.
  destruct (set_cover_position_ok env self fuel kwargs_position w q
              NR L S P)
    as (w1 & w3 & d1 & lg1 & d3 & lg3 & T3 & P3 & _ & C3 & _ & K).
  cbn zeta in *.
  set (l := locals_of self kwargs_position q (Sequential.clock w1)) in *.
  assert (E4 : sampling_loop env fuel l w3
               = (Returned (Sequential.clock w3), w3)).
  { apply sampling_loop_exit, loop_condition_out_of_budget.
    specialize (C3 Mono).
    change (movement_time l) with (movement_time_of self direction).
    change (start_moving_time l) with (Sequential.clock w1).
    lra. }
  destruct (K _ _ E4) as (w' & d5 & lg5 & E & P' & _ & _ & _ & _ & T').
  rewrite P3 in P', T'.
  eexists w', _. split; [exact E|]. split; [exact P'|].
  split; [rewrite T', T3, <- !app_assoc; reflexivity|].
  outline_norm. auto.
Qed.

Lemma zero_travel_budget_skips_the_loop_witness :
  (forall n, raises quiet_env n = false)
  /\ (forall n, 0 <= latency quiet_env n)
  /\ Sequential._lock (resting_world 30 ∅) = false
  /\ Sequential._store (resting_world 30 ∅) = true
  /\ Sequential._attr_current_cover_position (resting_world 30 ∅) = Some 30
  /\ movement_time_of timeless_cover
       (Qltb 30 (inject_Z (clamp_target (Some 80%Z)))) == 0
  /\ exists w' evs,
       async_set_cover_position quiet_env timeless_cover 0 (Some 80%Z)
         (resting_world 30 ∅)
       = (Returned tt, w')
       /\ Sequential._attr_current_cover_position w' = Some 30
       /\ trace w' = trace (resting_world 30 ∅) ++ evs
       /\ outline evs
          = [Publish STOP; Announce false false (Some 30);
             Publish
               (if Qltb 30 (inject_Z (clamp_target (Some 80%Z)))
                then OPEN else CLOSE);
             Save {[ unique_id timeless_cover := Some 30 ]};
             Publish STOP; Announce false false (Some 30)]
       /\ sleeps (outline evs) = []
       /\ saved (outline evs) = [{[ unique_id timeless_cover := Some 30 ]}].
Proof.
  split; [intros n; reflexivity|].
  split; [intros n; discriminate|].
  split; [reflexivity|].
  split; [reflexivity|].
  split; [reflexivity|].
  split; [reflexivity|].
  apply (zero_travel_budget_skips_the_loop quiet_env timeless_cover 0
           (Some 80%Z) 30 (resting_world 30 ∅)).
  - intros n. reflexivity.
  - intros n. discriminate.
  - reflexivity.
  - reflexivity.
  - reflexivity.
  - reflexivity.
Defined.

(** ** A full opening on an ideal clock *)

Lemma inject_Z_of_nat_succ (j : nat) :
  inject_Z (Z.of_nat (S j)) == inject_Z (Z.of_nat j) + 1.
Proof.
  rewrite Nat2Z.inj_succ. unfold Z.succ. rewrite inject_Z_plus. reflexivity.
Qed.

Lemma inject_Z_of_nat_le (j k : nat) :
  (j <= k)%nat -> inject_Z (Z.of_nat j) <= inject_Z (Z.of_nat k).
Proof. intros H. rewrite <- Zle_Qle. lia. Qed.

Section IdealOpening.

Variable env : Env.
Hypothesis ideal : forall n, latency env n == 0.
Hypothesis quiet : forall n, interrupted env n = false.

Variable l : Locals.
Variable q0 : Q.
Hypothesis l_target : target_position l = 100%Z.
Hypothesis l_initial : initial_position l = q0.
Hypothesis l_direction : is_opening_direction l = true.
Hypothesis l_duration : movement_time l == 10.
Hypothesis from_closed : q0 == 0.

Lemma ideal_progress (j : nat) (now : Q) :
  now == start_moving_time l + inject_Z (Z.of_nat j) * (1 # 10) ->
  progress_at l now == inject_Z (Z.of_nat j).
Proof.
  intros H. unfold progress_at. rewrite H, l_duration.
  change (inject_Z _MAX_PERCENT) with 100. field.
Qed.

(** From the [j]-th check of the loop condition, [n] passes before the
    hundredth: the loop runs those [n] passes and leaves on the time
    budget with the estimate at 99. *)
Lemma ideal_opening_from (n : nat) :
  forall (j fuel : nat) (w : World) (p : Q),
    (j + n = 100)%nat ->
    (n <= fuel)%nat ->
    Sequential.clock w
    == start_moving_time l + inject_Z (Z.of_nat j) * (1 # 10) ->
    Sequential._attr_current_cover_position w = Some p ->
    p == Qmax 0 (inject_Z (Z.of_nat j) - 1) ->
    Sequential._attr_is_opening w = true ->
    Sequential._attr_is_closing w = false ->
    exists now w4 q evs,
      sampling_loop env fuel l w = (Returned now, w4)
      /\ now == start_moving_time l + 10
      /\ Sequential._attr_current_cover_position w4 = Some q
      /\ q == 99
      /\ Sequential._attr_is_opening w4 = true
      /\ Sequential._attr_is_closing w4 = false
      /\ trace w4 = trace w ++ evs
      /\ length (sleeps (outline evs)) = n.
Proof.
  induction n as [|n IH]; intros j fuel w p Hj Hf Hc Hp Hq Ho Hcl.
  - assert (j = 100)%nat by lia. subst j.
    change (inject_Z (Z.of_nat 100)) with 100 in *.
    exists (Sequential.clock w), w, p, [].
    split.
    { apply sampling_loop_exit, loop_condition_out_of_budget.
      rewrite Hc, l_duration. lra. }
    split; [rewrite Hc; lra|].
    split; [exact Hp|].
    split; [rewrite Hq; apply Q.max_r; lra|].
    split; [exact Ho|]. split; [exact Hcl|].
    split; [symmetry; apply app_nil_r|reflexivity].
  - destruct fuel as [|fuel]; [lia|].
    pose proof (inject_Z_of_nat_succ j) as HS.
    set (J := inject_Z (Z.of_nat j)) in *.
    assert (J0 : 0 <= J) by (apply (inject_Z_of_nat_le 0 j); lia).
    assert (J99 : J <= 99) by (apply (inject_Z_of_nat_le j 99); lia).
    assert (P98 : p <= 98) by (rewrite Hq; apply Q.max_lub; lra).
    assert (C : loop_condition (target_position l) (start_moving_time l)
                  (movement_time l) (Sequential.clock w) w
                = (Returned true, w)).
    { rewrite (loop_condition_pending _ _ _ _ _ _ Hp).
      rewrite Ho, Hcl, l_target. unfold within_budget, target_pending.
      replace (Qltb (Sequential.clock w)
                 (start_moving_time l + movement_time l)) with true.
      2:{ symmetry. apply Qltb_lt. rewrite Hc, l_duration. lra. }
      replace (Qltb p (inject_Z 100)) with true.
      2:{ symmetry. apply Qltb_lt. change (inject_Z 100) with 100. lra. }
      reflexivity. }
    destruct (sleep_eq env _CHECK_INTERVAL w)
      as (w1 & E & [Up _ _ _ _] & F & C1 & T1).
    destruct (F (quiet _)) as [Fo Fc].
    rewrite (sampling_loop_pass env fuel l w w1 C E).
    replace (Qeq_bool (movement_time l) 0) with false
      by (rewrite l_duration; reflexivity).
    pose proof (ideal_progress j (Sequential.clock w) Hc) as HP.
    fold J in HP.
    destruct (IH (S j) fuel (after_pass l (Sequential.clock w) w1)
                (next_position (is_opening_direction l) (initial_position l)
                   (progress_at l (Sequential.clock w)) (target_position l)))
      as (now & w4 & q & evs & E4 & Hn & P4 & Q4 & O4 & C4 & T4 & S4).
    + lia.
    + lia.
    + cbn. rewrite C1, Hc, (ideal (awaited w)), HS.
      change _CHECK_INTERVAL with (1 # 10). ring.
    + reflexivity.
    + rewrite l_direction, l_initial, l_target, HS. cbn.
      rewrite HP, from_closed. change (inject_Z 100) with 100.
      rewrite Q.min_l by lra. rewrite Q.max_r by lra. ring.
    + cbn. congruence.
    + cbn. congruence.
    + eexists now, w4, q, (_ :: _ :: evs).
      split; [exact E4|]. split; [exact Hn|]. split; [exact P4|].
      split; [exact Q4|]. split; [exact O4|]. split; [exact C4|].
      split.
      * rewrite T4. cbn. rewrite T1, <- !app_assoc. reflexivity.
      * cbn. rewrite S4. reflexivity.
Qed.

End IdealOpening.

(** A cover with an opening time of 10 s, at position 0, asked to
    move to 100, on an ideal clock (only sleeps take time, and they take
    what was asked), with the direction flags never cleared from outside
    and calls that do not raise, given fuel for 100 passes.  The
    invocation enters the loop in a world [w3] after the first STOP and
    the OPEN; the loop makes 100 passes and returns in [w4] with [now] at
    which the time budget is used up ([within_budget] is false) while the
    target is still pending ([target_pending] is true: the opening flag is
    set and the estimate is below 100), so it left on the time budget; the
    estimate is then 99, within 1 of 100; the invocation saves it, stops
    and returns. *)
Lemma ideal_full_opening_ends_at_99
    (env : Env) (self : MQTTRelayCover) (fuel : nat) (q0 : Q) (w : World) :
  (forall n, latency env n == 0) ->
  (forall n, interrupted env n = false) ->
  (forall n, raises env n = false) ->
  _opening_time self == 10 ->
  Sequential._lock w = false ->
  Sequential._store w = true ->
  Sequential._attr_current_cover_position w = Some q0 ->
  q0 == 0 ->
  (100 <= fuel)%nat ->
  exists l w3 now w4 q w' pre passes post,
    target_position l = 100%Z
    /\ is_opening_direction l = true
    /\ movement_time l == 10
    /\ trace w3 = trace w ++ pre
    /\ outline pre
       = [Publish STOP; Announce false false (Some q0); Publish OPEN]
    /\ sampling_loop env fuel l w3 = (Returned now, w4)
    /\ trace w4 = trace w3 ++ passes
    /\ length (sleeps (outline passes)) = 100%nat
    /\ within_budget now (start_moving_time l) (movement_time l) = false
    /\ Sequential._attr_current_cover_position w4 = Some q
    /\ target_pending (Sequential._attr_is_opening w4)
         (Sequential._attr_is_closing w4) q (target_position l) = true
    /\ q == 99
    /\ 100 - 1 <= q <= 100 + 1
    /\ async_set_cover_position env self fuel (Some 100%Z) w
       = (Returned tt, w')
    /\ Sequential._attr_current_cover_position w' = Some q
    /\ Sequential._attr_is_opening w' = false
    /\ Sequential._attr_is_closing w' = false
    /\ trace w' = trace w4 ++ post
    /\ outline post
       = [Save {[ unique_id self := Some q ]};
          Publish STOP; Announce false false (Some q)].
Proof.
  intros Ideal Quiet NR Hot L S P H0 Hf.
  destruct (set_cover_position_ok env self fuel (Some 100%Z) w q0 NR L S P)
    as (w1 & w3 & d1 & lg1 & d3 & lg3 & T3 & P3 & F3 & _ & I3 & K).
  cbn zeta in *.
  specialize (F3 Quiet). specialize (I3 Ideal).
  set (l := locals_of self (Some 100%Z) q0 (Sequential.clock w1)) in *.
  assert (Ht : target_position l = 100%Z) by reflexivity.
  assert (Hd : is_opening_direction l = true).
  { cbn. apply Qltb_lt. rewrite H0. reflexivity. }
  assert (Hm : movement_time l == 10).
  { change (movement_time l)
      with (movement_time_of self (is_opening_direction l)).
    rewrite Hd. exact Hot. }
  rewrite Hd in F3. destruct F3 as [Fo Fc]. cbn in Fc.
  destruct (ideal_opening_from env Ideal Quiet l q0 Ht eq_refl Hd Hm H0
              100 0 fuel w3 q0)
    as (now & w4 & q & passes & E4 & Hn & P4 & Q4 & O4 & C4 & T4 & S4);
    try assumption; try reflexivity.
  { rewrite I3. cbn. ring. }
  destruct (K _ _ E4)
    as (w' & d5 & lg5 & E & P' & Fo' & Fc' & _ & _ & T').
  rewrite P4 in P', T'.
  exists l, w3, now, w4, q, w'. eexists _, passes, _.
  split; [exact Ht|]. split; [exact Hd|]. split; [exact Hm|].
  split; [exact T3|].
  split.
  { unfold direction_command. rewrite Hd. outline_norm. reflexivity. }
  split; [exact E4|]. split; [exact T4|]. split; [exact S4|].
  split; [apply Qltb_ge; rewrite Hn, Hm; lra|].
  split; [exact P4|].
  split.
  { rewrite O4, C4, Ht. unfold target_pending.
    replace (Qltb q (inject_Z 100)) with true; [reflexivity|].
    symmetry. apply Qltb_lt. rewrite Q4. reflexivity. }
  split; [exact Q4|].
  split; [rewrite Q4; split; discriminate|].
  split; [exact E|]. split; [exact P'|].
  split; [exact Fo'|]. split; [exact Fc'|].
  split; [exact T'|].
  outline_norm. reflexivity.
Qed.

(** ** A full opening on a clock that runs late *)

(** [set_cover_position_ok], with the run of [start_movement] that leads
    to the loop. *)
Lemma set_cover_position_enters (env : Env) (self : MQTTRelayCover)
    (fuel : nat) (kwargs_position : option Z) (w : World) (q : Q) :
  (forall n, raises env n = false) ->
  Sequential._lock w = false ->
  Sequential._store w = true ->
  Sequential._attr_current_cover_position w = Some q ->
  exists w1 w3 d1 lg1 d3 lg3,
    let l := locals_of self kwargs_position q (Sequential.clock w1) in
    start_movement env self kwargs_position (upd_lock true w1)
    = (Returned l, w3)
    /\ trace w3
    = trace w ++ publish_events STOP d1 lg1
      ++ [EvWriteState false false (Some q)]
      ++ publish_events (direction_command l) d3 lg3
    /\ Sequential._attr_current_cover_position w3 = Some q
    /\ ((forall n, interrupted env n = false) ->
        Sequential._attr_is_opening w3 = is_opening_direction l
        /\ Sequential._attr_is_closing w3 = negb (is_opening_direction l))
    /\ ((forall n, 0 <= latency env n) ->
        Sequential.clock w1 <= Sequential.clock w3)
    /\ ((forall n, latency env n == 0) ->
        Sequential.clock w3 == Sequential.clock w1)
    /\ forall now w4,
         sampling_loop env fuel l w3 = (Returned now, w4) ->
         exists w' d5 lg5,
           async_set_cover_position env self fuel kwargs_position w
           = (Returned tt, w')
           /\ Sequential._attr_current_cover_position w'
              = Sequential._attr_current_cover_position w4
           /\ Sequential._attr_is_opening w' = false
           /\ Sequential._attr_is_closing w' = false
           /\ Sequential._lock w' = false
           /\ Sequential.document w'
              = Some {[ unique_id self
                        := Sequential._attr_current_cover_position w4 ]}
           /\ trace w'
              = trace w4
                ++ [EvSave {[ unique_id self
                               := Sequential._attr_current_cover_position
                                    w4 ]}]
                ++ publish_events STOP d5 lg5
                ++ [EvWriteState false false
                      (Sequential._attr_current_cover_position w4)].
Proof.
  intros NR L S P.
  destruct (stop_ok env w NR)
    as (w1 & d1 & lg1 & E1 & _ & _ & P1 & S1 & L1 & _ & T1 & _).
  rewrite P in P1, T1. rewrite L in L1. rewrite S in S1.
  destruct (start_movement_ok env self kwargs_position
              (upd_lock true w1) q NR P1)
    as (w3 & d3 & lg3 & E3 & [U3 T3] & F3 & C3 & I3).
  cbn in T3, C3, I3.
  destruct U3 as [P3 S3 L3 _ _]. cbn in P3, S3, L3.
  exists w1, w3, d1, lg1, d3, lg3. cbn zeta.
  split; [exact E3|].
  split; [rewrite T3, T1, <- !app_assoc; reflexivity|].
  split; [congruence|].
  split; [exact F3|]. split; [exact C3|]. split; [exact I3|].
  intros now w4 E4.
  destruct (sampling_loop_frame env fuel _ w3 _ _ E4)
    as (S4 & L4 & _).
  destruct (save_ok env
              {[ unique_id self
                 := Sequential._attr_current_cover_position w4 ]} w4 NR)
    as (w5 & E5 & P5 & L5 & _ & D5 & T5); [congruence|].
  destruct (stop_ok env (upd_lock false w5) NR)
    as (w6 & d6 & lg6 & E6 & Fo & Fc & P6 & _ & L6 & D6 & T6 & _).
  cbn in P6, L6, D6, T6.
  exists w6, d6, lg6.
  split.
  - unfold async_set_cover_position. rewrite (bind_step _ _ _ _ _ E1).
    apply try_finally_step with (w1 := upd_lock false w5); [|exact E6].
    rewrite (with_lock_free _ _ L1).
    apply try_finally_step with (w1 := w5); [|reflexivity].
    unfold critical_section.
    rewrite (bind_step _ _ _ _ _ E3), (bind_step _ _ _ _ _ E4).
    exact E5.
  - split; [congruence|]. split; [exact Fo|]. split; [exact Fc|].
    split; [exact L6|]. split; [congruence|].
    rewrite T6, T5, P5, <- !app_assoc. reflexivity.
Qed.

Section LateOpening.

Variable env : Env.
Variable eps : Q.
Hypothesis late : forall n, 0 <= latency env n <= eps.
Hypothesis quiet : forall n, interrupted env n = false.

Lemma publish_late (cmd : Command) (w : World) (o : Outcome unit)
    (w' : World) :
  __async_publish env cmd w = (o, w') ->
  Sequential.clock w <= Sequential.clock w'
  <= Sequential.clock w + 2 * eps.
Proof.
  pose proof (late (awaited w)) as L0.
  unfold __async_publish, __isMQTTAvailable, bind, gets, ret, emit, modify,
    raise.
  destruct (mqtt_entries env (awaited w)) as [|[|]]; cbn.
  - intros E. injection E as <- <-. cbn. lra.
  - destruct (suspend_eq env 0 w) as (w1 & E1 & _ & _ & C1 & A1 & _).
    rewrite E1. cbn.
    destruct (suspend_eq env 0 w1) as (w2 & E2 & _ & _ & C2 & _ & _).
    rewrite E2. cbn. pose proof (late (awaited w1)) as L1.
    destruct (raises env (awaited w1)); intros E; injection E as <- <-;
      cbn; rewrite C2, C1; lra.
  - destruct (suspend_eq env 0 w) as (w1 & E1 & _ & _ & C1 & _ & _).
    rewrite E1. cbn. intros E. injection E as <- <-. cbn. rewrite C1. lra.
Qed.

Lemma start_movement_late (self : MQTTRelayCover)
    (kwargs_position : option Z) (w : World) (o : Outcome Locals)
    (w' : World) :
  start_movement env self kwargs_position w = (o, w') ->
  Sequential.clock w <= Sequential.clock w'
  <= Sequential.clock w + 2 * eps.
Proof.
  pose proof (late 0%nat) as L0.
  unfold start_movement, time_monotonic, set_opening, set_closing, bind,
    gets, modify, ret, raise. cbn.
  destruct (Sequential._attr_current_cover_position w) as [q|]; cbn.
  - match goal with
    | |- context [__async_publish env ?c ?w0] =>
        destruct (__async_publish env c w0) as [[[]|e| |] w1] eqn:E1;
        pose proof (publish_late c w0 _ _ E1) as B
    end; cbn in B; intros E; injection E as <- <-; exact B.
  - intros E. injection E as <- <-. lra.
Qed.

Variable l : Locals.
Variable q0 : Q.
Hypothesis l_target : target_position l = 100%Z.
Hypothesis l_initial : initial_position l = q0.
Hypothesis l_direction : is_opening_direction l = true.
Hypothesis l_duration : movement_time l == 10.
Hypothesis from_closed : q0 == 0.

Lemma late_progress (now : Q) :
  progress_at l now == 10 * (now - start_moving_time l).
Proof.
  unfold progress_at. rewrite l_duration.
  change (inject_Z _MAX_PERCENT) with 100. field.
Qed.

(** From a check of the loop condition at which at most [k] ticks are
    left in the budget: the loop makes at most [k] passes and leaves on
    the time budget, with the estimate behind 100 by less than the
    travel of one tick and of the lateness of one sleep. *)
Lemma late_opening_from (k : nat) :
  forall (fuel : nat) (w : World) (p : Q),
    (k <= fuel)%nat ->
    start_moving_time l + 10 - Sequential.clock w
    <= inject_Z (Z.of_nat k) * (1 # 10) ->
    Sequential._attr_current_cover_position w = Some p ->
    p < 100 ->
    10 * (Sequential.clock w - start_moving_time l) - 1 - 10 * eps <= p ->
    Sequential._attr_is_opening w = true ->
    Sequential._attr_is_closing w = false ->
    exists now w4 q evs,
      sampling_loop env fuel l w = (Returned now, w4)
      /\ start_moving_time l + 10 <= now
      /\ Sequential._attr_current_cover_position w4 = Some q
      /\ 99 - 10 * eps <= q < 100
      /\ Sequential._attr_is_opening w4 = true
      /\ Sequential._attr_is_closing w4 = false
      /\ trace w4 = trace w ++ evs
      /\ (length (sleeps (outline evs)) <= k)%nat.
Proof.
  assert (Exit : forall (k fuel : nat) (w : World) (p : Q),
             start_moving_time l + 10 <= Sequential.clock w ->
             Sequential._attr_current_cover_position w = Some p ->
             p < 100 ->
             10 * (Sequential.clock w - start_moving_time l) - 1 - 10 * eps
             <= p ->
             Sequential._attr_is_opening w = true ->
             Sequential._attr_is_closing w = false ->
             exists now w4 q evs,
               sampling_loop env fuel l w = (Returned now, w4)
               /\ start_moving_time l + 10 <= now
               /\ Sequential._attr_current_cover_position w4 = Some q
               /\ 99 - 10 * eps <= q < 100
               /\ Sequential._attr_is_opening w4 = true
               /\ Sequential._attr_is_closing w4 = false
               /\ trace w4 = trace w ++ evs
               /\ (length (sleeps (outline evs)) <= k)%nat).
  { intros k0 fuel w p B Hp Hlt Hinv Ho Hcl.
    exists (Sequential.clock w), w, p, [].
    split.
    { apply sampling_loop_exit, loop_condition_out_of_budget.
      rewrite l_duration. exact B. }
    split; [exact B|]. split; [exact Hp|].
    split; [split; [lra|exact Hlt]|].
    split; [exact Ho|]. split; [exact Hcl|].
    split; [symmetry; apply app_nil_r|cbn; lia]. }
  induction k as [|k IH]; intros fuel w p Hf Hk Hp Hlt Hinv Ho Hcl.
  - apply (Exit 0%nat fuel w p); auto.
    change (inject_Z (Z.of_nat 0)) with 0 in Hk. lra.
  - destruct (Qlt_le_dec (Sequential.clock w) (start_moving_time l + 10))
      as [B|B]; [|apply (Exit (S k) fuel w p); auto].
    destruct fuel as [|fuel]; [lia|].
    pose proof (inject_Z_of_nat_succ k) as HS.
    pose proof (late (awaited w)) as L.
    assert (C : loop_condition (target_position l) (start_moving_time l)
                  (movement_time l) (Sequential.clock w) w
                = (Returned true, w)).
    { rewrite (loop_condition_pending _ _ _ _ _ _ Hp).
      rewrite Ho, Hcl, l_target. unfold within_budget, target_pending.
      replace (Qltb (Sequential.clock w)
                 (start_moving_time l + movement_time l)) with true.
      2:{ symmetry. apply Qltb_lt. rewrite l_duration. exact B. }
      replace (Qltb p (inject_Z 100)) with true.
      2:{ symmetry. apply Qltb_lt. change (inject_Z 100) with 100.
          exact Hlt. }
      reflexivity. }
    destruct (sleep_eq env _CHECK_INTERVAL w)
      as (w1 & E & _ & F & C1 & T1).
    destruct (F (quiet _)) as [Fo Fc].
    rewrite (sampling_loop_pass env fuel l w w1 C E).
    replace (Qeq_bool (movement_time l) 0) with false
      by (rewrite l_duration; reflexivity).
    pose proof (late_progress (Sequential.clock w)) as HP.
    assert (N : next_position (is_opening_direction l) (initial_position l)
                  (progress_at l (Sequential.clock w)) (target_position l)
                == 10 * (Sequential.clock w - start_moving_time l)).
    { rewrite l_direction, l_initial, l_target. cbn.
      rewrite HP, from_closed. change (inject_Z 100) with 100.
      rewrite Q.min_l by lra. ring. }
    destruct (IH fuel (after_pass l (Sequential.clock w) w1)
                (next_position (is_opening_direction l) (initial_position l)
                   (progress_at l (Sequential.clock w)) (target_position l)))
      as (now & w4 & q & evs & E4 & Hn & P4 & Q4 & O4 & C4 & T4 & S4).
    + lia.
    + cbn. rewrite C1. change _CHECK_INTERVAL with (1 # 10). lra.
    + reflexivity.
    + rewrite N. lra.
    + rewrite N. cbn. rewrite C1. change _CHECK_INTERVAL with (1 # 10).
      lra.
    + cbn. congruence.
    + cbn. congruence.
    + eexists now, w4, q, (_ :: _ :: evs).
      split; [exact E4|]. split; [exact Hn|]. split; [exact P4|].
      split; [exact Q4|]. split; [exact O4|]. split; [exact C4|].
      split.
      * rewrite T4. cbn. rewrite T1, <- !app_assoc. reflexivity.
      * cbn. lia.
Qed.

End LateOpening.

(** C1, as amended.  A cover with an opening time of 10 s, at position 0,
    asked to move to 100, with the direction flags never cleared from
    outside and calls that do not raise, on a clock on which every
    suspension point is late by at most [eps], at most one tick, given
    fuel for 100 passes.  The invocation enters the loop in a world [w3]
    after the first STOP and the OPEN; the loop makes at most 100 passes
    and returns in [w4] with [now] at which the time budget is used up
    ([within_budget] is false) while the target is still pending
    ([target_pending] is true: the opening flag is set and the estimate
    is below 100), so it left on the time budget; the estimate is then
    below 100 and at least [99 - 10 * eps]: behind 100 by the travel of
    one tick and of the lateness of one sleep; the invocation saves it,
    stops and returns.  On an ideal clock the estimate is 99. *)
Theorem full_opening_leaves_the_loop_on_the_time_budget
    (env : Env) (self : MQTTRelayCover) (fuel : nat) (eps q0 : Q)
    (w : World) :
  (forall n, 0 <= latency env n <= eps) ->
  eps <= 1 # 10 ->
  (forall n, interrupted env n = false) ->
  (forall n, raises env n = false) ->
  _opening_time self == 10 ->
  Sequential._lock w = false ->
  Sequential._store w = true ->
  Sequential._attr_current_cover_position w = Some q0 ->
  q0 == 0 ->
  (100 <= fuel)%nat ->
  exists l w3 now w4 q w' pre passes post,
    target_position l = 100%Z
    /\ is_opening_direction l = true
    /\ movement_time l == 10
    /\ trace w3 = trace w ++ pre
    /\ outline pre
       = [Publish STOP; Announce false false (Some q0); Publish OPEN]
    /\ sampling_loop env fuel l w3 = (Returned now, w4)
    /\ trace w4 = trace w3 ++ passes
    /\ (length (sleeps (outline passes)) <= 100)%nat
    /\ within_budget now (start_moving_time l) (movement_time l) = false
    /\ Sequential._attr_current_cover_position w4 = Some q
    /\ target_pending (Sequential._attr_is_opening w4)
         (Sequential._attr_is_closing w4) q (target_position l) = true
    /\ 99 - 10 * eps <= q < 100
    /\ ((forall n, latency env n == 0) -> q == 99)
    /\ async_set_cover_position env self fuel (Some 100%Z) w
       = (Returned tt, w')
    /\ Sequential._attr_current_cover_position w' = Some q
    /\ Sequential._attr_is_opening w' = false
    /\ Sequential._attr_is_closing w' = false
    /\ trace w' = trace w4 ++ post
    /\ outline post
       = [Save {[ unique_id self := Some q ]};
          Publish STOP; Announce false false (Some q)].
Proof.
  intros Late He Quiet NR Hot L St P H0 Hf.
  destruct (set_cover_position_enters env self fuel (Some 100%Z) w q0 NR L
              St P)
    as (w1 & w3 & d1 & lg1 & d3 & lg3 & E3 & T3 & P3 & F3 & _ & _ & K).
  cbn zeta in *.
  specialize (F3 Quiet).
  set (l := locals_of self (Some 100%Z) q0 (Sequential.clock w1)) in *.
  assert (Ht : target_position l = 100%Z) by reflexivity.
  assert (Hd : is_opening_direction l = true).
  { cbn. apply Qltb_lt. rewrite H0. reflexivity. }
  assert (Hm : movement_time l == 10).
  { change (movement_time l)
      with (movement_time_of self (is_opening_direction l)).
    rewrite Hd. exact Hot. }
  rewrite Hd in F3. destruct F3 as [Fo Fc]. cbn in Fc.
  pose proof (start_movement_late env eps Late self _ _ _ _ E3) as B3.
  cbn in B3.
  destruct (late_opening_from env eps Late Quiet l q0 Ht eq_refl Hd Hm H0
              100 fuel w3 q0)
    as (now & w4 & q & passes & E4 & Hn & P4 & Q4 & O4 & C4 & T4 & S4);
    try assumption.
  { change (inject_Z (Z.of_nat 100)) with 100.
    change (start_moving_time l) with (Sequential.clock w1). lra. }
  { rewrite H0. reflexivity. }
  { change (start_moving_time l) with (Sequential.clock w1).
    rewrite H0. lra. }
  destruct (K _ _ E4)
    as (w' & d5 & lg5 & E & P' & Fo' & Fc' & _ & _ & T').
  rewrite P4 in P', T'.
  exists l, w3, now, w4, q, w'. eexists _, passes, _.
  split; [exact Ht|]. split; [exact Hd|]. split; [exact Hm|].
  split; [exact T3|].
  split.
  { unfold direction_command. rewrite Hd. outline_norm. reflexivity. }
  split; [exact E4|]. split; [exact T4|]. split; [exact S4|].
  split; [apply Qltb_ge; rewrite Hm; exact Hn|].
  split; [exact P4|].
  split.
  { rewrite O4, C4, Ht. unfold target_pending.
    replace (Qltb q (inject_Z 100)) with true; [reflexivity|].
    symmetry. apply Qltb_lt. change (inject_Z 100) with 100. apply Q4. }
  split; [exact Q4|].
  split.
  { intros Ideal.
    destruct (ideal_full_opening_ends_at_99 env self fuel q0 w Ideal Quiet
                NR Hot L St P H0 Hf)
      as (l' & w3' & now' & w4' & q' & w'' & pre' & passes' & post' & _ & _
          & _ & _ & _ & _ & _ & _ & _ & _ & _ & Q' & _ & E' & P'' & _).
    rewrite E in E'. injection E' as <-.
    rewrite P' in P''. injection P'' as <-. exact Q'. }
  split; [exact E|]. split; [exact P'|].
  split; [exact Fo'|]. split; [exact Fc'|].
  split; [exact T'|].
  outline_norm. reflexivity.
Qed.

Lemma full_opening_leaves_the_loop_on_the_time_budget_witness :
  (forall n, 0 <= latency late_env n <= 1 # 1000)
  /\ 1 # 1000 <= 1 # 10
  /\ (forall n, interrupted late_env n = false)
  /\ (forall n, raises late_env n = false)
  /\ _opening_time ten_second_cover == 10
  /\ Sequential._lock (resting_world 0 ∅) = false
  /\ Sequential._store (resting_world 0 ∅) = true
  /\ Sequential._attr_current_cover_position (resting_world 0 ∅) = Some 0
  /\ 0 == 0
  /\ (100 <= 100)%nat
  /\ exists l w3 now w4 q w' pre passes post,
       target_position l = 100%Z
       /\ is_opening_direction l = true
       /\ movement_time l == 10
       /\ trace w3 = trace (resting_world 0 ∅) ++ pre
       /\ outline pre
          = [Publish STOP; Announce false false (Some 0); Publish OPEN]
       /\ sampling_loop late_env 100 l w3 = (Returned now, w4)
       /\ trace w4 = trace w3 ++ passes
       /\ (length (sleeps (outline passes)) <= 100)%nat
       /\ within_budget now (start_moving_time l) (movement_time l) = false
       /\ Sequential._attr_current_cover_position w4 = Some q
       /\ target_pending (Sequential._attr_is_opening w4)
            (Sequential._attr_is_closing w4) q (target_position l) = true
       /\ 99 - 10 * (1 # 1000) <= q < 100
       /\ ((forall n, latency late_env n == 0) -> q == 99)
       /\ async_set_cover_position late_env ten_second_cover 100
            (Some 100%Z) (resting_world 0 ∅)
          = (Returned tt, w')
       /\ Sequential._attr_current_cover_position w' = Some q
       /\ Sequential._attr_is_opening w' = false
       /\ Sequential._attr_is_closing w' = false
       /\ trace w' = trace w4 ++ post
       /\ outline post
          = [Save {[ unique_id ten_second_cover := Some q ]};
             Publish STOP; Announce false false (Some q)].
Proof.
  split; [intros n; split; discriminate|]. split; [discriminate|].
  split; [intros n; reflexivity|]. split; [intros n; reflexivity|].
  split; [reflexivity|]. split; [reflexivity|]. split; [reflexivity|].
  split; [reflexivity|]. split; [reflexivity|]. split; [lia|].
  apply (full_opening_leaves_the_loop_on_the_time_budget late_env
           ten_second_cover 100 (1 # 1000) 0 (resting_world 0 ∅)).
  - intros n. split; discriminate.
  - discriminate.
  - intros n. reflexivity.
  - intros n. reflexivity.
  - reflexivity.
  - reflexivity.
  - reflexivity.
  - reflexivity.
  - reflexivity.
  - lia.
Defined.

(** C1, as stated, fails on a clock that runs late.  With every
    suspension point 0.995 ms late, nobody clearing the flags and no
    call raising, the 99th check of the loop condition still falls
    within the 10 s and the 100th falls after them: the last estimate is
    computed from the time read at the 99th check, and the invocation
    returns with the estimate at 98.995, more than one position unit
    short of 100. *)
Lemma full_opening_on_a_late_clock_ends_below_99 :
  _opening_time ten_second_cover == 10
  /\ (forall n, interrupted late_env n = false)
  /\ (forall n, raises late_env n = false)
  /\ exists w' q,
       async_set_cover_position late_env ten_second_cover 100 (Some 100%Z)
         (resting_world 0 ∅)
       = (Returned tt, w')
       /\ Sequential._attr_current_cover_position w' = Some q
       /\ q == 19799 # 200
       /\ ~ (100 - 1 <= q <= 100 + 1).
Proof.
  split; [reflexivity|]. split; [intros n; reflexivity|].
  split; [intros n; reflexivity|].
  eexists _, _. split; [vm_compute; reflexivity|].
  split; [reflexivity|].
  split; [vm_compute; reflexivity|].
  intros [H _]. vm_compute in H. apply H. reflexivity.
Qed.

(** ** What is persisted *)

Lemma saved_app (a b : list Action) : saved (a ++ b) = saved a ++ saved b.
Proof.
  induction a as [|[] a IH]; cbn; rewrite ?IH; reflexivity.
Qed.

Lemma quietly_refl (w : World) : quietly w w.
Proof. exists []. split; [symmetry; apply app_nil_r|auto]. Qed.

Lemma quietly_same (w w' : World) :
  trace w' = trace w ->
  Sequential.document w' = Sequential.document w ->
  quietly w w'.
Proof.
  intros T D. exists []. rewrite T. split; [symmetry; apply app_nil_r|auto].
Qed.

Lemma quietly_trans (w1 w2 w3 : World) :
  quietly w1 w2 -> quietly w2 w3 -> quietly w1 w3.
Proof.
  intros (e1 & T1 & S1 & D1) (e2 & T2 & S2 & D2).
  exists (e1 ++ e2). split; [rewrite T2, T1; symmetry; apply app_assoc|].
  split; [|congruence].
  rewrite outline_app, saved_app, S1, S2. reflexivity.
Qed.

Lemma quietly_then_wrote (self : MQTTRelayCover) (w1 w2 w3 : World) :
  quietly w1 w2 -> wrote_own_entry self w2 w3 -> wrote_own_entry self w1 w3.
Proof.
  intros (e1 & T1 & S1 & D1) (e2 & T2 & S2 & D2).
  exists (e1 ++ e2). split; [rewrite T2, T1; symmetry; apply app_assoc|].
  split; [|exact D2].
  rewrite outline_app, saved_app, S1, S2. reflexivity.
Qed.

Lemma wrote_then_quietly (self : MQTTRelayCover) (w1 w2 w3 : World) :
  wrote_own_entry self w1 w2 ->
  quietly w2 w3 ->
  Sequential._attr_current_cover_position w3
  = Sequential._attr_current_cover_position w2 ->
  wrote_own_entry self w1 w3.
Proof.
  intros (e1 & T1 & S1 & D1) (e2 & T2 & S2 & D2) P.
  exists (e1 ++ e2). split; [rewrite T2, T1; symmetry; apply app_assoc|].
  rewrite P. split; [|congruence].
  rewrite outline_app, saved_app, S1, S2. reflexivity.
Qed.

Lemma extends_quietly (w w' : World) (evs : list Event) :
  extends w w' evs -> saved (outline evs) = [] -> quietly w w'.
Proof.
  intros [[_ _ _ D _] T] S. exists evs. auto.
Qed.

Lemma saved_publish_events (cmd : Command) (d : Delivery) (l : bool) :
  saved (outline (publish_events cmd d l)) = [].
Proof. rewrite outline_publish_events. reflexivity. Qed.

Section Persistence.

Variable env : Env.
Variable self : MQTTRelayCover.

Lemma still_silent {A : Type} (m : M A) : still m -> silent m.
Proof. intros H w o w' E. apply (H w o w' E). Qed.

Lemma silent_bind {A B : Type} (m : M A) (k : A -> M B) :
  silent m -> (forall a, silent (k a)) -> silent (bind m k).
Proof.
  intros Hm Hk w o w' E. unfold bind in E.
  destruct (m w) as [[a|e| |] w1] eqn:Em.
  - eapply quietly_trans; [eapply Hm; eauto|eapply Hk; eauto].
  - injection E as <- <-. eapply Hm; eauto.
  - injection E as <- <-. eapply Hm; eauto.
  - injection E as <- <-. eapply Hm; eauto.
Qed.

Lemma still_bind {A B : Type} (m : M A) (k : A -> M B) :
  still m -> (forall a, still (k a)) -> still (bind m k).
Proof.
  intros Hm Hk w o w' E. unfold bind in E.
  destruct (m w) as [[a|e| |] w1] eqn:Em.
  - destruct (Hm _ _ _ Em) as [Q1 P1]. destruct (Hk _ _ _ _ E) as [Q2 P2].
    split; [eapply quietly_trans; eauto|congruence].
  - injection E as <- <-. eapply Hm; eauto.
  - injection E as <- <-. eapply Hm; eauto.
  - injection E as <- <-. eapply Hm; eauto.
Qed.

Lemma saving_bind {A B : Type} (m : M A) (k : A -> M B) :
  silent m -> (forall a, saving self (k a)) -> saving self (bind m k).
Proof.
  intros Hm Hk w o w' E. unfold bind in E.
  destruct (m w) as [[a|e| |] w1] eqn:Em.
  - specialize (Hk a w1 o w' E). specialize (Hm _ _ _ Em).
    destruct o; [eapply quietly_then_wrote; eauto|..];
      eapply quietly_trans; eauto.
  - injection E as <- <-. eapply Hm; eauto.
  - injection E as <- <-. eapply Hm; eauto.
  - injection E as <- <-. eapply Hm; eauto.
Qed.

Lemma still_ret {A : Type} (a : A) : still (ret a).
Proof.
  intros w o w' E. injection E as <- <-. split; [apply quietly_refl|auto].
Qed.

Lemma still_raise {A : Type} (e : Exn) : still (@raise A e).
Proof.
  intros w o w' E. injection E as <- <-. split; [apply quietly_refl|auto].
Qed.

Lemma still_gets {A : Type} (f : World -> A) : still (gets f).
Proof.
  intros w o w' E. injection E as <- <-. split; [apply quietly_refl|auto].
Qed.

Lemma still_set_opening (b : bool) : still (set_opening b).
Proof.
  intros w o w' E. injection E as <- <-.
  split; [apply quietly_same|]; reflexivity.
Qed.

Lemma still_set_closing (b : bool) : still (set_closing b).
Proof.
  intros w o w' E. injection E as <- <-.
  split; [apply quietly_same|]; reflexivity.
Qed.

Lemma silent_set_position (p : option Q) : silent (modify (upd_position p)).
Proof.
  intros w o w' E. injection E as <- <-. apply quietly_same; reflexivity.
Qed.

Lemma still_write_ha_state : still async_write_ha_state.
Proof.
  intros w o w' E. injection E as <- <-. split; [|reflexivity].
  eexists [_]. cbn. auto.
Qed.

Lemma still_publish (cmd : Command) : still (__async_publish env cmd).
Proof.
  intros w o w' E.
  destruct (publish_eq env cmd w)
    as (o1 & w1 & d & lg & E1 & U & T & _).
  rewrite E1 in E. injection E as <- <-.
  split; [|apply U].
  apply extends_quietly with (evs := publish_events cmd d lg);
    [split; assumption|apply saved_publish_events].
Qed.

Lemma still_sleep (seconds : Q) : still (asyncio_sleep env seconds).
Proof.
  intros w o w' E.
  destruct (sleep_ok env seconds w) as (w1 & E1 & X).
  rewrite E1 in E. injection E as <- <-.
  split; [|apply X]. eapply extends_quietly; [exact X|reflexivity].
Qed.

Lemma still_stop : still (async_stop_cover env).
Proof.
  unfold async_stop_cover.
  repeat first
    [ apply still_publish
    | apply still_set_opening
    | apply still_set_closing
    | apply still_write_ha_state
    | apply still_bind; [|intros ?] ].
Qed.

Lemma silent_loop (fuel : nat) (l : Locals) :
  silent (sampling_loop env fuel l).
Proof.
  intros w o w' E.
  destruct (sampling_loop_frame env fuel l w o w' E)
    as (_ & _ & D & evs & T & S).
  exists evs. auto.
Qed.

Lemma still_start_movement (kwargs_position : option Z) :
  still (start_movement env self kwargs_position).
Proof.
  unfold start_movement, time_monotonic.
  apply still_bind; [apply still_gets|intros [q|]].
  - repeat first
      [ apply still_publish
      | apply still_set_opening
      | apply still_set_closing
      | apply still_gets
      | apply still_ret
      | apply still_bind; [|intros ?] ].
  - apply still_bind; [apply still_gets|intros ?; apply still_raise].
Qed.

(** [async_save] of the entry of the cover at its current position. *)
Lemma saving_save :
  saving self
    (bind (gets Sequential._attr_current_cover_position)
       (fun current => async_save env {[ unique_id self := current ]})).
Proof.
  intros w o w' E. unfold bind, gets in E. cbn in E.
  destruct (Sequential._store w) eqn:S.
  - destruct (save_eq env
                {[ unique_id self
                   := Sequential._attr_current_cover_position w ]} w S)
      as (o1 & w1 & E1 & P & _ & _ & _ & O).
    rewrite E1 in E. injection E as <- <-.
    destruct O as [(-> & D & T)|(-> & D & T & _)].
    + exists [EvSave {[ unique_id self
                        := Sequential._attr_current_cover_position w ]}].
      rewrite P. auto.
    + exists []. rewrite T. split; [symmetry; apply app_nil_r|auto].
  - rewrite (save_without_store env _ w S) in E. injection E as <- <-.
    apply quietly_refl.
Qed.

Lemma saving_critical_section (fuel : nat) (kwargs_position : option Z) :
  saving self (critical_section env self fuel kwargs_position).
Proof.
  unfold critical_section.
  apply saving_bind; [apply still_silent, still_start_movement|intros l].
  apply saving_bind; [apply silent_loop|intros _].
  apply saving_save.
Qed.

(** The lock does not show in the trace or in the document. *)
Lemma saving_with_lock {A : Type} (body : M A) :
  saving self body -> saving self (async_with_lock body).
Proof.
  intros H w o w' E.
  destruct (Sequential._lock w) eqn:L.
  - rewrite (with_lock_busy _ _ L) in E. injection E as <- <-.
    apply quietly_refl.
  - rewrite (with_lock_free _ _ L) in E. unfold try_finally, modify in E.
    destruct (body (upd_lock true w)) as [[a|e| |] w1] eqn:B;
      injection E as <- <-; exact (H _ _ _ B).
Qed.

Lemma persisting_set_cover_position (fuel : nat)
    (kwargs_position : option Z) :
  persisting self (async_set_cover_position env self fuel kwargs_position).
Proof.
  intros w o w' E. unfold async_set_cover_position, bind in E.
  destruct (async_stop_cover env w) as [o1 w1] eqn:E1.
  destruct (still_stop _ _ _ E1) as [Q1 _].
  assert (R : forall o2 w2, (o2, w2) = (o, w') ->
              match o2 with Returned _ => False | _ => True end ->
              quietly w w2 ->
              match o with
              | Returned _ => wrote_own_entry self w w'
              | _ => quietly w w' \/ wrote_own_entry self w w'
              end).
  { intros o2 w2 H N Q. injection H as <- <-.
    destruct o2; [destruct N|..]; left; exact Q. }
  destruct o1 as [[]|e| |]; try (eapply R; [exact E|exact I|exact Q1]).
  clear R. unfold try_finally in E.
  destruct (async_with_lock (critical_section env self fuel kwargs_position)
              w1) as [o2 w2] eqn:E2.
  pose proof (saving_with_lock _ (saving_critical_section _ _) _ _ _ E2)
    as H2.
  destruct o2 as [[]|e| |].
  - destruct (async_stop_cover env w2) as [o3 w3] eqn:E3.
    destruct (still_stop _ _ _ E3) as [Q3 P3].
    assert (W : wrote_own_entry self w w3).
    { eapply quietly_then_wrote; [exact Q1|].
      eapply wrote_then_quietly; eauto. }
    destruct o3 as [[]|e| |]; injection E as <- <-; auto.
  - destruct (async_stop_cover env w2) as [o3 w3] eqn:E3.
    destruct (still_stop _ _ _ E3) as [Q3 _].
    assert (W : quietly w w3)
      by (eapply quietly_trans; [exact Q1|eapply quietly_trans; eauto]).
    destruct o3 as [[]|e'| |]; injection E as <- <-; auto.
  - injection E as <- <-. left. eapply quietly_trans; eauto.
  - injection E as <- <-. left. eapply quietly_trans; eauto.
Qed.

Lemma saving_calibrate : saving self (async_calibrate env self).
Proof.
  unfold async_calibrate. apply saving_with_lock.
  repeat (apply saving_bind;
          [first [ apply still_silent, still_set_opening
                 | apply still_silent, still_set_closing
                 | apply still_silent, still_publish
                 | apply still_silent, still_sleep
                 | apply silent_set_position ]
          |intros ?]).
  intros w o w' E. unfold bind, gets in E. cbn in E.
  destruct (async_save env _ w) as [o1 w1] eqn:E1.
  pose proof (saving_save w o1 w1) as H. unfold bind, gets in H.
  specialize (H E1).
  destruct o1 as [[]|e| |]; try (injection E as <- <-; exact H).
  destruct (still_write_ha_state _ _ _ E) as [Q P].
  assert (o = Returned tt) as ->.
  { unfold async_write_ha_state, emit, modify in E. congruence. }
  eapply wrote_then_quietly; eauto.
Qed.

End Persistence.

Lemma quietly_store_effect (self : MQTTRelayCover) (other : string)
    (w w' : World) (o : Outcome unit) :
  quietly w w' ->
  match o with Returned _ => False | _ => True end ->
  store_effect self other w o w'.
Proof.
  intros (evs & T & S & D) N. exists evs. split; [exact T|].
  split; [left; auto|]. destruct o; [destruct N|..]; exact I.
Qed.

Lemma wrote_store_effect (self : MQTTRelayCover) (other : string)
    (w w' : World) (o : Outcome unit) :
  wrote_own_entry self w w' ->
  other <> unique_id self ->
  store_effect self other w o w'.
Proof.
  intros (evs & T & S & D) N. exists evs. split; [exact T|].
  split.
  - right. split; [exact S|]. split; [exact D|].
    rewrite D. cbn. apply lookup_singleton_ne. congruence.
  - destruct o; [rewrite S; discriminate|..]; exact I.
Qed.

(** C10.  Whatever the environment and the outcome, a run of
    [async_set_cover_position] or of [async_calibrate] saves nothing or
    saves once, and what it saves is the document with the single entry
    of this cover at its position: it is then the whole document, and no
    [other] identifier has an entry in it, whatever the document held
    before.  A run that returns has saved. *)
Theorem persistence_write_keeps_only_own_entry
    (env : Env) (self : MQTTRelayCover) (fuel : nat)
    (kwargs_position : option Z) (other : string)
    (w : World) (o : Outcome unit) (w' : World) :
  async_set_cover_position env self fuel kwargs_position w = (o, w')
  \/ async_calibrate env self w = (o, w') ->
  other <> unique_id self ->
  exists evs,
    trace w' = trace w ++ evs
    /\ ((saved (outline evs) = []
         /\ Sequential.document w' = Sequential.document w)
        \/ (saved (outline evs)
            = [{[ unique_id self
                  := Sequential._attr_current_cover_position w' ]}]
            /\ Sequential.document w'
               = Some {[ unique_id self
                         := Sequential._attr_current_cover_position w' ]}
            /\ Sequential.document w' ≫= (fun data => data !! other) = None))
    /\ match o with
       | Returned _ => saved (outline evs) <> []
       | _ => True
       end.
Proof.
  intros [E|E] N.
  - pose proof (persisting_set_cover_position env self fuel
                  kwargs_position w o w' E) as H.
    change (store_effect self other w o w').
    destruct o as [[]|e| |];
      try (destruct H as [H|H];
           [apply quietly_store_effect; [exact H|exact I]|]);
      apply wrote_store_effect; assumption.
  - pose proof (saving_calibrate env self w o w' E) as H.
    change (store_effect self other w o w').
    destruct o as [[]|e| |];
      try (apply quietly_store_effect; [exact H|exact I]).
    apply wrote_store_effect; assumption.
Qed.

Lemma persistence_write_keeps_only_own_entry_witness :
  (async_set_cover_position quiet_env ten_second_cover 5 (Some 12%Z)
     shared_store_world
   = (Returned tt, shared_store_world_after_move)
   \/ async_calibrate quiet_env ten_second_cover shared_store_world
      = (Returned tt, shared_store_world_after_move))
  /\ "shutter"%string <> unique_id ten_second_cover
  /\ exists evs,
       trace shared_store_world_after_move
       = trace shared_store_world ++ evs
       /\ ((saved (outline evs) = []
            /\ Sequential.document shared_store_world_after_move
               = Sequential.document shared_store_world)
           \/ (saved (outline evs)
               = [{[ unique_id ten_second_cover
                     := Sequential._attr_current_cover_position
                          shared_store_world_after_move ]}]
               /\ Sequential.document shared_store_world_after_move
                  = Some {[ unique_id ten_second_cover
                            := Sequential._attr_current_cover_position
                                 shared_store_world_after_move ]}
               /\ Sequential.document shared_store_world_after_move
                  ≫= (fun data => data !! "shutter"%string) = None))
       /\ saved (outline evs) <> [].
Proof.
  split; [left; vm_compute; reflexivity|].
  split; [discriminate|].
  apply (persistence_write_keeps_only_own_entry quiet_env ten_second_cover
           5 (Some 12%Z) "shutter"%string shared_store_world (Returned tt)
           shared_store_world_after_move).
  - left. vm_compute. reflexivity.
  - discriminate.
Defined.

(** Before the move the store held the position of the other cover. *)
Example shared_store_world_held_the_other_cover :
  Sequential.document shared_store_world
  ≫= (fun data => data !! "shutter"%string) = Some (Some 70).
Proof. reflexivity. Qed.

(** ** Termination of the loop *)

Lemma sampling_bound_covers (d : Q) :
  d <= inject_Z (Z.of_nat (sampling_bound d)) * (1 # 10).
Proof.
  unfold sampling_bound.
  pose proof (Qle_ceiling (d * 10)) as H.
  assert (inject_Z (Qceiling (d * 10))
          <= inject_Z (Z.of_nat (Z.to_nat (Qceiling (d * 10))))) as H'.
  { rewrite <- Zle_Qle. lia. }
  lra.
Qed.

Lemma enough_fuel_covers (self : MQTTRelayCover) (direction : bool) :
  movement_time_of self direction
  <= inject_Z (Z.of_nat (enough_fuel self)) * (1 # 10).
Proof.
  pose proof (sampling_bound_covers (movement_time_of self direction)) as H.
  assert (inject_Z (Z.of_nat (sampling_bound
                                (movement_time_of self direction)))
          <= inject_Z (Z.of_nat (enough_fuel self))) as H'.
  { apply inject_Z_of_nat_le. unfold enough_fuel.
    destruct direction; cbn; lia. }
  lra.
Qed.

Section Termination.

Variable env : Env.
Variable self : MQTTRelayCover.
Hypothesis monotonic : forall n, 0 <= latency env n.

(** With [k] ticks of budget left at the check of the condition, [k]
    passes of fuel are enough. *)
Lemma sampling_loop_finishes (l : Locals) (k : nat) :
  forall (fuel : nat) (w : World),
    (k <= fuel)%nat ->
    start_moving_time l + movement_time l - Sequential.clock w
    <= inject_Z (Z.of_nat k) * (1 # 10) ->
    finished (fst (sampling_loop env fuel l w)).
Proof.
  induction k as [|k IH]; intros fuel w Hf Hb.
  - rewrite sampling_loop_exit; [exact I|].
    apply loop_condition_out_of_budget.
    change (inject_Z (Z.of_nat 0)) with 0 in Hb. lra.
  - destruct (loop_condition_cases (target_position l) (start_moving_time l)
                (movement_time l) (Sequential.clock w) w) as [[[|] C]|C].
    + destruct fuel as [|fuel]; [lia|].
      destruct (sleep_eq env _CHECK_INTERVAL w)
        as (w1 & E & _ & _ & C1 & _).
      rewrite (sampling_loop_pass env fuel l w w1 C E).
      destruct (Qeq_bool (movement_time l) 0); [exact I|].
      apply IH; [lia|]. cbn. rewrite C1.
      pose proof (monotonic (awaited w)) as M.
      pose proof (inject_Z_of_nat_succ k) as HS.
      change _CHECK_INTERVAL with (1 # 10). lra.
    + rewrite (sampling_loop_exit env fuel l w C). exact I.
    + rewrite (sampling_loop_raise env fuel l w _ C). exact I.
Qed.

Lemma publish_finishes (cmd : Command) (w : World) :
  finished (fst (__async_publish env cmd w))
  /\ Sequential.clock w <= Sequential.clock (snd (__async_publish env cmd w))
  /\ Sequential._store (snd (__async_publish env cmd w))
     = Sequential._store w
  /\ Sequential._lock (snd (__async_publish env cmd w))
     = Sequential._lock w.
Proof.
  destruct (publish_eq env cmd w)
    as (o & w' & d & lg & E & U & _ & O & _ & C & _).
  rewrite E. cbn. split; [|split; [auto|split; apply U]].
  destruct O as [[-> _]|[-> _]]; exact I.
Qed.

Lemma start_movement_finishes (kwargs_position : option Z) (w : World) :
  exists o w',
    start_movement env self kwargs_position w = (o, w')
    /\ match o with
       | Returned l =>
           start_moving_time l = Sequential.clock w
           /\ movement_time l
              = movement_time_of self (is_opening_direction l)
           /\ Sequential.clock w <= Sequential.clock w'
       | Raised _ => True
       | LockBusy | OutOfFuel => False
       end.
Proof.
  unfold start_movement, time_monotonic, set_opening, set_closing, bind,
    gets, modify, ret, raise. cbn.
  destruct (Sequential._attr_current_cover_position w) as [q|]; cbn.
  - match goal with
    | |- context [__async_publish env ?c ?w0] =>
        destruct (publish_finishes c w0) as (F & C & _);
        destruct (__async_publish env c w0) as [[[]|e| |] w1]
    end; cbn in *; try destruct F;
      (eexists _, _; split; [reflexivity|]; cbn; auto).
  - eexists _, _; split; [reflexivity|]; exact I.
Qed.

Lemma save_finishes (data : gmap string (option Q)) (w : World) :
  finished (fst (async_save env data w)).
Proof.
  destruct (Sequential._store w) eqn:S.
  - destruct (save_eq env data w S) as (o & w' & E & _ & _ & _ & _ & O).
    rewrite E. destruct O as [[-> _]|[-> _]]; exact I.
  - rewrite (save_without_store env data w S). exact I.
Qed.

Lemma critical_section_finishes (fuel : nat) (kwargs_position : option Z)
    (w : World) :
  (enough_fuel self <= fuel)%nat ->
  finished (fst (critical_section env self fuel kwargs_position w)).
Proof.
  intros Hf. unfold critical_section.
  destruct (start_movement_finishes kwargs_position w)
    as (o & w1 & E & H).
  destruct o as [l|e| |]; [| |destruct H|destruct H].
  - destruct H as (Hs & Hm & Hc).
    rewrite (bind_step _ _ _ _ _ E).
    pose proof (sampling_loop_finishes l (enough_fuel self) fuel w1 Hf)
      as F.
    unfold bind. destruct (sampling_loop env fuel l w1) as [[now|e| |] w2];
      cbn in *; try exact I.
    + apply save_finishes.
    + apply F. rewrite Hs, Hm.
      pose proof (enough_fuel_covers self (is_opening_direction l)). lra.
    + apply F. rewrite Hs, Hm.
      pose proof (enough_fuel_covers self (is_opening_direction l)). lra.
  - rewrite (bind_raised _ _ _ _ _ E). exact I.
Qed.

End Termination.

(** ** The last act of [async_set_cover_position] *)

Lemma saving_grows (self : MQTTRelayCover) {A : Type} (m : M A)
    (w : World) (o : Outcome A) (w' : World) :
  saving self m -> m w = (o, w') -> exists evs, trace w' = trace w ++ evs.
Proof.
  intros H E. specialize (H w o w' E).
  destruct o; destruct H as (evs & T & _); eauto.
Qed.

(** An invocation of [async_set_cover_position] that runs alone and
    finds the lock free, for every target, on a monotonic clock, with
    enough fuel, in every environment of [Env] (the flags may be cleared
    from outside at any suspension point, MQTT may be missing, a publish
    or the save may raise, the position or the store may be unset): it
    comes to an end, by a return or by an exception; the last thing it
    asked for is the publish of STOP, followed at most by the
    announcement of the state, so that STOP comes after every pass of the
    loop; at that end both direction flags are false and the lock is
    free. *)
Lemma lone_set_cover_position_ends_with_stop
    (env : Env) (self : MQTTRelayCover) (fuel : nat)
    (kwargs_position : option Z) (w : World) :
  (forall n, 0 <= latency env n) ->
  Sequential._lock w = false ->
  (enough_fuel self <= fuel)%nat ->
  exists o w' before d logged after,
    async_set_cover_position env self fuel kwargs_position w = (o, w')
    /\ finished o
    /\ Sequential._attr_is_opening w' = false
    /\ Sequential._attr_is_closing w' = false
    /\ Sequential._lock w' = false
    /\ trace w' = trace w ++ before ++ publish_events STOP d logged ++ after
    /\ (after = []
        \/ after
           = [EvWriteState false false
                (Sequential._attr_current_cover_position w')]).
Proof.
  intros Mono L Hf.
  destruct (stop_eq env w)
    as (o1 & w1 & d1 & lg1 & E1 & Fo1 & Fc1 & P1 & _ & L1 & _ & O1 & _).
  rewrite L in L1.
  destruct O1 as [(-> & _ & T1)|(-> & _ & _ & T1)].
  2:{ exists (Raised ExternalError), w1, [], d1, lg1, [].
      split; [unfold async_set_cover_position;
              apply (bind_raised _ _ _ _ _ E1)|].
      split; [exact I|].
      split; [exact Fo1|]. split; [exact Fc1|]. split; [exact L1|].
      split; [cbn; rewrite app_nil_r; exact T1|left; reflexivity]. }
  destruct (critical_section env self fuel kwargs_position
              (upd_lock true w1)) as [oc wc] eqn:Ec.
  pose proof (critical_section_finishes env self Mono fuel kwargs_position
                (upd_lock true w1) Hf) as Fc.
  rewrite Ec in Fc. cbn in Fc.
  destruct (saving_grows self _ _ _ _
              (saving_critical_section env self fuel kwargs_position) Ec)
    as (evs & Tc).
  cbn in Tc.
  destruct (stop_eq env (upd_lock false wc))
    as (o3 & w3 & d3 & lg3 & E3 & Fo3 & Fc3 & P3 & _ & L3 & _ & O3 & _).
  cbn in L3, P3, O3.
  assert (Hbody : async_with_lock
                    (critical_section env self fuel kwargs_position) w1
                  = (oc, upd_lock false wc)).
  { rewrite (with_lock_free _ _ L1). unfold try_finally, modify.
    rewrite Ec. destruct oc; try reflexivity; destruct Fc. }
  assert (Hall : exists o,
             async_set_cover_position env self fuel kwargs_position w
             = (o, w3) /\ finished o).
  { unfold async_set_cover_position. rewrite (bind_step _ _ _ _ _ E1).
    unfold try_finally. rewrite Hbody, E3.
    destruct oc as [[]|e| |]; try destruct Fc;
      destruct O3 as [(-> & _)|(-> & _)]; eexists; split;
        try reflexivity; exact I. }
  destruct Hall as (o & E & F).
  assert (T3 : exists after,
             trace w3 = trace wc ++ publish_events STOP d3 lg3 ++ after
             /\ (after = []
                 \/ after
                    = [EvWriteState false false
                         (Sequential._attr_current_cover_position w3)])).
  { destruct O3 as [(_ & _ & T)|(_ & _ & _ & T)].
    - eexists. split; [exact T|]. right. rewrite P3. reflexivity.
    - exists []. rewrite app_nil_r. auto. }
  destruct T3 as (after & T3 & Ha).
  exists o, w3,
    (publish_events STOP d1 lg1
     ++ [EvWriteState false false
           (Sequential._attr_current_cover_position w)] ++ evs),
    d3, lg3, after.
  split; [exact E|]. split; [exact F|].
  split; [exact Fo3|]. split; [exact Fc3|]. split; [exact L3|].
  split; [|exact Ha].
  rewrite T3, Tc, T1, <- !app_assoc. reflexivity.
Qed.

(** ** Several invocations *)

Lemma progress_nonneg (l : Locals) (now : Q) :
  start_moving_time l <= now ->
  now < start_moving_time l + movement_time l ->
  0 <= progress_at l now.
Proof.
  intros H1 H2. unfold progress_at.
  apply Qmult_le_0_compat; [|discriminate].
  apply Qle_shift_div_l; lra.
Qed.

Lemma next_position_range (direction : bool) (initial progress : Q)
    (target : Z) :
  0 <= initial <= 100 ->
  (0 <= target <= 100)%Z ->
  0 <= progress ->
  0 <= next_position direction initial progress target <= 100.
Proof.
  intros Hi Ht Hp.
  assert (0 <= inject_Z target <= 100) as HT.
  { split; [change 0 with (inject_Z 0)|change 100 with (inject_Z 100)];
      rewrite <- Zle_Qle; lia. }
  unfold next_position. destruct direction.
  - split.
    + apply Q.min_glb; lra.
    + eapply Qle_trans; [apply Q.le_min_r|lra].
  - split.
    + eapply Qle_trans; [|apply Q.le_max_r]. lra.
    + apply Q.max_lub; lra.
Qed.

Lemma locals_ok_later (l : Locals) (t t' : Q) :
  t <= t' -> locals_ok l t -> locals_ok l t'.
Proof. intros H (A & B & C). repeat split; try tauto; lra. Qed.

Lemma pc_ok_later (pc : Concurrent.Pc) (t t' : Q) :
  t <= t' -> pc_ok t pc -> pc_ok t' pc.
Proof.
  intros H. destruct pc; cbn; try tauto.
  - apply locals_ok_later, H.
  - intros (A & B). split; [eapply locals_ok_later; eauto|exact B].
Qed.

Lemma leave_keeps (pc : Concurrent.Pc) (s0 s : Concurrent.Shared) :
  (exists q,
      Concurrent._attr_current_cover_position s = Some q /\ 0 <= q <= 100) ->
  Concurrent.clock s = Concurrent.clock s0 ->
  step_keeps pc s0 (fst (Concurrent.leave s)) (snd (Concurrent.leave s)).
Proof.
  intros P C. split; [exact P|]. split; [exact C|].
  split; [exact I|]. left. split; reflexivity.
Qed.

Lemma check_loop_keeps (self : MQTTRelayCover) (pc : Concurrent.Pc)
    (l : Locals) (s0 s : Concurrent.Shared) :
  (exists q,
      Concurrent._attr_current_cover_position s = Some q /\ 0 <= q <= 100) ->
  Concurrent.clock s = Concurrent.clock s0 ->
  locals_ok l (Concurrent.clock s) ->
  step_keeps pc s0 (fst (Concurrent.check_loop self l s))
    (snd (Concurrent.check_loop self l s)).
Proof.
  intros P C Hl. unfold Concurrent.check_loop.
  destruct (within_budget (Concurrent.clock s) (start_moving_time l)
              (movement_time l)) eqn:B.
  - destruct P as (q & Pq & Rq). rewrite Pq.
    destruct (target_pending _ _ q (target_position l)).
    + split; [eauto|]. split; [exact C|]. split; [|right; left; reflexivity].
      cbn. split; [exact Hl|]. split; [apply Hl|].
      apply Qltb_lt. exact B.
    + split; [eauto|]. split; [exact C|]. split; [exact I|].
      right. left. reflexivity.
  - split; [exact P|]. split; [exact C|]. split; [exact I|].
    right. left. reflexivity.
Qed.

Lemma step_task_keeps (self : MQTTRelayCover) (r : Concurrent.Request)
    (pc pc' : Concurrent.Pc) (s s' : Concurrent.Shared) :
  (exists q,
      Concurrent._attr_current_cover_position s = Some q /\ 0 <= q <= 100) ->
  pc_ok (Concurrent.clock s) pc ->
  Concurrent.step_task self r pc s = Some (pc', s') ->
  step_keeps pc s pc' s'.
Proof.
  intros P Hpc E.
  assert (Plain : forall s1 : Concurrent.Shared,
             Concurrent._attr_current_cover_position s1
             = Concurrent._attr_current_cover_position s ->
             exists q,
               Concurrent._attr_current_cover_position s1 = Some q
               /\ 0 <= q <= 100).
  { intros s1 ->. exact P. }
  destruct pc; cbn in E.
  - (* NotStarted *)
    unfold Concurrent.begin in E.
    destruct r; try destruct (Concurrent._lock s); inversion E; subst;
      (split; [apply Plain; reflexivity|]; split; [reflexivity|];
       split; [exact I|]; left; split; reflexivity).
  - (* InFirstStop *)
    inversion E; subst. split; [exact P|]. split; [reflexivity|].
    split; [exact I|]. right. right. auto.
  - (* AtLock *)
    destruct (Concurrent._lock s); [discriminate|]. inversion E as [E'].
    unfold Concurrent.enter in *. cbn in *.
    destruct P as (q & Pq & Rq). rewrite Pq in *. inversion E'; subst.
    split; [exists q; auto|]. split; [reflexivity|].
    split; [|right; left; reflexivity].
    cbn. split; [exact Rq|]. split; [apply clamp_target_range|].
    apply Qle_refl.
  - (* InMovePublish *)
    inversion E as [E'].
    pose proof (check_loop_keeps self (Concurrent.InMovePublish l) l s s P
                  eq_refl Hpc) as K.
    rewrite E' in K. exact K.
  - (* InSleep *)
    destruct (Qle_bool wake (Concurrent.clock s)); [|discriminate].
    inversion E as [E']. unfold Concurrent.loop_body in E'.
    destruct Hpc as (Hl & Hs & Hb).
    destruct (Qeq_bool (movement_time l) 0).
    + pose proof (leave_keeps (Concurrent.InSleep l now wake) s s P eq_refl)
        as K.
      rewrite E' in K. exact K.
    + match type of E' with
      | Concurrent.check_loop self l ?s1 = _ =>
          pose proof (check_loop_keeps self (Concurrent.InSleep l now wake)
                        l s s1) as K
      end.
      rewrite E' in K. apply K; [|reflexivity|exact Hl].
      eexists. split; [reflexivity|].
      apply next_position_range; [apply Hl|apply Hl|].
      apply progress_nonneg; assumption.
  - (* InSave *)
    inversion E; subst. split; [apply Plain; reflexivity|].
    split; [reflexivity|]. split; [exact I|]. left. split; reflexivity.
  - (* InFinalStop *)
    inversion E; subst. split; [exact P|]. split; [reflexivity|].
    split; [exact I|]. right. right. auto.
  - (* InStop *)
    inversion E; subst. split; [exact P|]. split; [reflexivity|].
    split; [exact I|]. right. right. auto.
  - (* InCalPublish *)
    inversion E; subst. split; [exact P|]. split; [reflexivity|].
    split; [exact I|]. right. right. auto.
  - (* InCalSleep *)
    destruct (Qle_bool wake (Concurrent.clock s)); [|discriminate].
    destruct (Concurrent.next_stage st); inversion E; subst.
    + split; [exact P|]. split; [reflexivity|].
      split; [exact I|]. right. right. auto.
    + split; [exists 0; split; [reflexivity|split; discriminate]|].
      split; [reflexivity|]. split; [exact I|]. right. right. auto.
  - (* InCalSave *)
    inversion E; subst. split; [apply Plain; reflexivity|].
    split; [reflexivity|]. split; [exact I|]. right. right. auto.
  - (* Done *)
    discriminate E.
Qed.

Lemma fail_task_keeps (pc pc' : Concurrent.Pc) (s s' : Concurrent.Shared) :
  (exists q,
      Concurrent._attr_current_cover_position s = Some q /\ 0 <= q <= 100) ->
  Concurrent.fail_task pc s = Some (pc', s') ->
  step_keeps pc s pc' s'.
Proof.
  intros P E.
  destruct pc; cbn in E; try discriminate E; inversion E; subst;
    try (apply (leave_keeps _ s s P eq_refl));
    (split; [exact P|]; split; [reflexivity|]; split; [exact I|];
     right; right; auto).
Qed.

Lemma update_invariant (m : Concurrent.Machine) (i : nat)
    (r : Concurrent.Request) (pc pc' : Concurrent.Pc)
    (s' : Concurrent.Shared) :
  invariant m ->
  Concurrent.tasks m !! i = Some (r, pc) ->
  step_keeps pc (Concurrent.shared m) pc' s' ->
  invariant
    {| Concurrent.shared := s';
       Concurrent.tasks := <[ i := (r, pc') ]> (Concurrent.tasks m) |}.
Proof.
  intros (P & T & F) Li (P' & C' & K' & F').
  unfold invariant. cbn [Concurrent.shared Concurrent.tasks].
  assert (Hi : (i < length (Concurrent.tasks m))%nat)
    by (eapply lookup_lt_Some; eauto).
  split; [exact P'|]. split.
  - intros j r0 pc0 Lj.
    destruct (decide (i = j)) as [->|N].
    + rewrite list_lookup_insert_eq in Lj by exact Hi.
      inversion Lj; subst. exact K'.
    + rewrite list_lookup_insert_ne in Lj by exact N.
      rewrite C'. eapply T; eauto.
  - intros Hf.
    destruct F' as [[Fo Fc]|[Mv|(Fo & Fc & Mv)]].
    + rewrite Fo, Fc in Hf. discriminate Hf.
    + exists i, r, pc'. split; [|exact Mv].
      apply list_lookup_insert_eq. exact Hi.
    + rewrite Fo, Fc in Hf. destruct (F Hf) as (j & rj & pcj & Lj & Mj).
      exists j, rj, pcj. split; [|exact Mj].
      rewrite list_lookup_insert_ne; [exact Lj|].
      intros ->. rewrite Li in Lj. inversion Lj; subst. congruence.
Qed.

Lemma step_invariant (self : MQTTRelayCover) (m m' : Concurrent.Machine)
    (a : Concurrent.Action) :
  invariant m -> Concurrent.step self m a = Some m' -> invariant m'.
Proof.
  intros Inv E. destruct a as [i|d|i]; cbn in E.
  - destruct (Concurrent.tasks m !! i) as [[r pc]|] eqn:Li;
      [|discriminate].
    destruct (Concurrent.step_task self r pc (Concurrent.shared m))
      as [[pc' s']|] eqn:Es; [|discriminate].
    inversion E; subst m'; clear E.
    apply (update_invariant m i r pc pc' s' Inv Li).
    destruct Inv as (P & T & _).
    exact (step_task_keeps self r pc pc' _ s' P (T _ _ _ Li) Es).
  - destruct Inv as (P & T & F).
    destruct (Qle_bool 0 d) eqn:D; [|discriminate].
    apply Qle_bool_iff in D. inversion E; subst m'; clear E.
    split; [exact P|]. split; [|exact F].
    intros j r pc Lj. cbn in Lj |- *.
    apply pc_ok_later with (t := Concurrent.clock (Concurrent.shared m));
      [|eapply T; eauto].
    set (c := Concurrent.clock (Concurrent.shared m)). lra.
  - destruct (Concurrent.tasks m !! i) as [[r pc]|] eqn:Li;
      [|discriminate].
    destruct (Concurrent.fail_task pc (Concurrent.shared m))
      as [[pc' s']|] eqn:Es; [|discriminate].
    inversion E; subst m'; clear E.
    apply (update_invariant m i r pc pc' s' Inv Li).
    destruct Inv as (P & _ & _).
    exact (fail_task_keeps pc pc' _ s' P Es).
Qed.

Lemma exec_invariant (self : MQTTRelayCover)
    (schedule : list Concurrent.Action) :
  forall m m',
    invariant m -> Concurrent.exec self schedule m = Some m' -> invariant m'.
Proof.
  induction schedule as [|a schedule IH]; intros m m' Inv E; cbn in E.
  - inversion E; subst. exact Inv.
  - destruct (Concurrent.step self m a) as [m1|] eqn:S; [|discriminate].
    eapply IH; [|exact E]. eapply step_invariant; eauto.
Qed.

Lemma boot_invariant (self : MQTTRelayCover) (p t : Q)
    (requests : list Concurrent.Request) :
  0 <= p <= 100 -> invariant (Concurrent.boot self p t requests).
Proof.
  intros R. split; [exists p; auto|]. split.
  - intros j r pc L. cbn in L. rewrite list_lookup_fmap in L.
    destruct (requests !! j); inversion L; subst. exact I.
  - cbn. discriminate.
Qed.

Lemma all_done_not_moving (m : Concurrent.Machine) (j : nat)
    (r : Concurrent.Request) (pc : Concurrent.Pc) :
  Concurrent.all_done m = true ->
  Concurrent.tasks m !! j = Some (r, pc) ->
  moving pc = false.
Proof.
  unfold Concurrent.all_done. intros H L.
  rewrite forallb_forall in H.
  specialize (H (r, pc)). cbn in H.
  assert (In (r, pc) (Concurrent.tasks m)) as Hin.
  { apply list_elem_of_In. eapply list_elem_of_lookup_2; eauto. }
  specialize (H Hin). destruct pc; try discriminate H. reflexivity.
Qed.

(** C2.  The cover starts at a position in [0,100] with both flags false
    and any requests pending (moves to any targets, opens, closes, stops,
    calibrations, in any number), and the event loop runs any schedule:
    it resumes tasks in any order at their suspension points, with the
    awaited publish or save returning or raising, and lets time pass.
    In every state that a schedule reaches, hence at every
    exit of a loop and every return, the position is a number in
    [0,100]; and in a state in which every task has returned, both
    direction flags are false. *)
Theorem position_in_range_and_idle_at_the_end
    (self : MQTTRelayCover) (p t : Q)
    (requests : list Concurrent.Request)
    (schedule : list Concurrent.Action) (m : Concurrent.Machine) :
  0 <= p <= 100 ->
  Concurrent.exec self schedule (Concurrent.boot self p t requests)
  = Some m ->
  (exists q,
      Concurrent._attr_current_cover_position (Concurrent.shared m) = Some q
      /\ 0 <= q <= 100)
  /\ (Concurrent.all_done m = true ->
      Concurrent._attr_is_opening (Concurrent.shared m) = false
      /\ Concurrent._attr_is_closing (Concurrent.shared m) = false).
Proof.
  intros R E.
  destruct (exec_invariant self schedule _ _
              (boot_invariant self p t requests R) E) as (P & _ & F).
  split; [exact P|]. intros D.
  destruct (Concurrent._attr_is_opening (Concurrent.shared m)
            || Concurrent._attr_is_closing (Concurrent.shared m)) eqn:Fl.
  - destruct (F eq_refl) as (j & r & pc & L & Mv).
    rewrite (all_done_not_moving m j r pc D L) in Mv. discriminate Mv.
  - apply orb_false_iff in Fl. exact Fl.
Qed.

Lemma position_in_range_and_idle_at_the_end_witness :
  0 <= 0 <= 100
  /\ Concurrent.exec one_second_cover overlapping_schedule
       (Concurrent.boot one_second_cover 0 0 overlapping_moves)
     = Some (machine_after one_second_cover overlapping_schedule
               (Concurrent.boot one_second_cover 0 0 overlapping_moves))
  /\ (exists q,
        Concurrent._attr_current_cover_position
          (Concurrent.shared
             (machine_after one_second_cover overlapping_schedule
                (Concurrent.boot one_second_cover 0 0 overlapping_moves)))
        = Some q
        /\ 0 <= q <= 100)
  /\ (Concurrent.all_done
        (machine_after one_second_cover overlapping_schedule
           (Concurrent.boot one_second_cover 0 0 overlapping_moves))
      = true ->
      Concurrent._attr_is_opening
        (Concurrent.shared
           (machine_after one_second_cover overlapping_schedule
              (Concurrent.boot one_second_cover 0 0 overlapping_moves)))
      = false
      /\ Concurrent._attr_is_closing
           (Concurrent.shared
              (machine_after one_second_cover overlapping_schedule
                 (Concurrent.boot one_second_cover 0 0 overlapping_moves)))
         = false).
Proof.
  split; [split; discriminate|].
  split; [vm_compute; reflexivity|].
  apply (position_in_range_and_idle_at_the_end one_second_cover 0 0
           overlapping_moves overlapping_schedule
           (machine_after one_second_cover overlapping_schedule
              (Concurrent.boot one_second_cover 0 0 overlapping_moves))).
  - split; discriminate.
  - vm_compute. reflexivity.
Defined.

(** The schedule of the witness runs both moves to their end, and the
    cover then rests at 50, the target of the move that came last. *)
Example overlapping_schedule_runs_to_the_end :
  Concurrent.all_done
    (machine_after one_second_cover overlapping_schedule
       (Concurrent.boot one_second_cover 0 0 overlapping_moves)) = true
  /\ exists q,
       Concurrent._attr_current_cover_position
         (Concurrent.shared
            (machine_after one_second_cover overlapping_schedule
               (Concurrent.boot one_second_cover 0 0 overlapping_moves)))
       = Some q
       /\ q == 50.
Proof.
  split; [vm_compute; reflexivity|].
  eexists. split; [vm_compute; reflexivity|]. reflexivity.
Qed.

(** ** The end of a movement among other invocations *)

Ltac split_step E :=
  repeat match type of E with
    | context [match ?r with
               | Concurrent.SetPosition _ => _
               | _ => _
               end] => destruct r
    | context [match Concurrent.next_stage ?st with _ => _ end] =>
        destruct (Concurrent.next_stage st)
    | context [if ?b then _ else _] => destruct b eqn:?
    | context [match ?p with Some _ => _ | None => _ end] =>
        destruct p eqn:?
    end.

Lemma step_task_flags (self : MQTTRelayCover) (r : Concurrent.Request)
    (pc pc' : Concurrent.Pc) (s s' : Concurrent.Shared) :
  Concurrent.step_task self r pc s = Some (pc', s') ->
  flags_step pc s pc' s'.
Proof.
  intros E. unfold flags_step.
  destruct pc; cbn in E;
    unfold Concurrent.begin, Concurrent.enter, Concurrent.loop_body,
      Concurrent.check_loop, Concurrent.leave in E;
    split_step E; try discriminate; inversion E; subst; cbn;
    first [left; split; reflexivity
          |right; left; reflexivity
          |right; right; repeat split; reflexivity].
Qed.

Lemma fail_task_flags (pc pc' : Concurrent.Pc) (s s' : Concurrent.Shared) :
  Concurrent.fail_task pc s = Some (pc', s') -> flags_step pc s pc' s'.
Proof.
  intros E. unfold flags_step.
  destruct pc; cbn in E; try discriminate E; inversion E; subst; cbn;
    first [left; split; reflexivity
          |right; right; repeat split; reflexivity].
Qed.

Lemma step_task_on_track (self : MQTTRelayCover) (r : Concurrent.Request)
    (pc pc' : Concurrent.Pc) (s s' : Concurrent.Shared) :
  Concurrent.step_task self r pc s = Some (pc', s') ->
  on_track r pc = true -> on_track r pc' = true.
Proof.
  intros E H.
  destruct pc; cbn in E, H;
    unfold Concurrent.begin, Concurrent.enter, Concurrent.loop_body,
      Concurrent.check_loop, Concurrent.leave in E;
    split_step E; try discriminate; inversion E; subst; cbn;
    first [reflexivity|exact H].
Qed.

Lemma fail_task_on_track (r : Concurrent.Request)
    (pc pc' : Concurrent.Pc) (s s' : Concurrent.Shared) :
  Concurrent.fail_task pc s = Some (pc', s') ->
  on_track r pc = true -> on_track r pc' = true.
Proof.
  intros E H.
  destruct pc; cbn in E, H; try discriminate E; inversion E; subst; cbn;
    first [reflexivity|exact H].
Qed.

Lemma update_orderly (m : Concurrent.Machine) (i : nat)
    (r : Concurrent.Request) (pc pc' : Concurrent.Pc)
    (s' : Concurrent.Shared) :
  orderly m ->
  Concurrent.tasks m !! i = Some (r, pc) ->
  on_track r pc' = true ->
  flags_step pc (Concurrent.shared m) pc' s' ->
  orderly
    {| Concurrent.shared := s';
       Concurrent.tasks := <[ i := (r, pc') ]> (Concurrent.tasks m) |}.
Proof.
  intros [T F] Li Ht F'.
  assert (Hi : (i < length (Concurrent.tasks m))%nat)
    by (eapply lookup_lt_Some; eauto).
  unfold orderly. cbn [Concurrent.shared Concurrent.tasks]. split.
  - intros j r0 pc0 Lj.
    destruct (decide (i = j)) as [->|N].
    + rewrite list_lookup_insert_eq in Lj by exact Hi.
      inversion Lj; subst. exact Ht.
    + rewrite list_lookup_insert_ne in Lj by exact N. eapply T; eauto.
  - intros Hf.
    destruct F' as [[Fo Fc]|[Mv|(Fo & Fc & Mv)]].
    + rewrite Fo, Fc in Hf. discriminate Hf.
    + exists i, r, pc'. split; [|exact Mv].
      apply list_lookup_insert_eq. exact Hi.
    + rewrite Fo, Fc in Hf. destruct (F Hf) as (j & rj & pcj & Lj & Mj).
      exists j, rj, pcj. split; [|exact Mj].
      rewrite list_lookup_insert_ne; [exact Lj|].
      intros ->. rewrite Li in Lj. inversion Lj; subst. congruence.
Qed.

Lemma step_orderly (self : MQTTRelayCover) (m m' : Concurrent.Machine)
    (a : Concurrent.Action) :
  orderly m -> Concurrent.step self m a = Some m' -> orderly m'.
Proof.
  intros Or E. destruct a as [i|d|i]; cbn in E.
  - destruct (Concurrent.tasks m !! i) as [[r pc]|] eqn:Li;
      [|discriminate].
    destruct (Concurrent.step_task self r pc (Concurrent.shared m))
      as [[pc' s']|] eqn:Es; [|discriminate].
    inversion E; subst m'; clear E.
    apply (update_orderly m i r pc pc' s' Or Li).
    + apply (step_task_on_track self r pc pc' _ s' Es).
      destruct Or as [T _]. exact (T _ _ _ Li).
    + exact (step_task_flags self r pc pc' _ s' Es).
  - destruct (Qle_bool 0 d); [|discriminate].
    inversion E; subst m'; clear E. exact Or.
  - destruct (Concurrent.tasks m !! i) as [[r pc]|] eqn:Li;
      [|discriminate].
    destruct (Concurrent.fail_task pc (Concurrent.shared m))
      as [[pc' s']|] eqn:Es; [|discriminate].
    inversion E; subst m'; clear E.
    apply (update_orderly m i r pc pc' s' Or Li).
    + apply (fail_task_on_track r pc pc' _ s' Es).
      destruct Or as [T _]. exact (T _ _ _ Li).
    + exact (fail_task_flags pc pc' _ s' Es).
Qed.

Lemma exec_orderly (self : MQTTRelayCover)
    (schedule : list Concurrent.Action) :
  forall m m',
    orderly m -> Concurrent.exec self schedule m = Some m' -> orderly m'.
Proof.
  induction schedule as [|a schedule IH]; intros m m' Or E; cbn in E.
  - inversion E; subst. exact Or.
  - destruct (Concurrent.step self m a) as [m1|] eqn:S; [|discriminate].
    eapply IH; [|exact E]. eapply step_orderly; eauto.
Qed.

Lemma boot_orderly (self : MQTTRelayCover) (p t : Q)
    (requests : list Concurrent.Request) :
  orderly (Concurrent.boot self p t requests).
Proof.
  split.
  - intros j r pc L. cbn in L. rewrite list_lookup_fmap in L.
    destruct (requests !! j); inversion L; subst. reflexivity.
  - cbn. discriminate.
Qed.

(** What a step that takes a task to its return was. *)
Lemma return_step (self : MQTTRelayCover) (m m' : Concurrent.Machine)
    (a : Concurrent.Action) (i : nat) (r : Concurrent.Request)
    (pc : Concurrent.Pc) :
  Concurrent.step self m a = Some m' ->
  Concurrent.tasks m !! i = Some (r, pc) ->
  pc <> Concurrent.Done ->
  Concurrent.tasks m' !! i = Some (r, Concurrent.Done) ->
  (a = Concurrent.Resume i
   /\ exists s',
        Concurrent.step_task self r pc (Concurrent.shared m)
        = Some (Concurrent.Done, s')
        /\ Concurrent.shared m' = s')
  \/ (a = Concurrent.Fail i
      /\ exists s',
           Concurrent.fail_task pc (Concurrent.shared m)
           = Some (Concurrent.Done, s')
           /\ Concurrent.shared m' = s').
Proof.
  intros E Li N Li'.
  assert (Hi : (i < length (Concurrent.tasks m))%nat)
    by (eapply lookup_lt_Some; eauto).
  destruct a as [j|d|j]; cbn in E.
  - destruct (Concurrent.tasks m !! j) as [[rj pcj]|] eqn:Lj;
      [|discriminate].
    destruct (Concurrent.step_task self rj pcj (Concurrent.shared m))
      as [[pc' s']|] eqn:Es; [|discriminate].
    inversion E; subst m'; clear E. cbn in Li'.
    destruct (decide (j = i)) as [->|Nj].
    + rewrite list_lookup_insert_eq in Li' by exact Hi.
      rewrite Li in Lj. inversion Lj; subst. inversion Li'; subst.
      left. split; [reflexivity|]. exists s'. auto.
    + rewrite list_lookup_insert_ne in Li' by exact Nj.
      rewrite Li in Li'. inversion Li'. contradiction.
  - destruct (Qle_bool 0 d); [|discriminate].
    inversion E; subst m'; clear E. cbn in Li'.
    rewrite Li in Li'. inversion Li'. contradiction.
  - destruct (Concurrent.tasks m !! j) as [[rj pcj]|] eqn:Lj;
      [|discriminate].
    destruct (Concurrent.fail_task pcj (Concurrent.shared m))
      as [[pc' s']|] eqn:Es; [|discriminate].
    inversion E; subst m'; clear E. cbn in Li'.
    destruct (decide (j = i)) as [->|Nj].
    + rewrite list_lookup_insert_eq in Li' by exact Hi.
      rewrite Li in Lj. inversion Lj; subst. inversion Li'; subst.
      right. split; [reflexivity|]. exists s'. auto.
    + rewrite list_lookup_insert_ne in Li' by exact Nj.
      rewrite Li in Li'. inversion Li'. contradiction.
Qed.

(** C3, as amended.  On the cooperative machine, from the start of the
    entity, after any schedule of any requests, in which any awaited
    publish or save may raise: a step by which a task of
    [async_set_cover_position] (called directly or through
    [async_open_cover] or [async_close_cover]) returns is a step out of
    an [async_stop_cover], from the [await] of its STOP publish.  It is
    the stop of the [finally] clause, whose publish returns or raises, or
    else the first stop, whose publish raises before the invocation has
    tried the lock.  The return changes nothing of the shared state.  At
    the return both direction flags are false, unless another task is
    then in its critical section between setting its direction and its
    save. *)
Theorem set_cover_position_ends_with_stop
    (self : MQTTRelayCover) (p t : Q)
    (requests : list Concurrent.Request)
    (schedule : list Concurrent.Action) (m m' : Concurrent.Machine)
    (a : Concurrent.Action) (i : nat) (r : Concurrent.Request)
    (pc : Concurrent.Pc) :
  Concurrent.exec self schedule (Concurrent.boot self p t requests)
  = Some m ->
  Concurrent.step self m a = Some m' ->
  Concurrent.tasks m !! i = Some (r, pc) ->
  is_move r = true ->
  pc <> Concurrent.Done ->
  Concurrent.tasks m' !! i = Some (r, Concurrent.Done) ->
  ((pc = Concurrent.InFinalStop
    /\ (a = Concurrent.Resume i \/ a = Concurrent.Fail i))
   \/ (exists kwargs_position,
         pc = Concurrent.InFirstStop kwargs_position
         /\ a = Concurrent.Fail i))
  /\ Concurrent.shared m' = Concurrent.shared m
  /\ ((Concurrent._attr_is_opening (Concurrent.shared m') = false
       /\ Concurrent._attr_is_closing (Concurrent.shared m') = false)
      \/ exists j rj pcj,
           j <> i
           /\ Concurrent.tasks m' !! j = Some (rj, pcj)
           /\ moving pcj = true).
Proof.
  intros E St Li Mv N Li'.
  pose proof (exec_orderly self schedule _ _
                (boot_orderly self p t requests) E) as Or.
  pose proof (step_orderly self m m' a Or St) as [_ F'].
  destruct Or as [T _]. pose proof (T _ _ _ Li) as Ht.
  assert (Fl : (Concurrent._attr_is_opening (Concurrent.shared m') = false
                /\ Concurrent._attr_is_closing (Concurrent.shared m')
                   = false)
               \/ exists j rj pcj,
                    j <> i
                    /\ Concurrent.tasks m' !! j = Some (rj, pcj)
                    /\ moving pcj = true).
  { destruct (Concurrent._attr_is_opening (Concurrent.shared m')
              || Concurrent._attr_is_closing (Concurrent.shared m'))
      eqn:B.
    - right. destruct (F' eq_refl) as (j & rj & pcj & Lj & Mj).
      exists j, rj, pcj. split; [|auto].
      intros ->. rewrite Li' in Lj. inversion Lj; subst. discriminate Mj.
    - left. apply orb_false_iff in B. exact B. }
  destruct (return_step self m m' a i r pc St Li N Li')
    as [(-> & s' & Es & Sh)|(-> & s' & Es & Sh)].
  - assert (pc = Concurrent.InFinalStop
            /\ s' = Concurrent.shared m) as [-> ->].
    { destruct pc; cbn in Es, Ht;
        unfold Concurrent.begin, Concurrent.enter, Concurrent.loop_body,
          Concurrent.check_loop, Concurrent.leave in Es;
        split_step Es; try discriminate; inversion Es; subst; auto;
        destruct r; discriminate. }
    split; [left; auto|]. split; [exact Sh|exact Fl].
  - assert ((pc = Concurrent.InFinalStop
             \/ exists kwargs_position,
                  pc = Concurrent.InFirstStop kwargs_position)
            /\ s' = Concurrent.shared m) as [Hpc ->].
    { destruct pc; cbn in Es, Ht; try discriminate Es; inversion Es; subst;
        eauto; destruct r; discriminate. }
    split; [|split; [exact Sh|exact Fl]].
    destruct Hpc as [->|(kw & ->)]; [left; auto|right; eauto].
Qed.

Lemma set_cover_position_ends_with_stop_witness :
  Concurrent.exec one_second_cover overlapped_prefix
    (Concurrent.boot one_second_cover 0 0 overlapping_moves)
  = Some (machine_after one_second_cover overlapped_prefix
            (Concurrent.boot one_second_cover 0 0 overlapping_moves))
  /\ Concurrent.step one_second_cover
       (machine_after one_second_cover overlapped_prefix
          (Concurrent.boot one_second_cover 0 0 overlapping_moves))
       (Concurrent.Resume 0)
     = Some (machine_after one_second_cover
               (overlapped_prefix ++ [Concurrent.Resume 0])
               (Concurrent.boot one_second_cover 0 0 overlapping_moves))
  /\ Concurrent.tasks
       (machine_after one_second_cover overlapped_prefix
          (Concurrent.boot one_second_cover 0 0 overlapping_moves))
     !! 0%nat
     = Some (Concurrent.SetPosition (Some 100%Z), Concurrent.InFinalStop)
  /\ is_move (Concurrent.SetPosition (Some 100%Z)) = true
  /\ Concurrent.InFinalStop <> Concurrent.Done
  /\ Concurrent.tasks
       (machine_after one_second_cover
          (overlapped_prefix ++ [Concurrent.Resume 0])
          (Concurrent.boot one_second_cover 0 0 overlapping_moves))
     !! 0%nat
     = Some (Concurrent.SetPosition (Some 100%Z), Concurrent.Done)
  /\ ((Concurrent.InFinalStop = Concurrent.InFinalStop
       /\ (Concurrent.Resume 0 = Concurrent.Resume 0
           \/ Concurrent.Resume 0 = Concurrent.Fail 0))
      \/ (exists kwargs_position,
            Concurrent.InFinalStop = Concurrent.InFirstStop kwargs_position
            /\ Concurrent.Resume 0 = Concurrent.Fail 0))
  /\ Concurrent.shared
       (machine_after one_second_cover
          (overlapped_prefix ++ [Concurrent.Resume 0])
          (Concurrent.boot one_second_cover 0 0 overlapping_moves))
     = Concurrent.shared
         (machine_after one_second_cover overlapped_prefix
            (Concurrent.boot one_second_cover 0 0 overlapping_moves))
  /\ ((Concurrent._attr_is_opening
         (Concurrent.shared
            (machine_after one_second_cover
               (overlapped_prefix ++ [Concurrent.Resume 0])
               (Concurrent.boot one_second_cover 0 0 overlapping_moves)))
       = false
       /\ Concurrent._attr_is_closing
            (Concurrent.shared
               (machine_after one_second_cover
                  (overlapped_prefix ++ [Concurrent.Resume 0])
                  (Concurrent.boot one_second_cover 0 0
                     overlapping_moves)))
          = false)
      \/ exists j rj pcj,
           j <> 0%nat
           /\ Concurrent.tasks
                (machine_after one_second_cover
                   (overlapped_prefix ++ [Concurrent.Resume 0])
                   (Concurrent.boot one_second_cover 0 0
                      overlapping_moves))
              !! j = Some (rj, pcj)
           /\ moving pcj = true).
Proof.
  split; [vm_compute; reflexivity|].
  split; [vm_compute; reflexivity|].
  split; [vm_compute; reflexivity|].
  split; [reflexivity|]. split; [discriminate|].
  split; [vm_compute; reflexivity|].
  apply (set_cover_position_ends_with_stop one_second_cover 0 0
           overlapping_moves overlapped_prefix
           (machine_after one_second_cover overlapped_prefix
              (Concurrent.boot one_second_cover 0 0 overlapping_moves))
           (machine_after one_second_cover
              (overlapped_prefix ++ [Concurrent.Resume 0])
              (Concurrent.boot one_second_cover 0 0 overlapping_moves))
           (Concurrent.Resume 0) 0
           (Concurrent.SetPosition (Some 100%Z)) Concurrent.InFinalStop).
  - vm_compute. reflexivity.
  - vm_compute. reflexivity.
  - vm_compute. reflexivity.
  - reflexivity.
  - discriminate.
  - vm_compute. reflexivity.
Defined.

(** C3, as stated, fails when another move takes the lock during the last
    stop: the lock is released before the [finally] clause runs
    [async_stop_cover], and that stop is suspended at its publish.  In
    the schedule [overlapped_prefix] task 0 is in that last stop and
    task 1 has taken the lock and set the opening flag; the next step of
    task 0 is its return, and the opening flag is set at that return. *)
Lemma overlapped_move_returns_with_a_flag_set :
  exists m0 m,
    Concurrent.exec one_second_cover overlapped_prefix
      (Concurrent.boot one_second_cover 0 0 overlapping_moves)
    = Some m0
    /\ Concurrent.tasks m0 !! 0%nat
       = Some (Concurrent.SetPosition (Some 100%Z), Concurrent.InFinalStop)
    /\ Concurrent.step one_second_cover m0 (Concurrent.Resume 0) = Some m
    /\ Concurrent.tasks m !! 0%nat
       = Some (Concurrent.SetPosition (Some 100%Z), Concurrent.Done)
    /\ Concurrent._attr_is_opening (Concurrent.shared m) = true.
Proof.
  eexists _, _.
  split; [vm_compute; reflexivity|].
  split; [reflexivity|].
  split; [vm_compute; reflexivity|].
  split; reflexivity.
Qed.

(** * Further facts *)

(** ** Construction *)

(** X1.  When the configuration gives at most one of the name and the
    friendly name, the entity gets the same string for both: the name
    when the name is given, the friendly name when the friendly name is
    given, and, when neither is given, the default name followed
    directly by the unique id. *)
Theorem names_fall_back_on_each_other
    (object_id : string) (cfg : ConfigType) :
  CONF_NAME cfg = None \/ CONF_FRIENDLY_NAME cfg = None ->
  _attr_name (__init__ object_id cfg)
  = _attr_friendly_name (__init__ object_id cfg)
  /\ (forall given,
        CONF_NAME cfg = Some given ->
        _attr_name (__init__ object_id cfg) = given)
  /\ (forall given,
        CONF_FRIENDLY_NAME cfg = Some given ->
        _attr_name (__init__ object_id cfg) = given)
  /\ (CONF_NAME cfg = None ->
      CONF_FRIENDLY_NAME cfg = None ->
      _attr_name (__init__ object_id cfg)
      = _DEFAULT_NAME +:+ dict_get (CONF_UNIQUE_ID cfg) object_id).
Proof.
  intros H. unfold __init__. cbn.
  destruct (CONF_NAME cfg) as [n|], (CONF_FRIENDLY_NAME cfg) as [f|]; cbn;
    destruct H as [H|H]; try discriminate H;
    (split; [reflexivity|]); (split; [intros g G; congruence|]);
    (split; [intros g G; congruence|]); intros A B;
    first [discriminate A|discriminate B|reflexivity].
Qed.

Lemma names_fall_back_on_each_other_witness :
  (CONF_NAME config_friendly_only = None
   \/ CONF_FRIENDLY_NAME config_friendly_only = None)
  /\ _attr_name (__init__ "blind" config_friendly_only)
     = _attr_friendly_name (__init__ "blind" config_friendly_only)
  /\ (forall given,
        CONF_NAME config_friendly_only = Some given ->
        _attr_name (__init__ "blind" config_friendly_only) = given)
  /\ (forall given,
        CONF_FRIENDLY_NAME config_friendly_only = Some given ->
        _attr_name (__init__ "blind" config_friendly_only) = given)
  /\ (CONF_NAME config_friendly_only = None ->
      CONF_FRIENDLY_NAME config_friendly_only = None ->
      _attr_name (__init__ "blind" config_friendly_only)
      = _DEFAULT_NAME
        +:+ dict_get (CONF_UNIQUE_ID config_friendly_only) "blind").
Proof.
  split; [left; reflexivity|].
  apply (names_fall_back_on_each_other "blind" config_friendly_only).
  left. reflexivity.
Defined.

(** X2.  Without a configured closing time, the closing duration is the
    opening duration divided by 1000, and the two durations are equal
    only when the opening time is 0 (configured so, or missing). *)
Theorem unconfigured_closing_time_is_a_thousandth
    (object_id : string) (cfg : ConfigType) :
  CONF_CLOSING_TIME cfg = None ->
  _closing_time (__init__ object_id cfg)
  == _opening_time (__init__ object_id cfg) * (1 # 1000)
  /\ (_closing_time (__init__ object_id cfg)
      == _opening_time (__init__ object_id cfg)
      <-> dict_get (CONF_OPENING_TIME cfg) 0%Z = 0%Z).
Proof.
  intros H.
  assert (C : _closing_time (__init__ object_id cfg)
              == _opening_time (__init__ object_id cfg) * (1 # 1000)).
  { rewrite (closing_time_default object_id cfg H). field. }
  split; [exact C|]. rewrite C.
  assert (O : _opening_time (__init__ object_id cfg)
              == inject_Z (dict_get (CONF_OPENING_TIME cfg) 0%Z)
                 * (1 # 1000)).
  { unfold __init__. cbn. unfold _MILISECONDS_IN_SECOND. field. }
  set (o := _opening_time (__init__ object_id cfg)) in *.
  set (ms := dict_get (CONF_OPENING_TIME cfg) 0%Z) in *.
  split.
  - intros E. assert (inject_Z ms == 0) as Z0 by lra.
    unfold Qeq in Z0. cbn in Z0. lia.
  - intros E. rewrite E in O. change (inject_Z 0) with 0 in O. lra.
Qed.

Lemma unconfigured_closing_time_is_a_thousandth_witness :
  CONF_CLOSING_TIME (config_opening_only 10000) = None
  /\ _closing_time (__init__ "blind" (config_opening_only 10000))
     == _opening_time (__init__ "blind" (config_opening_only 10000))
        * (1 # 1000)
  /\ (_closing_time (__init__ "blind" (config_opening_only 10000))
      == _opening_time (__init__ "blind" (config_opening_only 10000))
      <-> dict_get (CONF_OPENING_TIME (config_opening_only 10000)) 0%Z
          = 0%Z).
Proof.
  split; [reflexivity|].
  apply (unconfigured_closing_time_is_a_thousandth "blind"
           (config_opening_only 10000)).
  reflexivity.
Defined.

(** ** The target *)

Lemma clamp_target_idempotent (kwargs_position : option Z) :
  clamp_target (Some (clamp_target kwargs_position))
  = clamp_target kwargs_position.
Proof.
  apply clamp_target_id, clamp_target_range.
Qed.

(** X3.  [async_set_cover_position] reads its argument only through the
    clamp: a call with any position, also one outside [0,100] or none
    at all, is the call with the clamped position, in every world and
    environment; and a call without a position is [async_close_cover]. *)
Theorem set_cover_position_reads_the_clamped_target
    (env : Env) (self : MQTTRelayCover) (fuel : nat)
    (kwargs_position : option Z) (w : World) :
  async_set_cover_position env self fuel kwargs_position w
  = async_set_cover_position env self fuel
      (Some (clamp_target kwargs_position)) w
  /\ async_set_cover_position env self fuel None w
     = async_close_cover env self fuel w.
Proof.
  assert (E : forall kw,
             start_movement env self kw
             = start_movement env self (Some (clamp_target kw))).
  { intros kw. unfold start_movement.
    rewrite (clamp_target_idempotent kw). reflexivity. }
  split.
  - unfold async_set_cover_position, critical_section.
    rewrite (E kwargs_position). reflexivity.
  - unfold async_close_cover, async_set_cover_position, critical_section.
    rewrite (E None), (E (Some _MIN_POSITION)). reflexivity.
Qed.

(** ** The publisher *)

(** X4.  [__async_publish] by what the MQTT entries are.  With no MQTT
    entry it logs an error, hands nothing to MQTT, returns, and nothing
    else changes: it does not even give up control.  With an entry whose
    component is not loaded it skips the payload and logs nothing.  Only
    with a loaded entry does the payload reach [async_publish], and the
    call raises only if that one does. *)
Theorem publish_is_dropped_without_loaded_mqtt
    (env : Env) (cmd : Command) (w : World) :
  match mqtt_entries env (awaited w) with
  | NoEntries =>
      __async_publish env cmd w
      = (Returned tt,
         upd_event (EvPublish cmd Skipped) (upd_event EvLogError w))
  | FirstEntry false =>
      exists w',
        __async_publish env cmd w = (Returned tt, w')
        /\ undisturbed w w'
        /\ trace w' = trace w ++ [EvPublish cmd Skipped]
  | FirstEntry true =>
      exists o w' d,
        __async_publish env cmd w = (o, w')
        /\ undisturbed w w'
        /\ trace w' = trace w ++ [EvPublish cmd d]
        /\ ((o = Returned tt /\ d = Delivered
             /\ raises env (S (awaited w)) = false)
            \/ (o = Raised ExternalError /\ d = Errored
                /\ raises env (S (awaited w)) = true))
  end.
Proof.
  unfold __async_publish, __isMQTTAvailable, bind, gets, ret, emit, modify,
    raise.
  destruct (mqtt_entries env (awaited w)) as [|[|]] eqn:M; cbn.
  - reflexivity.
  - destruct (suspend_eq env 0 w) as (w1 & E1 & U1 & _ & _ & A1 & T1).
    rewrite E1. cbn.
    destruct (suspend_eq env 0 w1) as (w2 & E2 & U2 & _ & _ & _ & T2).
    rewrite E2. cbn. rewrite A1.
    assert (U : undisturbed w w2) by (eapply undisturbed_trans; eauto).
    destruct (raises env (S (awaited w))) eqn:R; cbn.
    + exists (Raised ExternalError),
        (upd_event (EvPublish cmd Errored) w2), Errored.
      split; [reflexivity|]. split; [destruct U; split; auto|].
      split; [cbn; rewrite T2, T1; reflexivity|]. right. auto.
    + exists (Returned tt),
        (upd_event (EvPublish cmd Delivered) w2), Delivered.
      split; [reflexivity|]. split; [destruct U; split; auto|].
      split; [cbn; rewrite T2, T1; reflexivity|]. left. auto.
  - destruct (suspend_eq env 0 w) as (w1 & E1 & U1 & _ & _ & _ & T1).
    rewrite E1. cbn.
    exists (upd_event (EvPublish cmd Skipped) w1).
    split; [reflexivity|]. split; [destruct U1; split; auto|].
    cbn. rewrite T1. reflexivity.
Qed.

(** ** The estimate stays between the start and the target *)

Lemma next_position_within (direction : bool) (initial progress : Q)
    (target : Z) (lo hi : Q) :
  lo <= initial <= hi ->
  lo <= inject_Z target <= hi ->
  0 <= progress ->
  lo <= next_position direction initial progress target <= hi.
Proof.
  intros Hi Ht Hp. unfold next_position. destruct direction.
  - split.
    + apply Q.min_glb; lra.
    + eapply Qle_trans; [apply Q.le_min_r|lra].
  - split.
    + eapply Qle_trans; [|apply Q.le_max_r]. lra.
    + apply Q.max_lub; lra.
Qed.

Lemma loop_condition_true_in_budget (env : Env) (target : Z)
    (start duration now : Q) (w w' : World) :
  loop_condition target start duration now w = (Returned true, w') ->
  within_budget now start duration = true.
Proof.
  unfold loop_condition. destruct (within_budget now start duration);
    [reflexivity|]. unfold ret. intros H. inversion H.
Qed.

Lemma keeps_still {A : Type} (lo hi : Q) (m : M A) :
  still m -> keeps (position_within lo hi) m.
Proof.
  intros H w o w' (p & P & R) E. destruct (H w o w' E) as [_ P'].
  exists p. rewrite P'. auto.
Qed.

Lemma save_keeps_position (env : Env) (data : gmap string (option Q))
    (w : World) (o : Outcome unit) (w' : World) :
  async_save env data w = (o, w') ->
  Sequential._attr_current_cover_position w'
  = Sequential._attr_current_cover_position w.
Proof.
  intros E. destruct (Sequential._store w) eqn:S.
  - destruct (save_eq env data w S) as (o1 & w1 & E1 & P & _).
    rewrite E1 in E. injection E as <- <-. exact P.
  - rewrite (save_without_store env data w S) in E.
    injection E as <- <-. reflexivity.
Qed.

Lemma start_movement_locals (env : Env) (self : MQTTRelayCover)
    (kwargs_position : option Z) (w : World) (l : Locals) (w' : World) :
  start_movement env self kwargs_position w = (Returned l, w') ->
  exists q,
    Sequential._attr_current_cover_position w = Some q
    /\ l = locals_of self kwargs_position q (Sequential.clock w).
Proof.
  unfold start_movement, time_monotonic, set_opening, set_closing, bind,
    gets, modify, ret, raise. cbn.
  destruct (Sequential._attr_current_cover_position w) as [q|]; cbn;
    [|discriminate].
  match goal with
  | |- context [__async_publish env ?c ?w0] =>
      destruct (__async_publish env c w0) as [[[]|e| |] w1]
  end; intros E; inversion E; subst. exists q. auto.
Qed.

Section Within.

Variable env : Env.
Variable self : MQTTRelayCover.
Hypothesis monotonic : forall n, 0 <= latency env n.

Variables lo hi : Q.

Lemma sampling_loop_within (l : Locals) (fuel : nat) :
  lo <= initial_position l <= hi ->
  lo <= inject_Z (target_position l) <= hi ->
  forall w o w',
    position_within lo hi w ->
    start_moving_time l <= Sequential.clock w ->
    sampling_loop env fuel l w = (o, w') ->
    position_within lo hi w'.
Proof.
  intros Hi Ht. induction fuel as [|fuel IH]; intros w o w' I C E.
  - destruct (loop_condition_cases (target_position l) (start_moving_time l)
                (movement_time l) (Sequential.clock w) w) as [[[|] H]|H].
    + rewrite (sampling_loop_out_of_fuel env l w H) in E.
      injection E as <- <-. exact I.
    + rewrite (sampling_loop_exit env 0 l w H) in E.
      injection E as <- <-. exact I.
    + rewrite (sampling_loop_raise env 0 l w _ H) in E.
      injection E as <- <-. exact I.
  - destruct (loop_condition_cases (target_position l) (start_moving_time l)
                (movement_time l) (Sequential.clock w) w) as [[[|] H]|H].
    + destruct (sleep_eq env _CHECK_INTERVAL w)
        as (w1 & E1 & [P1 _ _ _ _] & _ & C1 & _).
      rewrite (sampling_loop_pass env fuel l w w1 H E1) in E.
      destruct (Qeq_bool (movement_time l) 0).
      * injection E as <- <-. destruct I as (p & P & R).
        exists p. rewrite P1. auto.
      * eapply IH; [| |exact E].
        -- eexists. split; [reflexivity|].
           apply next_position_within; [exact Hi|exact Ht|].
           apply progress_nonneg; [exact C|].
           apply Qltb_lt.
           exact (loop_condition_true_in_budget env _ _ _ _ _ _ H).
        -- cbn. rewrite C1. pose proof (monotonic (awaited w)).
           change _CHECK_INTERVAL with (1 # 10). lra.
    + rewrite (sampling_loop_exit env (S fuel) l w H) in E.
      injection E as <- <-. exact I.
    + rewrite (sampling_loop_raise env (S fuel) l w _ H) in E.
      injection E as <- <-. exact I.
Qed.

Lemma critical_section_within (fuel : nat) (kwargs_position : option Z) :
  lo <= inject_Z (clamp_target kwargs_position) <= hi ->
  keeps (position_within lo hi)
    (critical_section env self fuel kwargs_position).
Proof.
  intros Ht w o w' I E. unfold critical_section in E.
  unfold bind at 1 in E.
  destruct (start_movement env self kwargs_position w)
    as [[l|e| |] w1] eqn:E1;
    try (injection E as <- <-;
         exact (keeps_still lo hi _ (still_start_movement env self _)
                  _ _ _ I E1)).
  pose proof (keeps_still lo hi _ (still_start_movement env self _)
                _ _ _ I E1) as I1.
  destruct (start_movement_locals env self _ _ _ _ E1) as (q & Pq & ->).
  destruct (start_movement_finishes env self monotonic kwargs_position w)
    as (o0 & w0 & E0 & F0).
  rewrite E1 in E0. injection E0 as <- <-. destruct F0 as (_ & _ & C0).
  unfold bind at 1 in E.
  destruct (sampling_loop env fuel _ w1) as [[now|e| |] w2] eqn:E2;
    assert (I2 : position_within lo hi w2)
      by (eapply (sampling_loop_within
                    (locals_of self kwargs_position q (Sequential.clock w))
                    fuel); [| | exact I1 | exact C0 | exact E2]; cbn;
          [destruct I as (p & P & R); congruence|exact Ht]);
    try (injection E as <- <-; exact I2).
  unfold bind, gets in E. cbn in E.
  destruct I2 as (p & P & R). exists p.
  rewrite (save_keeps_position env _ _ _ _ E). auto.
Qed.

End Within.

(** X5.  The block under [async with self._lock] of
    [async_set_cover_position], on a monotonic clock: an interval that
    holds the position the block reads when it starts and the clamped
    target still holds the position when the block ends, whatever the
    outcome, the stops from other tasks and the failures.  With the
    interval from that position to the target: while the invocation
    holds the lock, the estimate never goes past the target and never
    moves away from it.  With [0,100]: a position in range stays in
    range. *)
Theorem critical_section_stays_between_start_and_target
    (env : Env) (self : MQTTRelayCover) (fuel : nat)
    (kwargs_position : option Z) (lo hi : Q)
    (w : World) (o : Outcome unit) (w' : World) :
  (forall n, 0 <= latency env n) ->
  lo <= inject_Z (clamp_target kwargs_position) <= hi ->
  position_within lo hi w ->
  critical_section env self fuel kwargs_position w = (o, w') ->
  position_within lo hi w'.
Proof.
  intros Mono Ht I E.
  exact (critical_section_within env self Mono lo hi fuel kwargs_position
           Ht w o w' I E).
Qed.

Lemma critical_section_stays_between_start_and_target_witness :
  (forall n, 0 <= latency quiet_env n)
  /\ 10 <= inject_Z (clamp_target (Some 12%Z)) <= 12
  /\ position_within 10 12 (locked_world 10 ∅)
  /\ critical_section quiet_env ten_second_cover 5 (Some 12%Z)
       (locked_world 10 ∅)
     = (Returned tt,
        snd (critical_section quiet_env ten_second_cover 5 (Some 12%Z)
               (locked_world 10 ∅)))
  /\ position_within 10 12
       (snd (critical_section quiet_env ten_second_cover 5 (Some 12%Z)
               (locked_world 10 ∅))).
Proof.
  assert (R : 10 <= inject_Z (clamp_target (Some 12%Z)) <= 12)
    by (split; discriminate).
  assert (P : position_within 10 12 (locked_world 10 ∅))
    by (exists 10; split; [reflexivity|split; discriminate]).
  split; [intros n; discriminate|].
  split; [exact R|]. split; [exact P|].
  split; [vm_compute; reflexivity|].
  apply (critical_section_stays_between_start_and_target quiet_env
           ten_second_cover 5 (Some 12%Z) 10 12 (locked_world 10 ∅)
           (Returned tt)).
  - intros n. discriminate.
  - exact R.
  - exact P.
  - vm_compute. reflexivity.
Defined.

(** ** A stop during the sleep of the loop *)

(** X6.  The loop has found its condition true, at a time not before
    the start of the movement, and sleeps; another task runs
    [async_stop_cover] during that sleep.  The loop then finishes the
    pass it is in: it writes one more estimate, computed from the time it
    read before the sleep, and announces it; and it leaves at the next
    check, without another sleep, with both flags false. *)
Theorem stop_during_sleep_ends_the_loop_after_that_pass
    (env : Env) (fuel : nat) (l : Locals) (w : World) :
  loop_condition (target_position l) (start_moving_time l)
    (movement_time l) (Sequential.clock w) w = (Returned true, w) ->
  start_moving_time l <= Sequential.clock w ->
  interrupted env (awaited w) = true ->
  exists w',
    sampling_loop env (S fuel) l w = (Returned (Sequential.clock w'), w')
    /\ Sequential._attr_current_cover_position w'
       = Some (next_position (is_opening_direction l) (initial_position l)
                 (progress_at l (Sequential.clock w)) (target_position l))
    /\ Sequential._attr_is_opening w' = false
    /\ Sequential._attr_is_closing w' = false
    /\ trace w'
       = trace w
         ++ [EvSleep _CHECK_INTERVAL;
             EvWriteState false false
               (Sequential._attr_current_cover_position w')].
Proof.
  intros C S Int.
  pose proof (loop_condition_true_in_budget env _ _ _ _ _ _ C) as B.
  apply Qltb_lt in B.
  assert (Hm : Qeq_bool (movement_time l) 0 = false).
  { destruct (Qeq_bool (movement_time l) 0) eqn:E; [|reflexivity].
    apply Qeq_bool_eq in E. rewrite E in B. lra. }
  assert (Hs : exists w1,
             asyncio_sleep env _CHECK_INTERVAL w = (Returned tt, w1)
             /\ Sequential._attr_is_opening w1 = false
             /\ Sequential._attr_is_closing w1 = false
             /\ trace w1 = trace w ++ [EvSleep _CHECK_INTERVAL]).
  { unfold asyncio_sleep, suspend, bind, emit, modify. cbn.
    rewrite Int. eexists. split; [reflexivity|]. cbn. auto. }
  destruct Hs as (w1 & E1 & Fo & Fc & T1).
  rewrite (sampling_loop_pass env fuel l w w1 C E1), Hm.
  set (w2 := after_pass l (Sequential.clock w) w1).
  exists w2. split.
  - apply sampling_loop_exit.
    rewrite (loop_condition_pending (target_position l)
               (start_moving_time l) (movement_time l)
               (Sequential.clock w2) w2 _ eq_refl).
    cbn. rewrite Fo, Fc. cbn. rewrite andb_false_r. reflexivity.
  - split; [reflexivity|]. split; [exact Fo|]. split; [exact Fc|].
    cbn. rewrite T1, Fo, Fc, <- app_assoc. reflexivity.
Qed.

Lemma stop_during_sleep_ends_the_loop_after_that_pass_witness :
  loop_condition (target_position opening_to_half)
    (start_moving_time opening_to_half) (movement_time opening_to_half)
    (Sequential.clock (opening_world 10 ∅)) (opening_world 10 ∅)
  = (Returned true, opening_world 10 ∅)
  /\ start_moving_time opening_to_half
     <= Sequential.clock (opening_world 10 ∅)
  /\ interrupted stopping_env (awaited (opening_world 10 ∅)) = true
  /\ exists w',
       sampling_loop stopping_env 1 opening_to_half (opening_world 10 ∅)
       = (Returned (Sequential.clock w'), w')
       /\ Sequential._attr_current_cover_position w'
          = Some (next_position (is_opening_direction opening_to_half)
                    (initial_position opening_to_half)
                    (progress_at opening_to_half
                       (Sequential.clock (opening_world 10 ∅)))
                    (target_position opening_to_half))
       /\ Sequential._attr_is_opening w' = false
       /\ Sequential._attr_is_closing w' = false
       /\ trace w'
          = trace (opening_world 10 ∅)
            ++ [EvSleep _CHECK_INTERVAL;
                EvWriteState false false
                  (Sequential._attr_current_cover_position w')].
Proof.
  split; [vm_compute; reflexivity|]. split; [discriminate|].
  split; [reflexivity|].
  apply (stop_during_sleep_ends_the_loop_after_that_pass stopping_env 0
           opening_to_half (opening_world 10 ∅)).
  - vm_compute. reflexivity.
  - discriminate.
  - reflexivity.
Defined.

(** ** A held lock *)

(** X7.  While another task holds the lock, [async_set_cover_position]
    still runs its first [async_stop_cover]: it clears both direction
    flags, asks for STOP and, unless that publish raises, announces the
    state; only then does it wait for the lock, with no direction command
    sent, the position, the document and the lock as they were.
    [async_calibrate] in the same situation waits at once and changes
    nothing. *)
Theorem set_cover_position_stops_before_it_waits_for_the_lock
    (env : Env) (self : MQTTRelayCover) (fuel : nat)
    (kwargs_position : option Z) (w : World) :
  Sequential._lock w = true ->
  (exists o w' d logged,
      async_set_cover_position env self fuel kwargs_position w = (o, w')
      /\ Sequential._attr_is_opening w' = false
      /\ Sequential._attr_is_closing w' = false
      /\ Sequential._attr_current_cover_position w'
         = Sequential._attr_current_cover_position w
      /\ Sequential.document w' = Sequential.document w
      /\ Sequential._lock w' = true
      /\ ((o = LockBusy /\ d <> Errored
           /\ trace w'
              = trace w ++ publish_events STOP d logged
                ++ [EvWriteState false false
                      (Sequential._attr_current_cover_position w)])
          \/ (o = Raised ExternalError /\ d = Errored
              /\ trace w' = trace w ++ publish_events STOP d logged)))
  /\ async_calibrate env self w = (LockBusy, w).
Proof.
  intros L. split.
  - destruct (stop_eq env w)
      as (o & w1 & d & lg & E & Fo & Fc & P & _ & L1 & D & H & _).
    rewrite L in L1.
    destruct H as [(-> & Hd & T)|(-> & Hd & _ & T)].
    + exists LockBusy, w1, d, lg.
      split.
      { unfold async_set_cover_position. rewrite (bind_step _ _ _ _ _ E).
        unfold try_finally. rewrite (with_lock_busy _ _ L1). reflexivity. }
      do 5 (split; [assumption|]). left. auto.
    + exists (Raised ExternalError), w1, d, lg.
      split.
      { unfold async_set_cover_position.
        rewrite (bind_raised _ _ _ _ _ E). reflexivity. }
      do 5 (split; [assumption|]). right. auto.
  - unfold async_calibrate. apply with_lock_busy. exact L.
Qed.

Lemma set_cover_position_stops_before_it_waits_for_the_lock_witness :
  Sequential._lock (locked_world 40 ∅) = true
  /\ (exists o w' d logged,
        async_set_cover_position quiet_env ten_second_cover 100 (Some 80%Z)
          (locked_world 40 ∅) = (o, w')
        /\ Sequential._attr_is_opening w' = false
        /\ Sequential._attr_is_closing w' = false
        /\ Sequential._attr_current_cover_position w'
           = Sequential._attr_current_cover_position (locked_world 40 ∅)
        /\ Sequential.document w' = Sequential.document (locked_world 40 ∅)
        /\ Sequential._lock w' = true
        /\ ((o = LockBusy /\ d <> Errored
             /\ trace w'
                = trace (locked_world 40 ∅) ++ publish_events STOP d logged
                  ++ [EvWriteState false false
                        (Sequential._attr_current_cover_position
                           (locked_world 40 ∅))])
            \/ (o = Raised ExternalError /\ d = Errored
                /\ trace w'
                   = trace (locked_world 40 ∅)
                     ++ publish_events STOP d logged)))
  /\ async_calibrate quiet_env ten_second_cover (locked_world 40 ∅)
     = (LockBusy, locked_world 40 ∅).
Proof.
  split; [reflexivity|].
  apply (set_cover_position_stops_before_it_waits_for_the_lock quiet_env
           ten_second_cover 100 (Some 80%Z) (locked_world 40 ∅)).
  reflexivity.
Defined.

(** ** The calibration run *)

Section Calm.

Variable env : Env.
Hypothesis monotonic : forall n, 0 <= latency env n.

Lemma calm_bind {A B : Type} (d1 d2 : Q) (m : M A) (k : A -> M B) :
  calm d1 m -> (forall a, calm d2 (k a)) -> calm (d1 + d2) (bind m k).
Proof.
  intros Hm Hk w o w' I E. unfold bind in E.
  destruct (m w) as [[a|e| |] w1] eqn:Em;
    destruct (Hm _ _ _ I Em) as (I1 & L1 & F1 & C1);
    try (injection E as <- <-; auto; fail).
  destruct (Hk a _ _ _ I1 E) as (I2 & L2 & F2 & C2).
  split; [exact I2|]. split; [congruence|]. split; [exact F2|].
  destruct o; auto. lra.
Qed.

Lemma calm_sooner {A : Type} (d d' : Q) (m : M A) :
  calm d m -> d' <= d -> calm d' m.
Proof.
  intros H Hd w o w' I E. destruct (H _ _ _ I E) as (I1 & L1 & F1 & C1).
  split; [exact I1|]. split; [exact L1|]. split; [exact F1|].
  destruct o; auto. lra.
Qed.

Lemma calm_publish (cmd : Command) : calm 0 (__async_publish env cmd).
Proof.
  intros w o w' [Io Ic] E.
  destruct (publish_eq env cmd w)
    as (o1 & w1 & d & lg & E1 & U & _ & H & _ & C & _).
  rewrite E1 in E. injection E as <- <-.
  split; [exact (undisturbed_idle _ _ U Io Ic)|].
  split; [apply U|].
  specialize (C monotonic).
  destruct H as [(-> & _)|(-> & _)]; cbn; split; auto. lra.
Qed.

Lemma calm_sleep (seconds : Q) : calm seconds (asyncio_sleep env seconds).
Proof.
  intros w o w' [Io Ic] E.
  destruct (sleep_eq env seconds w) as (w1 & E1 & U & _ & C & _).
  rewrite E1 in E. injection E as <- <-.
  split; [exact (undisturbed_idle _ _ U Io Ic)|].
  split; [apply U|]. split; [exact I|].
  rewrite C. pose proof (monotonic (awaited w)). lra.
Qed.

Lemma calm_modify_position (p : option Q) :
  calm 0 (modify (upd_position p)).
Proof.
  intros w o w' I0 E. injection E as <- <-.
  split; [exact I0|]. split; [reflexivity|]. split; [exact I|]. cbn. lra.
Qed.

Lemma calm_write_ha_state : calm 0 async_write_ha_state.
Proof.
  intros w o w' I0 E. injection E as <- <-.
  split; [exact I0|]. split; [reflexivity|]. split; [exact I|]. cbn. lra.
Qed.

Lemma calm_save (data : gmap string (option Q)) :
  calm 0 (async_save env data).
Proof.
  intros w o w' [Io Ic] E.
  unfold async_save, bind, gets, modify, raise, emit in E.
  destruct (Sequential._store w).
  - destruct (suspend_eq env 0 w) as (w1 & E1 & U & _ & C & _).
    rewrite E1 in E. pose proof (monotonic (awaited w)).
    destruct (raises env (awaited w)); injection E as <- <-;
      (split; [exact (undisturbed_idle _ _ U Io Ic)|]);
      (split; [apply U|]); split; cbn; auto. rewrite C. lra.
  - injection E as <- <-. cbn. repeat split; auto.
Qed.

Lemma calm_gets {A : Type} (f : World -> A) : calm 0 (gets f).
Proof.
  intros w o w' I0 E. injection E as <- <-.
  split; [exact I0|]. split; [reflexivity|]. split; [exact I|]. cbn. lra.
Qed.

End Calm.

(** X8.  A run of [async_calibrate] that finds the lock free, on a
    monotonic clock, whatever else the environment does: it comes to an
    end, by a return or by the exception of a publish or of the save;
    both direction flags are then false and the lock is free again.  When
    it returns, the cover counts as closed, and the run has taken at
    least the opening time plus the closing time plus 4 seconds, during
    all of which it held the lock. *)
Theorem calibrate_ends_stopped_and_closed_after_both_travel_times
    (env : Env) (self : MQTTRelayCover) (w : World) (o : Outcome unit)
    (w' : World) :
  (forall n, 0 <= latency env n) ->
  Sequential._lock w = false ->
  async_calibrate env self w = (o, w') ->
  finished o
  /\ is_stopped w' = true
  /\ Sequential._lock w' = false
  /\ (o = Returned tt ->
      is_closed w' = true
      /\ Sequential.clock w + (_opening_time self + _closing_time self + 4)
         <= Sequential.clock w').
Proof.
  intros Mono L E. unfold async_calibrate in E.
  rewrite (with_lock_free _ _ L) in E. unfold try_finally in E.
  set (w0 := upd_closing false (upd_opening false (upd_lock true w))).
  set (rest :=
         do _ <- __async_publish env OPEN;
         do _ <- asyncio_sleep env (_opening_time self + 1);
         do _ <- __async_publish env STOP;
         do _ <- asyncio_sleep env 1;
         do _ <- __async_publish env CLOSE;
         do _ <- asyncio_sleep env (_closing_time self + 1);
         do _ <- __async_publish env STOP;
         do _ <- asyncio_sleep env 1;
         do _ <- modify (upd_position (Some 0));
         do current <- gets Sequential._attr_current_cover_position;
         do _ <- async_save env {[ unique_id self := current ]};
         async_write_ha_state).
  assert (C : calm (_opening_time self + _closing_time self + 4) rest).
  { unfold rest. eapply calm_sooner.
    - repeat first
        [ apply calm_write_ha_state
        | eapply calm_bind;
          [ first [ apply calm_publish; exact Mono
                  | apply calm_sleep; exact Mono
                  | apply calm_modify_position
                  | apply calm_gets
                  | apply calm_save; exact Mono ]
          | intros ? ] ].
    - lra. }
  assert (I0 : idle w0) by (split; reflexivity).
  match type of E with
  | (let (_, _) := ?b in _) = _ => destruct b as [[[]|e| |] w1] eqn:R
  end;
    change (rest w0 = (Returned tt, w1)) in R
    || change (rest w0 = (Raised e, w1)) in R
    || change (rest w0 = (LockBusy, w1)) in R
    || change (rest w0 = (OutOfFuel, w1)) in R;
    destruct (C _ _ _ I0 R) as ([Io Ic] & L1 & F1 & C1);
    try contradiction; unfold modify in E; injection E as <- <-;
    (split; [exact I|]);
    (split; [unfold is_stopped; cbn; rewrite Io, Ic; reflexivity|]);
    (split; [reflexivity|]); [|discriminate].
  intros _. split; [|exact C1].
  unfold rest in R.
  do 8 (apply bind_Returned in R; destruct R as (? & ? & _ & R);
        cbn beta in R).
  apply bind_Returned in R. destruct R as (? & w9 & M & R).
  injection M as _ <-.
  apply bind_Returned in R. destruct R as (current & ? & G & R).
  injection G as <- <-.
  apply bind_Returned in R. destruct R as (? & w10 & S & R).
  destruct (still_write_ha_state _ _ _ R) as [_ P1].
  unfold is_closed. cbn.
  rewrite P1, (save_keeps_position env _ _ _ _ S). reflexivity.
Qed.

Lemma calibrate_ends_stopped_and_closed_after_both_travel_times_witness :
  (forall n, 0 <= latency quiet_env n)
  /\ Sequential._lock (opening_world 55 ∅) = false
  /\ async_calibrate quiet_env ten_second_cover (opening_world 55 ∅)
     = (Returned tt,
        snd (async_calibrate quiet_env ten_second_cover
               (opening_world 55 ∅)))
  /\ finished (Returned tt)
  /\ is_stopped
       (snd (async_calibrate quiet_env ten_second_cover
               (opening_world 55 ∅))) = true
  /\ Sequential._lock
       (snd (async_calibrate quiet_env ten_second_cover
               (opening_world 55 ∅))) = false
  /\ (Returned tt = Returned tt ->
      is_closed
        (snd (async_calibrate quiet_env ten_second_cover
                (opening_world 55 ∅))) = true
      /\ Sequential.clock (opening_world 55 ∅)
         + (_opening_time ten_second_cover
            + _closing_time ten_second_cover + 4)
         <= Sequential.clock
              (snd (async_calibrate quiet_env ten_second_cover
                      (opening_world 55 ∅)))).
Proof.
  split; [intros n; discriminate|]. split; [reflexivity|].
  split; [vm_compute; reflexivity|].
  apply (calibrate_ends_stopped_and_closed_after_both_travel_times
           quiet_env ten_second_cover (opening_world 55 ∅) (Returned tt)).
  - intros n. discriminate.
  - reflexivity.
  - vm_compute. reflexivity.
Defined.

(** ** A restart after a save *)



(** ** A partial movement on an ideal clock *)

Section IdealMove.

Variable env : Env.
Hypothesis ideal : forall n, latency env n == 0.
Hypothesis quiet : forall n, interrupted env n = false.

Variable l : Locals.
Variable K : nat.
Hypothesis in_budget :
  inject_Z (Z.of_nat K) * (1 # 10) < movement_time l.
Hypothesis reach_up :
  (inject_Z (target_position l) - initial_position l) * movement_time l
  <= 10 * inject_Z (Z.of_nat K).
Hypothesis reach_down :
  (initial_position l - inject_Z (target_position l)) * movement_time l
  <= 10 * inject_Z (Z.of_nat K).

Lemma duration_positive : 0 < movement_time l.
Proof.
  pose proof (inject_Z_of_nat_le 0 K (Nat.le_0_l K)) as H.
  change (inject_Z (Z.of_nat 0)) with 0 in H. lra.
Qed.

Lemma progress_times_duration (now : Q) :
  progress_at l now * movement_time l
  == (now - start_moving_time l) * 100.
Proof.
  unfold progress_at. change (inject_Z _MAX_PERCENT) with 100. field.
  pose proof duration_positive. lra.
Qed.

(** The pass that starts at tick [K] writes the target. *)
Lemma last_pass_lands (now : Q) :
  now == start_moving_time l + inject_Z (Z.of_nat K) * (1 # 10) ->
  next_position (is_opening_direction l) (initial_position l)
    (progress_at l now) (target_position l)
  == inject_Z (target_position l).
Proof.
  intros H. pose proof (progress_times_duration now) as P.
  pose proof duration_positive as D.
  assert (P' : progress_at l now * movement_time l
               == 10 * inject_Z (Z.of_nat K)) by (rewrite P, H; ring).
  unfold next_position. destruct (is_opening_direction l).
  - apply Q.min_r.
    assert (inject_Z (target_position l) - initial_position l
            <= progress_at l now); [|lra].
    apply (Qmult_le_r _ _ _ D). rewrite P'. exact reach_up.
  - apply Q.max_r.
    assert (initial_position l - inject_Z (target_position l)
            <= progress_at l now); [|lra].
    apply (Qmult_le_r _ _ _ D). rewrite P'. exact reach_down.
Qed.

Lemma next_position_not_past (progress : Q) :
  not_past (is_opening_direction l)
    (next_position (is_opening_direction l) (initial_position l) progress
       (target_position l))
    (target_position l).
Proof.
  unfold not_past, next_position. destruct (is_opening_direction l).
  - apply Q.le_min_r.
  - apply Q.le_max_r.
Qed.

(** From the check at tick [k], with [n] checks left before the one after
    tick [K]: the loop leaves with the estimate on the target. *)
Lemma ideal_move_from (n : nat) :
  forall (k fuel : nat) (w : World) (p : Q),
    (k + n = S K)%nat ->
    (n <= fuel)%nat ->
    at_tick l k w ->
    Sequential._attr_current_cover_position w = Some p ->
    not_past (is_opening_direction l) p (target_position l) ->
    (n = 0%nat -> p == inject_Z (target_position l)) ->
    Sequential._attr_is_opening w = is_opening_direction l ->
    Sequential._attr_is_closing w = negb (is_opening_direction l) ->
    exists now w4 p4,
      sampling_loop env fuel l w = (Returned now, w4)
      /\ Sequential._attr_current_cover_position w4 = Some p4
      /\ p4 == inject_Z (target_position l)
      /\ now
         <= start_moving_time l + inject_Z (Z.of_nat (S K)) * (1 # 10).
Proof.
  assert (Exit : forall (k fuel : nat) (w : World) (p : Q),
             (k <= S K)%nat ->
             at_tick l k w ->
             Sequential._attr_current_cover_position w = Some p ->
             p == inject_Z (target_position l) ->
             exists now w4 p4,
               sampling_loop env fuel l w = (Returned now, w4)
               /\ Sequential._attr_current_cover_position w4 = Some p4
               /\ p4 == inject_Z (target_position l)
               /\ now
                  <= start_moving_time l
                     + inject_Z (Z.of_nat (S K)) * (1 # 10)).
  { intros k fuel w p Hk Hc Hp Hq.
    exists (Sequential.clock w), w, p.
    split; [apply sampling_loop_exit;
            exact (loop_condition_at_target _ _ _ _ _ _ Hp Hq)|].
    split; [exact Hp|]. split; [exact Hq|].
    unfold at_tick in Hc. rewrite Hc.
    pose proof (inject_Z_of_nat_le k (S K) Hk). lra. }
  induction n as [|n IH]; intros k fuel w p Hk Hf Hc Hp Hn H0 Ho Hcl.
  - apply (Exit k fuel w p); auto. lia.
  - destruct (Qeq_dec p (inject_Z (target_position l))) as [Heq|Hne].
    { apply (Exit k fuel w p); auto. lia. }
    destruct fuel as [|fuel]; [lia|].
    pose proof duration_positive as D.
    pose proof (inject_Z_of_nat_succ k) as HS.
    pose proof (inject_Z_of_nat_le k K ltac:(lia)) as HK.
    unfold at_tick in Hc.
    assert (C : loop_condition (target_position l) (start_moving_time l)
                  (movement_time l) (Sequential.clock w) w
                = (Returned true, w)).
    { rewrite (loop_condition_pending _ _ _ _ _ _ Hp).
      rewrite Ho, Hcl. unfold within_budget, target_pending.
      replace (Qltb (Sequential.clock w)
                 (start_moving_time l + movement_time l)) with true.
      2:{ symmetry. apply Qltb_lt. rewrite Hc. lra. }
      unfold not_past in Hn. destruct (is_opening_direction l); cbn.
      - replace (Qltb p (inject_Z (target_position l))) with true;
          [reflexivity|].
        symmetry. apply Qltb_lt. apply Qle_lteq in Hn.
        destruct Hn as [Hn|Hn]; [exact Hn|contradiction].
      - replace (Qltb (inject_Z (target_position l)) p) with true;
          [reflexivity|].
        symmetry. apply Qltb_lt. apply Qle_lteq in Hn.
        destruct Hn as [Hn|Hn]; [exact Hn|].
        exfalso. apply Hne. symmetry. exact Hn. }
    destruct (sleep_eq env _CHECK_INTERVAL w)
      as (w1 & E & [Up _ _ _ _] & F & C1 & T1).
    destruct (F (quiet _)) as [Fo Fc].
    rewrite (sampling_loop_pass env fuel l w w1 C E).
    replace (Qeq_bool (movement_time l) 0) with false.
    2:{ symmetry. apply not_true_is_false. intros B.
        apply Qeq_bool_eq in B. lra. }
    apply (IH (S k) fuel (after_pass l (Sequential.clock w) w1)
             (next_position (is_opening_direction l) (initial_position l)
                (progress_at l (Sequential.clock w)) (target_position l))).
    + lia.
    + lia.
    + unfold at_tick. cbn. rewrite C1, Hc, (ideal (awaited w)), HS.
      change _CHECK_INTERVAL with (1 # 10). ring.
    + reflexivity.
    + apply next_position_not_past.
    + intros ->. apply last_pass_lands.
      assert (k = K) by lia. subst k. exact Hc.
    + cbn. congruence.
    + cbn. congruence.
Qed.

End IdealMove.

(** X10.  A partial movement on an ideal clock (only sleeps take time,
    and they take what was asked), with nobody clearing the flags and
    calls that do not raise.  When some tick [K] of the loop falls at or
    after the travel time of the distance and still within the travel
    time of the direction, and the fuel covers [K] passes and one more
    check, [async_set_cover_position] returns with the position equal to
    the clamped target, and has saved that position. *)
Theorem partial_move_ends_exactly_on_the_target
    (env : Env) (self : MQTTRelayCover) (fuel K : nat)
    (kwargs_position : option Z) (q : Q) (w : World) :
  (forall n, latency env n == 0) ->
  (forall n, interrupted env n = false) ->
  (forall n, raises env n = false) ->
  Sequential._lock w = false ->
  Sequential._store w = true ->
  Sequential._attr_current_cover_position w = Some q ->
  Qabs (inject_Z (clamp_target kwargs_position) - q) * (1 # 100)
  * movement_time_of self
      (Qltb q (inject_Z (clamp_target kwargs_position)))
  <= inject_Z (Z.of_nat K) * (1 # 10) ->
  inject_Z (Z.of_nat K) * (1 # 10)
  < movement_time_of self
      (Qltb q (inject_Z (clamp_target kwargs_position))) ->
  (K < fuel)%nat ->
  exists w' p,
    async_set_cover_position env self fuel kwargs_position w
    = (Returned tt, w')
    /\ Sequential._attr_current_cover_position w' = Some p
    /\ p == inject_Z (clamp_target kwargs_position)
    /\ Sequential.document w' = Some {[ unique_id self := Some p ]}.
Proof.
  intros Ideal Quiet NR L St P Hreach Hbudget Hf.
  destruct (set_cover_position_ok env self fuel kwargs_position w q NR L St
              P)
    as (w1 & w3 & d1 & lg1 & d3 & lg3 & T3 & P3 & F3 & _ & I3 & Kont).
  cbn zeta in *.
  specialize (F3 Quiet). specialize (I3 Ideal). destruct F3 as [Fo Fc].
  set (l := locals_of self kwargs_position q (Sequential.clock w1)) in *.
  set (t := inject_Z (clamp_target kwargs_position)) in *.
  set (mt := movement_time_of self (Qltb q t)) in *.
  assert (M0 : 0 < mt).
  { pose proof (inject_Z_of_nat_le 0 K (Nat.le_0_l K)) as H.
    change (inject_Z (Z.of_nat 0)) with 0 in H. lra. }
  assert (A : Qabs (t - q) * mt <= 10 * inject_Z (Z.of_nat K)).
  { assert (R : Qabs (t - q) * (1 # 100) * mt
                == Qabs (t - q) * mt * (1 # 100)) by ring.
    rewrite R in Hreach. lra. }
  assert (Up : (t - q) * mt <= 10 * inject_Z (Z.of_nat K)).
  { eapply Qle_trans; [|exact A].
    apply Qmult_le_compat_r; [apply Qle_Qabs|lra]. }
  assert (Down : (q - t) * mt <= 10 * inject_Z (Z.of_nat K)).
  { eapply Qle_trans; [|exact A].
    apply Qmult_le_compat_r; [|lra].
    rewrite (Qabs_Qminus t q). apply Qle_Qabs. }
  destruct (ideal_move_from env Ideal Quiet l K Hbudget Up Down
              (S K) 0 fuel w3 q)
    as (now & w4 & p4 & E4 & P4 & Q4 & _).
  - reflexivity.
  - lia.
  - unfold at_tick. rewrite I3. cbn. ring.
  - exact P3.
  - unfold not_past. cbn. fold t.
    destruct (Qltb q t) eqn:B.
    + apply Qltb_lt in B. lra.
    + apply Qltb_ge in B. exact B.
  - discriminate.
  - exact Fo.
  - exact Fc.
  - destruct (Kont _ _ E4)
      as (w' & d5 & lg5 & E & P' & _ & _ & _ & D' & _).
    rewrite P4 in P', D'.
    exists w', p4. auto.
Qed.

Lemma partial_move_ends_exactly_on_the_target_witness :
  (forall n, latency quiet_env n == 0)
  /\ (forall n, interrupted quiet_env n = false)
  /\ (forall n, raises quiet_env n = false)
  /\ Sequential._lock shared_store_world = false
  /\ Sequential._store shared_store_world = true
  /\ Sequential._attr_current_cover_position shared_store_world = Some 10
  /\ Qabs (inject_Z (clamp_target (Some 12%Z)) - 10) * (1 # 100)
     * movement_time_of ten_second_cover
         (Qltb 10 (inject_Z (clamp_target (Some 12%Z))))
     <= inject_Z (Z.of_nat 2) * (1 # 10)
  /\ inject_Z (Z.of_nat 2) * (1 # 10)
     < movement_time_of ten_second_cover
         (Qltb 10 (inject_Z (clamp_target (Some 12%Z))))
  /\ (2 < 5)%nat
  /\ exists w' p,
       async_set_cover_position quiet_env ten_second_cover 5 (Some 12%Z)
         shared_store_world
       = (Returned tt, w')
       /\ Sequential._attr_current_cover_position w' = Some p
       /\ p == inject_Z (clamp_target (Some 12%Z))
       /\ Sequential.document w'
          = Some {[ unique_id ten_second_cover := Some p ]}.
Proof.
  split; [intros n; reflexivity|]. split; [intros n; reflexivity|].
  split; [intros n; reflexivity|]. split; [reflexivity|].
  split; [reflexivity|]. split; [reflexivity|].
  split; [vm_compute; discriminate|]. split; [vm_compute; reflexivity|].
  split; [lia|].
  apply (partial_move_ends_exactly_on_the_target quiet_env
           ten_second_cover 5 2 (Some 12%Z) 10 shared_store_world).
  - intros n. reflexivity.
  - intros n. reflexivity.
  - intros n. reflexivity.
  - reflexivity.
  - reflexivity.
  - reflexivity.
  - vm_compute. discriminate.
  - vm_compute. reflexivity.
  - lia.
Defined.

(** ** The commands of one invocation *)

Lemma commands_app (a b : list Action) :
  commands (a ++ b) = commands a ++ commands b.
Proof.
  induction a as [|[] a IH]; cbn; congruence.
Qed.

Lemma asked_same (w w' : World) : trace w' = trace w -> asked [] w w'.
Proof.
  intros H. exists []. rewrite H, app_nil_r. auto.
Qed.

Lemma asked_trans (cs1 cs2 : list Command) (w1 w2 w3 : World) :
  asked cs1 w1 w2 -> asked cs2 w2 w3 -> asked (cs1 ++ cs2) w1 w3.
Proof.
  intros (e1 & T1 & C1) (e2 & T2 & C2). exists (e1 ++ e2).
  split; [rewrite T2, T1, app_assoc; reflexivity|].
  rewrite outline_app, commands_app. congruence.
Qed.

Lemma asked_publish_events (cmd : Command) (d : Delivery) (lg : bool)
    (rest : list Event) (w w' : World) :
  trace w' = trace w ++ publish_events cmd d lg ++ rest ->
  commands (outline rest) = [] ->
  asked [cmd] w w'.
Proof.
  intros T R. eexists. split; [exact T|].
  rewrite outline_app, outline_publish_events. cbn. rewrite R. reflexivity.
Qed.

Section Commands.

Variable env : Env.
Variable self : MQTTRelayCover.

Lemma start_movement_asked (kwargs_position : option Z) (w : World)
    (o : Outcome Locals) (w' : World) :
  start_movement env self kwargs_position w = (o, w') ->
  match Sequential._attr_current_cover_position w with
  | None => o = Raised TypeError /\ w' = w
  | Some q =>
      asked [command_towards q kwargs_position] w w'
      /\ ((exists l, o = Returned l) \/ o = Raised ExternalError)
  end.
Proof.
  unfold start_movement, time_monotonic, set_opening, set_closing, bind,
    gets, modify, ret, raise, command_towards. cbn.
  destruct (Sequential._attr_current_cover_position w) as [q|]; cbn.
  - match goal with
    | |- context [__async_publish env ?c ?w0] =>
        destruct (publish_eq env c w0)
          as (o1 & w1 & d & lg & E1 & _ & T & H & _)
    end.
    rewrite E1. cbn in T.
    rewrite <- (app_nil_r (publish_events _ d lg)) in T.
    pose proof (asked_publish_events _ _ _ _ _ _ T eq_refl) as A.
    destruct H as [(-> & _)|(-> & _)]; intros E; injection E as <- <-;
      split; eauto.
  - intros E. injection E as <- <-. auto.
Qed.

Lemma sampling_loop_asked (fuel : nat) (l : Locals) :
  forall w o w',
    sampling_loop env fuel l w = (o, w') ->
    asked [] w w' /\ (o = OutOfFuel \/ finished o).
Proof.
  induction fuel as [|fuel IH]; intros w o w' H.
  - destruct (loop_condition_cases (target_position l) (start_moving_time l)
                (movement_time l) (Sequential.clock w) w) as [[[|] C]|C].
    + rewrite (sampling_loop_out_of_fuel env l w C) in H.
      injection H as <- <-. split; [apply asked_same; reflexivity|auto].
    + rewrite (sampling_loop_exit env 0 l w C) in H.
      injection H as <- <-.
      split; [apply asked_same; reflexivity|right; exact I].
    + rewrite (sampling_loop_raise env 0 l w _ C) in H.
      injection H as <- <-.
      split; [apply asked_same; reflexivity|right; exact I].
  - destruct (loop_condition_cases (target_position l) (start_moving_time l)
                (movement_time l) (Sequential.clock w) w) as [[[|] C]|C].
    + destruct (sleep_ok env _CHECK_INTERVAL w) as (w1 & E & [_ T]).
      rewrite (sampling_loop_pass env fuel l w w1 C E) in H.
      destruct (Qeq_bool (movement_time l) 0).
      * injection H as <- <-.
        split; [eexists; split; [exact T|reflexivity]|right; exact I].
      * apply IH in H. destruct H as [A F]. split; [|exact F].
        apply (asked_trans [] [] w w1 w');
          [eexists; split; [exact T|reflexivity]|].
        apply (asked_trans [] [] w1 (after_pass l (Sequential.clock w) w1)
                 w'); [|exact A].
        eexists. split; [reflexivity|reflexivity].
    + rewrite (sampling_loop_exit env (S fuel) l w C) in H.
      injection H as <- <-.
      split; [apply asked_same; reflexivity|right; exact I].
    + rewrite (sampling_loop_raise env (S fuel) l w _ C) in H.
      injection H as <- <-.
      split; [apply asked_same; reflexivity|right; exact I].
Qed.

Lemma save_asked (data : gmap string (option Q)) (w : World)
    (o : Outcome unit) (w' : World) :
  async_save env data w = (o, w') -> asked [] w w' /\ finished o.
Proof.
  intros E. destruct (Sequential._store w) eqn:S.
  - destruct (save_eq env data w S) as (o1 & w1 & E1 & _ & _ & _ & _ & H).
    rewrite E1 in E. injection E as <- <-.
    destruct H as [(-> & _ & T)|(-> & _ & T & _)].
    + split; [eexists; split; [exact T|reflexivity]|exact I].
    + split; [apply asked_same; exact T|exact I].
  - rewrite (save_without_store env data w S) in E.
    injection E as <- <-. split; [apply asked_same; reflexivity|exact I].
Qed.

Lemma critical_section_asked (fuel : nat) (kwargs_position : option Z)
    (w : World) (o : Outcome unit) (w' : World) :
  critical_section env self fuel kwargs_position w = (o, w') ->
  match Sequential._attr_current_cover_position w with
  | None => o = Raised TypeError /\ asked [] w w'
  | Some q =>
      asked [command_towards q kwargs_position] w w'
      /\ (o = OutOfFuel \/ finished o)
  end.
Proof.
  intros E. unfold critical_section in E. unfold bind at 1 in E.
  destruct (start_movement env self kwargs_position w)
    as [[l|e| |] w1] eqn:E1;
    pose proof (start_movement_asked _ _ _ _ E1) as H1;
    destruct (Sequential._attr_current_cover_position w) as [q|].
  - destruct H1 as [A1 _]. unfold bind at 1 in E.
    destruct (sampling_loop env fuel l w1) as [[now|e| |] w2] eqn:E2;
      destruct (sampling_loop_asked _ _ _ _ _ E2) as [A2 F2];
      pose proof (asked_trans _ _ _ _ _ A1 A2) as A12;
      try (injection E as <- <-; split; [exact A12|];
           destruct F2 as [F2|F2];
           first [discriminate|contradiction|left; reflexivity
                 |right; exact I]; fail).
    unfold bind, gets in E. cbn in E.
    destruct (save_asked _ _ _ _ E) as [A3 F3].
    split; [exact (asked_trans _ _ _ _ _ A12 A3)|right; exact F3].
  - destruct H1 as [H1 _]. discriminate.
  - injection E as <- <-. destruct H1 as [A1 [[l H]|H]];
      [discriminate|]. split; [exact A1|right; exact I].
  - injection E as <- <-. destruct H1 as [H ->]. injection H as ->.
    split; [reflexivity|apply asked_same; reflexivity].
  - destruct H1 as [_ [[l H]|H]]; discriminate.
  - destruct H1 as [H _]. discriminate.
  - destruct H1 as [_ [[l H]|H]]; discriminate.
  - destruct H1 as [H _]. discriminate.
Qed.

End Commands.

(** X11.  The commands of the block under [async with self._lock] of
    [async_set_cover_position], whatever the environment, the fuel and
    the outcome.  When the position the block reads at its start is a
    number, the block asks for exactly one command: OPEN when that
    position is below the clamped target, CLOSE otherwise, also when the
    position is on the target; the loop and the save ask for none, and
    the block never waits for a lock.  When the position is not set, the
    block raises [TypeError] before it asks for anything. *)
Theorem critical_section_sends_one_direction_command
    (env : Env) (self : MQTTRelayCover) (fuel : nat)
    (kwargs_position : option Z) (w : World) (o : Outcome unit)
    (w' : World) :
  critical_section env self fuel kwargs_position w = (o, w') ->
  match Sequential._attr_current_cover_position w with
  | None =>
      o = Raised TypeError
      /\ exists evs,
           trace w' = trace w ++ evs /\ commands (outline evs) = []
  | Some q =>
      (exists evs,
          trace w' = trace w ++ evs
          /\ commands (outline evs)
             = [if Qltb q (inject_Z (clamp_target kwargs_position))
                then OPEN else CLOSE])
      /\ (o = OutOfFuel \/ finished o)
  end.
Proof.
  intros E.
  exact (critical_section_asked env self fuel kwargs_position w o w' E).
Qed.

Lemma critical_section_sends_one_direction_command_witness :
  critical_section quiet_env ten_second_cover 5 (Some 12%Z)
    (locked_world 10 ∅)
  = (Returned tt,
     snd (critical_section quiet_env ten_second_cover 5 (Some 12%Z)
            (locked_world 10 ∅)))
  /\ match Sequential._attr_current_cover_position (locked_world 10 ∅) with
     | None =>
         Returned tt = Raised TypeError
         /\ exists evs,
              trace
                (snd (critical_section quiet_env ten_second_cover 5
                        (Some 12%Z) (locked_world 10 ∅)))
              = trace (locked_world 10 ∅) ++ evs
              /\ commands (outline evs) = []
     | Some q =>
         (exists evs,
             trace
               (snd (critical_section quiet_env ten_second_cover 5
                       (Some 12%Z) (locked_world 10 ∅)))
             = trace (locked_world 10 ∅) ++ evs
             /\ commands (outline evs)
                = [if Qltb q (inject_Z (clamp_target (Some 12%Z)))
                   then OPEN else CLOSE])
         /\ (Returned tt = OutOfFuel \/ finished (Returned tt))
     end.
Proof.
  split; [vm_compute; reflexivity|].
  apply (critical_section_sends_one_direction_command quiet_env
           ten_second_cover 5 (Some 12%Z) (locked_world 10 ∅)
           (Returned tt)).
  vm_compute. reflexivity.
Defined.

(** ** The lock on the cooperative machine *)

Lemma step_task_lock (self : MQTTRelayCover) (r : Concurrent.Request)
    (pc pc' : Concurrent.Pc) (s s' : Concurrent.Shared) :
  Concurrent.step_task self r pc s = Some (pc', s') ->
  lock_step pc s pc' s'.
Proof.
  intros E. unfold lock_step.
  destruct pc; cbn in E;
    unfold Concurrent.begin, Concurrent.enter, Concurrent.loop_body,
      Concurrent.check_loop, Concurrent.leave in E;
    repeat match type of E with
      | context [match ?r with
                 | Concurrent.SetPosition _ => _
                 | _ => _
                 end] => destruct r
      | context [match Concurrent.next_stage ?st with _ => _ end] =>
          destruct (Concurrent.next_stage st)
      | context [if ?b then _ else _] => destruct b eqn:?
      | context [match ?p with Some _ => _ | None => _ end] =>
          destruct p eqn:?
      end;
    try discriminate; inversion E; subst; cbn; auto.
Qed.

Lemma fail_task_lock (pc pc' : Concurrent.Pc) (s s' : Concurrent.Shared) :
  Concurrent.fail_task pc s = Some (pc', s') -> lock_step pc s pc' s'.
Proof.
  intros E. unfold lock_step.
  destruct pc; cbn in E; try discriminate E; inversion E; subst;
    reflexivity.
Qed.

Lemma update_exclusive (m : Concurrent.Machine) (i : nat)
    (r : Concurrent.Request) (pc pc' : Concurrent.Pc)
    (s' : Concurrent.Shared) :
  exclusive m ->
  Concurrent.tasks m !! i = Some (r, pc) ->
  lock_step pc (Concurrent.shared m) pc' s' ->
  exclusive
    {| Concurrent.shared := s';
       Concurrent.tasks := <[ i := (r, pc') ]> (Concurrent.tasks m) |}.
Proof.
  intros [U Lk] Li LS.
  assert (Hi : (i < length (Concurrent.tasks m))%nat)
    by (eapply lookup_lt_Some; eauto).
  assert (Old : forall j rj pcj,
             j <> i ->
             Concurrent.tasks m !! j = Some (rj, pcj) ->
             holds_lock pcj = true ->
             Concurrent._lock (Concurrent.shared m) = true
             /\ (holds_lock pc = true -> False)).
  { intros j rj pcj N Lj Hj. split.
    - apply Lk. eauto.
    - intros Hp. apply N. exact (U _ _ _ _ _ _ Lj Li Hj Hp). }
  assert (New : forall j rj pcj,
             j <> i ->
             Concurrent.tasks m !! j = Some (rj, pcj) ->
             holds_lock pcj = true ->
             holds_lock pc' = true -> False).
  { intros j rj pcj N Lj Hj Hp'.
    destruct (Old _ _ _ N Lj Hj) as [Lt Hp]. unfold lock_step in LS.
    destruct (holds_lock pc); [auto|]. rewrite Hp' in LS.
    destruct LS as [LS _]. congruence. }
  unfold exclusive. cbn [Concurrent.shared Concurrent.tasks]. split.
  - intros j1 j2 r1 pc1 r2 pc2 L1 L2 H1 H2.
    destruct (decide (j1 = i)) as [->|N1];
      destruct (decide (j2 = i)) as [->|N2]; [reflexivity| | |].
    + rewrite list_lookup_insert_eq in L1 by exact Hi.
      rewrite list_lookup_insert_ne in L2 by congruence.
      inversion L1; subst. destruct (New _ _ _ N2 L2 H2 H1).
    + rewrite list_lookup_insert_eq in L2 by exact Hi.
      rewrite list_lookup_insert_ne in L1 by congruence.
      inversion L2; subst. destruct (New _ _ _ N1 L1 H1 H2).
    + rewrite list_lookup_insert_ne in L1 by congruence.
      rewrite list_lookup_insert_ne in L2 by congruence.
      exact (U _ _ _ _ _ _ L1 L2 H1 H2).
  - unfold lock_step in LS. split.
    + intros Lt.
      destruct (holds_lock pc') eqn:Hp'.
      { exists i, r, pc'. split; [|exact Hp'].
        apply list_lookup_insert_eq. exact Hi. }
      destruct (holds_lock pc) eqn:Hp; [congruence|].
      rewrite LS in Lt. apply Lk in Lt.
      destruct Lt as (j & rj & pcj & Lj & Hj).
      exists j, rj, pcj. split; [|exact Hj].
      rewrite list_lookup_insert_ne; [exact Lj|].
      intros ->. rewrite Li in Lj. inversion Lj; subst. congruence.
    + intros (j & rj & pcj & Lj & Hj).
      destruct (decide (j = i)) as [->|N].
      * rewrite list_lookup_insert_eq in Lj by exact Hi.
        inversion Lj; subst. rewrite Hj in LS.
        destruct (holds_lock pc) eqn:Hp; [|apply LS].
        rewrite LS. apply Lk. eauto.
      * rewrite list_lookup_insert_ne in Lj by congruence.
        destruct (Old _ _ _ N Lj Hj) as [Lt Hp].
        destruct (holds_lock pc); [destruct (Hp eq_refl)|].
        destruct (holds_lock pc'); [apply LS|congruence].
Qed.

Lemma step_exclusive (self : MQTTRelayCover) (m m' : Concurrent.Machine)
    (a : Concurrent.Action) :
  exclusive m -> Concurrent.step self m a = Some m' -> exclusive m'.
Proof.
  intros Ex E. destruct a as [i|d|i]; cbn in E.
  - destruct (Concurrent.tasks m !! i) as [[r pc]|] eqn:Li;
      [|discriminate].
    destruct (Concurrent.step_task self r pc (Concurrent.shared m))
      as [[pc' s']|] eqn:Es; [|discriminate].
    inversion E; subst m'; clear E.
    exact (update_exclusive m i r pc pc' s' Ex Li
             (step_task_lock self r pc pc' _ s' Es)).
  - destruct (Qle_bool 0 d); [|discriminate].
    inversion E; subst m'; clear E. destruct Ex as [U Lk].
    split; [exact U|exact Lk].
  - destruct (Concurrent.tasks m !! i) as [[r pc]|] eqn:Li;
      [|discriminate].
    destruct (Concurrent.fail_task pc (Concurrent.shared m))
      as [[pc' s']|] eqn:Es; [|discriminate].
    inversion E; subst m'; clear E.
    exact (update_exclusive m i r pc pc' s' Ex Li
             (fail_task_lock pc pc' _ s' Es)).
Qed.

Lemma exec_exclusive (self : MQTTRelayCover)
    (schedule : list Concurrent.Action) :
  forall m m',
    exclusive m -> Concurrent.exec self schedule m = Some m' -> exclusive m'.
Proof.
  induction schedule as [|a schedule IH]; intros m m' Inv E; cbn in E.
  - inversion E; subst. exact Inv.
  - destruct (Concurrent.step self m a) as [m1|] eqn:S; [|discriminate].
    eapply IH; [|exact E]. eapply step_exclusive; eauto.
Qed.

Lemma boot_exclusive (self : MQTTRelayCover) (p t : Q)
    (requests : list Concurrent.Request) :
  exclusive (Concurrent.boot self p t requests).
Proof.
  assert (N : forall j r pc,
             Concurrent.tasks (Concurrent.boot self p t requests) !! j
             = Some (r, pc) ->
             holds_lock pc = false).
  { intros j r pc L. cbn in L. rewrite list_lookup_fmap in L.
    destruct (requests !! j); inversion L; subst. reflexivity. }
  split.
  - intros i j ri pci rj pcj Li _ Hi. rewrite (N _ _ _ Li) in Hi.
    discriminate.
  - split; [cbn; discriminate|].
    intros (i & r & pc & L & H). rewrite (N _ _ _ L) in H. discriminate.
Qed.

(** X12.  Mutual exclusion on the cooperative machine.  From the start of
    the entity, after any schedule of any requests (moves, opens, closes,
    stops, calibrations): at most one task is inside [async with
    self._lock], and the lock is held exactly when some task is. *)
Theorem lock_is_held_by_one_task_at_most
    (self : MQTTRelayCover) (p t : Q)
    (requests : list Concurrent.Request)
    (schedule : list Concurrent.Action) (m : Concurrent.Machine) :
  Concurrent.exec self schedule (Concurrent.boot self p t requests)
  = Some m ->
  exclusive m.
Proof.
  intros E. eapply exec_exclusive; [apply boot_exclusive|exact E].
Qed.

Lemma lock_is_held_by_one_task_at_most_witness :
  Concurrent.exec one_second_cover overlapped_prefix
    (Concurrent.boot one_second_cover 0 0 overlapping_moves)
  = Some (machine_after one_second_cover overlapped_prefix
            (Concurrent.boot one_second_cover 0 0 overlapping_moves))
  /\ exclusive
       (machine_after one_second_cover overlapped_prefix
          (Concurrent.boot one_second_cover 0 0 overlapping_moves)).
Proof.
  split; [vm_compute; reflexivity|].
  apply (lock_is_held_by_one_task_at_most one_second_cover 0 0
           overlapping_moves overlapped_prefix).
  vm_compute. reflexivity.
Defined.

Lemma step_task_outside_the_lock (self : MQTTRelayCover)
    (r : Concurrent.Request) (pc pc' : Concurrent.Pc)
    (s s' : Concurrent.Shared) :
  Concurrent.step_task self r pc s = Some (pc', s') ->
  holds_lock pc = false ->
  Concurrent._attr_current_cover_position s'
  = Concurrent._attr_current_cover_position s
  /\ Concurrent.document s' = Concurrent.document s.
Proof.
  intros E H.
  destruct pc; try discriminate H; cbn in E;
    unfold Concurrent.begin, Concurrent.enter, Concurrent.leave in E;
    repeat match type of E with
      | context [match ?r with
                 | Concurrent.SetPosition _ => _
                 | _ => _
                 end] => destruct r
      | context [if ?b then _ else _] => destruct b eqn:?
      | context [match ?p with Some _ => _ | None => _ end] =>
          destruct p eqn:?
      end;
    try discriminate; inversion E; subst; cbn; auto.
Qed.

(** X13.  On the cooperative machine, a step that changes the position or
    the persisted document is a step of a task that was inside [async
    with self._lock] before it: the sampling loop, the calibration and
    the saves write under the lock, and [async_stop_cover], the wait for
    the lock and its acquisition write neither. *)
Theorem position_and_document_change_only_under_the_lock
    (self : MQTTRelayCover) (m m' : Concurrent.Machine)
    (a : Concurrent.Action) :
  Concurrent.step self m a = Some m' ->
  Concurrent._attr_current_cover_position (Concurrent.shared m')
  <> Concurrent._attr_current_cover_position (Concurrent.shared m)
  \/ Concurrent.document (Concurrent.shared m')
     <> Concurrent.document (Concurrent.shared m) ->
  exists i r pc,
    a = Concurrent.Resume i
    /\ Concurrent.tasks m !! i = Some (r, pc)
    /\ holds_lock pc = true.
Proof.
  intros E D. destruct a as [i|d|i]; cbn in E.
  - destruct (Concurrent.tasks m !! i) as [[r pc]|] eqn:Li;
      [|discriminate].
    destruct (Concurrent.step_task self r pc (Concurrent.shared m))
      as [[pc' s']|] eqn:Es; [|discriminate].
    inversion E; subst m'; clear E. cbn in D.
    exists i, r, pc. split; [reflexivity|]. split; [exact Li|].
    destruct (holds_lock pc) eqn:H; [reflexivity|].
    destruct (step_task_outside_the_lock _ _ _ _ _ _ Es H) as [P Dc].
    destruct D as [D|D]; contradiction.
  - destruct (Qle_bool 0 d); [|discriminate].
    inversion E; subst m'; clear E. cbn in D.
    destruct D as [D|D]; contradiction.
  - destruct (Concurrent.tasks m !! i) as [[r pc]|] eqn:Li;
      [|discriminate].
    destruct (Concurrent.fail_task pc (Concurrent.shared m))
      as [[pc' s']|] eqn:Es; [|discriminate].
    inversion E; subst m'; clear E. cbn in D. exfalso.
    destruct pc; cbn in Es; try discriminate Es; inversion Es; subst;
      cbn in D; destruct D as [D|D]; contradiction.
Qed.

Lemma position_and_document_change_only_under_the_lock_witness :
  Concurrent.step one_second_cover
    (machine_after one_second_cover second_sleep_prefix
       (Concurrent.boot one_second_cover 0 0 overlapping_moves))
    (Concurrent.Resume 0)
  = Some (machine_after one_second_cover
            (second_sleep_prefix ++ [Concurrent.Resume 0])
            (Concurrent.boot one_second_cover 0 0 overlapping_moves))
  /\ (Concurrent._attr_current_cover_position
        (Concurrent.shared
           (machine_after one_second_cover
              (second_sleep_prefix ++ [Concurrent.Resume 0])
              (Concurrent.boot one_second_cover 0 0 overlapping_moves)))
      <> Concurrent._attr_current_cover_position
           (Concurrent.shared
              (machine_after one_second_cover second_sleep_prefix
                 (Concurrent.boot one_second_cover 0 0 overlapping_moves)))
      \/ Concurrent.document
           (Concurrent.shared
              (machine_after one_second_cover
                 (second_sleep_prefix ++ [Concurrent.Resume 0])
                 (Concurrent.boot one_second_cover 0 0 overlapping_moves)))
         <> Concurrent.document
              (Concurrent.shared
                 (machine_after one_second_cover second_sleep_prefix
                    (Concurrent.boot one_second_cover 0 0
                       overlapping_moves))))
  /\ exists i r pc,
       Concurrent.Resume 0 = Concurrent.Resume i
       /\ Concurrent.tasks
            (machine_after one_second_cover second_sleep_prefix
               (Concurrent.boot one_second_cover 0 0 overlapping_moves))
          !! i = Some (r, pc)
       /\ holds_lock pc = true.
Proof.
  split; [vm_compute; reflexivity|].
  split; [left; vm_compute; discriminate|].
  apply (position_and_document_change_only_under_the_lock one_second_cover
           (machine_after one_second_cover second_sleep_prefix
              (Concurrent.boot one_second_cover 0 0 overlapping_moves))
           (machine_after one_second_cover
              (second_sleep_prefix ++ [Concurrent.Resume 0])
              (Concurrent.boot one_second_cover 0 0 overlapping_moves))
           (Concurrent.Resume 0)).
  - vm_compute. reflexivity.
  - left. vm_compute. discriminate.
Defined.

(** ** The platform *)

Lemma filter_all {A : Type} (f : A -> bool) (l : list A) :
  (forall x, f x = true) -> List.filter f l = l.
Proof.
  intros H. induction l as [|x l IH]; cbn; [reflexivity|].
  rewrite H, IH. reflexivity.
Qed.

Lemma setup_platform_all (covers : list (string * ConfigType)) :
  Platform.async_setup_platform covers
  = map (fun item => __init__ (fst item) (snd item)) covers.
Proof.
  unfold Platform.async_setup_platform. rewrite filter_all; reflexivity.
Qed.

(** X14.  [async_setup_platform] hands over one entity for every cover of
    the configuration, in the order of the configuration: the condition
    of the comprehension, [not _LOGGER.info(...)], drops none.  When no
    cover configures a unique id, the unique ids of the entities are the
    keys of the configuration, so they are pairwise distinct. *)
Theorem setup_platform_makes_one_entity_per_cover
    (covers : list (string * ConfigType)) :
  NoDup (map fst covers) ->
  (forall item, item ∈ covers -> CONF_UNIQUE_ID (snd item) = None) ->
  Platform.async_setup_platform covers
  = map (fun item => __init__ (fst item) (snd item)) covers
  /\ length (Platform.async_setup_platform covers) = length covers
  /\ map unique_id (Platform.async_setup_platform covers) = map fst covers
  /\ NoDup (map unique_id (Platform.async_setup_platform covers)).
Proof.
  intros N H. rewrite setup_platform_all.
  assert (U : map unique_id
                (map (fun item => __init__ (fst item) (snd item)) covers)
              = map fst covers).
  { clear N. induction covers as [|item covers IH]; cbn; [reflexivity|].
    rewrite (H item) by apply list_elem_of_here. cbn.
    f_equal. apply IH. intros x Hx. apply H, list_elem_of_further, Hx. }
  split; [reflexivity|]. split; [apply length_map|].
  split; [exact U|]. rewrite U. exact N.
Qed.

Lemma setup_platform_makes_one_entity_per_cover_witness :
  NoDup (map fst two_covers)
  /\ (forall item, item ∈ two_covers -> CONF_UNIQUE_ID (snd item) = None)
  /\ Platform.async_setup_platform two_covers
     = map (fun item => __init__ (fst item) (snd item)) two_covers
  /\ length (Platform.async_setup_platform two_covers) = length two_covers
  /\ map unique_id (Platform.async_setup_platform two_covers)
     = map fst two_covers
  /\ NoDup (map unique_id (Platform.async_setup_platform two_covers)).
Proof.
  assert (N : NoDup (map fst two_covers)).
  { cbn. apply NoDup_cons_2; [|apply NoDup_singleton].
    intros H. apply list_elem_of_singleton in H. discriminate H. }
  assert (H : forall item,
             item ∈ two_covers -> CONF_UNIQUE_ID (snd item) = None).
  { intros item H. apply elem_of_cons in H as [->|H]; [reflexivity|].
    apply list_elem_of_singleton in H as ->. reflexivity. }
  split; [exact N|]. split; [exact H|].
  apply (setup_platform_makes_one_entity_per_cover two_covers N H).
Defined.

(** ** The config entries *)

(** X15.  [async_setup_entry] stores the data of the entry under the
    domain and the entry id before it sets up the platforms, so the data
    is there also when that set-up raises.  A successful
    [async_unload_entry] of the same entry then removes it again: what
    [hass.data] held for the domain before is back, except that the
    domain key stays, with an empty dict when it was not there before. *)
Theorem unload_after_setup_removes_the_entry
    (Data : Type) (forwarded : bool) (entry_id : string) (entry_data : Data)
    (hass_data : gmap string (gmap string Data)) :
  let stored :=
    snd (Integration.async_setup_entry Data forwarded entry_id entry_data
           hass_data) in
  (stored !! DOMAIN) ≫= (fun entries => entries !! entry_id)
  = Some entry_data
  /\ Integration.async_unload_entry Data true entry_id stored
     = (Integration.Finished true,
        <[ DOMAIN := delete entry_id (default ∅ (hass_data !! DOMAIN)) ]>
          hass_data)
  /\ (forall entries,
        hass_data !! DOMAIN = Some entries ->
        entries !! entry_id = None ->
        snd (Integration.async_unload_entry Data true entry_id stored)
        = hass_data)
  /\ (hass_data !! DOMAIN = None ->
      snd (Integration.async_unload_entry Data true entry_id stored)
      = <[ DOMAIN := ∅ ]> hass_data).
Proof.
  cbn zeta. unfold Integration.async_setup_entry. cbn [snd].
  set (dd := default ∅ (hass_data !! DOMAIN)).
  assert (U : Integration.async_unload_entry Data true entry_id
                (<[ DOMAIN := <[ entry_id := entry_data ]> dd ]> hass_data)
              = (Integration.Finished true,
                 <[ DOMAIN := delete entry_id dd ]> hass_data)).
  { unfold Integration.async_unload_entry.
    rewrite lookup_insert_eq, lookup_insert_eq.
    rewrite insert_insert_eq, delete_insert_eq. reflexivity. }
  split; [rewrite lookup_insert_eq; cbn; apply lookup_insert_eq|].
  split; [exact U|]. rewrite U. cbn [snd]. split.
  - intros entries H N. unfold dd. rewrite H. cbn.
    rewrite (delete_id _ _ N). apply insert_id. exact H.
  - intros H. unfold dd. rewrite H. cbn. rewrite delete_empty.
    reflexivity.
Qed.

(** X16.  After an [async_unload_entry] that removed the entry, the entry
    is gone but the domain key is still there, the other entries are as
    they were, and a second [async_unload_entry] of the same entry whose
    platforms unload raises [KeyError] and changes nothing. *)
Theorem second_unload_raises_key_error
    (Data : Type) (entry_id : string)
    (hass_data hass_data' : gmap string (gmap string Data)) :
  Integration.async_unload_entry Data true entry_id hass_data
  = (Integration.Finished true, hass_data') ->
  (exists entries,
      hass_data' !! DOMAIN = Some entries
      /\ entries !! entry_id = None
      /\ forall other,
           other <> entry_id ->
           entries !! other
           = (hass_data !! DOMAIN) ≫= (fun before => before !! other))
  /\ Integration.async_unload_entry Data true entry_id hass_data'
     = (Integration.KeyError, hass_data').
Proof.
  unfold Integration.async_unload_entry.
  destruct (hass_data !! DOMAIN) as [dd|] eqn:D; [|discriminate].
  destruct (dd !! entry_id) eqn:L; [|discriminate].
  intros E. injection E as <-.
  rewrite lookup_insert_eq, lookup_delete_eq. split; [|reflexivity].
  exists (delete entry_id dd). split; [reflexivity|].
  split; [apply lookup_delete_eq|].
  intros other N. cbn. apply lookup_delete_ne. congruence.
Qed.

Lemma second_unload_raises_key_error_witness :
  Integration.async_unload_entry nat true "entry-1" one_entry
  = (Integration.Finished true,
     snd (Integration.async_unload_entry nat true "entry-1" one_entry))
  /\ (exists entries,
        snd (Integration.async_unload_entry nat true "entry-1" one_entry)
        !! DOMAIN = Some entries
        /\ entries !! "entry-1"%string = None
        /\ forall other,
             other <> "entry-1"%string ->
             entries !! other
             = (one_entry !! DOMAIN) ≫= (fun before => before !! other))
  /\ Integration.async_unload_entry nat true "entry-1"
       (snd (Integration.async_unload_entry nat true "entry-1" one_entry))
     = (Integration.KeyError,
        snd (Integration.async_unload_entry nat true "entry-1" one_entry)).
Proof.
  split; [vm_compute; reflexivity|].
  apply (second_unload_raises_key_error nat "entry-1" one_entry
           (snd (Integration.async_unload_entry nat true "entry-1"
                   one_entry))).
  vm_compute. reflexivity.
Defined.

(** ** The estimate never covers the full travel *)

Lemma progress_below_full (l : Locals) (now : Q) :
  0 < movement_time l ->
  now < start_moving_time l + movement_time l ->
  progress_at l now < 100.
Proof.
  intros D B.
  assert (P : progress_at l now * movement_time l
              == (now - start_moving_time l) * 100).
  { unfold progress_at. change (inject_Z _MAX_PERCENT) with 100. field.
    lra. }
  apply (Qmult_lt_r _ _ _ D). rewrite P. lra.
Qed.

Lemma short_of_full_travel_same (q : Q) (w w' : World) :
  Sequential._attr_current_cover_position w'
  = Sequential._attr_current_cover_position w ->
  short_of_full_travel q w -> short_of_full_travel q w'.
Proof.
  intros E (p & P & R). exists p. rewrite E. auto.
Qed.

Section FullTravel.

Variable env : Env.
Variable self : MQTTRelayCover.
Hypothesis monotonic : forall n, 0 <= latency env n.
Hypothesis opening_time_nonneg : 0 <= _opening_time self.
Hypothesis closing_time_nonneg : 0 <= _closing_time self.

Variable kwargs_position : option Z.
Variable q : Q.

Lemma sampling_loop_short (t0 : Q) (fuel : nat) :
  forall w o w',
    short_of_full_travel q w ->
    t0 <= Sequential.clock w ->
    sampling_loop env fuel (locals_of self kwargs_position q t0) w
    = (o, w') ->
    short_of_full_travel q w'.
Proof.
  set (l := locals_of self kwargs_position q t0).
  assert (D0 : 0 <= movement_time l).
  { cbn. unfold movement_time_of. destruct (Qltb q _); assumption. }
  induction fuel as [|fuel IH]; intros w o w' J C E.
  - destruct (loop_condition_cases (target_position l) (start_moving_time l)
                (movement_time l) (Sequential.clock w) w) as [[[|] H]|H].
    + rewrite (sampling_loop_out_of_fuel env l w H) in E.
      injection E as <- <-. exact J.
    + rewrite (sampling_loop_exit env 0 l w H) in E.
      injection E as <- <-. exact J.
    + rewrite (sampling_loop_raise env 0 l w _ H) in E.
      injection E as <- <-. exact J.
  - destruct (loop_condition_cases (target_position l) (start_moving_time l)
                (movement_time l) (Sequential.clock w) w) as [[[|] H]|H].
    + destruct (sleep_eq env _CHECK_INTERVAL w)
        as (w1 & E1 & [P1 _ _ _ _] & _ & C1 & _).
      rewrite (sampling_loop_pass env fuel l w w1 H E1) in E.
      destruct (Qeq_bool (movement_time l) 0) eqn:Z.
      * injection E as <- <-.
        exact (short_of_full_travel_same q w w1 P1 J).
      * assert (D : 0 < movement_time l).
        { apply Qle_lteq in D0. destruct D0 as [D|D]; [exact D|].
          symmetry in D. apply Qeq_bool_iff in D. congruence. }
        pose proof (loop_condition_true_in_budget env _ _ _ _ _ _ H) as B.
        apply Qltb_lt in B.
        pose proof (progress_nonneg l (Sequential.clock w) C B) as G0.
        pose proof (progress_below_full l (Sequential.clock w) D B) as G1.
        eapply IH; [| |exact E].
        -- eexists. split; [reflexivity|].
           set (g := progress_at l (Sequential.clock w)) in *.
           cbn [is_opening_direction initial_position target_position
                  locals_of l].
           unfold next_position.
           destruct (Qltb q (inject_Z (clamp_target kwargs_position)))
             eqn:Dir.
           ++ apply Qltb_lt in Dir. split.
              ** apply Q.min_glb_lt; lra.
              ** eapply Qle_lt_trans; [apply Q.le_min_l|lra].
           ++ apply Qltb_ge in Dir. split.
              ** eapply Qlt_le_trans; [|apply Q.le_max_l]. lra.
              ** apply Q.max_lub_lt; lra.
        -- cbn. rewrite C1. pose proof (monotonic (awaited w)).
           change _CHECK_INTERVAL with (1 # 10). lra.
    + rewrite (sampling_loop_exit env (S fuel) l w H) in E.
      injection E as <- <-. exact J.
    + rewrite (sampling_loop_raise env (S fuel) l w _ H) in E.
      injection E as <- <-. exact J.
Qed.

Lemma critical_section_short (fuel : nat) (w : World) (o : Outcome unit)
    (w' : World) :
  Sequential._attr_current_cover_position w = Some q ->
  critical_section env self fuel kwargs_position w = (o, w') ->
  short_of_full_travel q w'.
Proof.
  intros P E.
  assert (J : short_of_full_travel q w) by (exists q; split; [exact P|lra]).
  unfold critical_section in E. unfold bind at 1 in E.
  destruct (start_movement env self kwargs_position w)
    as [[l|e| |] w1] eqn:E1;
    destruct (still_start_movement env self _ _ _ _ E1) as [_ P1];
    pose proof (short_of_full_travel_same q w w1 P1 J) as J1;
    try (injection E as <- <-; exact J1).
  destruct (start_movement_locals env self _ _ _ _ E1) as (q' & Pq & ->).
  assert (q' = q) by congruence. subst q'.
  destruct (start_movement_finishes env self monotonic kwargs_position w)
    as (o0 & w0 & E0 & F0).
  rewrite E1 in E0. injection E0 as <- <-. destruct F0 as (_ & _ & C0).
  unfold bind at 1 in E.
  destruct (sampling_loop env fuel _ w1) as [[now|e| |] w2] eqn:E2;
    pose proof (sampling_loop_short _ _ _ _ _ J1 C0 E2) as J2;
    try (injection E as <- <-; exact J2).
  unfold bind, gets in E. cbn in E.
  exact (short_of_full_travel_same q w2 w'
           (save_keeps_position env _ _ _ _ E) J2).
Qed.

End FullTravel.

(** X17.  The block under [async with self._lock] of
    [async_set_cover_position], on a monotonic clock, for a cover whose
    travel times are not negative, whatever the target, the fuel, the
    stops from other tasks, the failures and the outcome: it leaves the
    estimate less than a full travel away from the position it read at
    its start, because a pass of the loop computes its progress from a
    time that is still within the travel time.  So a movement that reads
    an estimate of 100 or more, [async_close_cover] included, leaves the
    block with a cover that does not count as closed. *)
Theorem estimate_never_covers_the_full_travel
    (env : Env) (self : MQTTRelayCover) (fuel : nat)
    (kwargs_position : option Z) (q : Q) (w : World) (o : Outcome unit)
    (w' : World) :
  (forall n, 0 <= latency env n) ->
  0 <= _opening_time self ->
  0 <= _closing_time self ->
  Sequential._attr_current_cover_position w = Some q ->
  critical_section env self fuel kwargs_position w = (o, w') ->
  short_of_full_travel q w'
  /\ (100 <= q -> is_closed w' = false).
Proof.
  intros Mono Ho Hc P E.
  pose proof (critical_section_short env self Mono Ho Hc kwargs_position q
                fuel w o w' P E) as J.
  split; [exact J|].
  intros Hq. destruct J as (p & Pp & R). unfold is_closed. rewrite Pp.
  apply not_true_is_false. intros B. apply Qeq_bool_eq in B. lra.
Qed.

Lemma estimate_never_covers_the_full_travel_witness :
  (forall n, 0 <= latency quiet_env n)
  /\ 0 <= _opening_time one_second_cover
  /\ 0 <= _closing_time one_second_cover
  /\ Sequential._attr_current_cover_position (locked_world 100 ∅)
     = Some 100
  /\ critical_section quiet_env one_second_cover 10
       (Some _MIN_POSITION) (locked_world 100 ∅)
     = (Returned tt,
        snd (critical_section quiet_env one_second_cover 10
               (Some _MIN_POSITION) (locked_world 100 ∅)))
  /\ short_of_full_travel 100
       (snd (critical_section quiet_env one_second_cover 10
               (Some _MIN_POSITION) (locked_world 100 ∅)))
  /\ (100 <= 100 ->
      is_closed
        (snd (critical_section quiet_env one_second_cover 10
                (Some _MIN_POSITION) (locked_world 100 ∅))) = false).
Proof.
  split; [intros n; discriminate|]. split; [discriminate|].
  split; [discriminate|]. split; [reflexivity|].
  split; [vm_compute; reflexivity|].
  apply (estimate_never_covers_the_full_travel quiet_env one_second_cover
           10 (Some _MIN_POSITION) 100 (locked_world 100 ∅) (Returned tt)).
  - intros n. discriminate.
  - discriminate.
  - discriminate.
  - reflexivity.
  - vm_compute. reflexivity.
Defined.
